(** * universe/internal/store: the WAL-backed key/value store

    A shallow embedding of [wal.go] (the buffered, checksummed log and its
    synchronous JSON sibling) and of [store.go] ([Store.New], [Recover],
    [Get], [Set], [Delete], [Close], [applyEntry]), followed by the
    properties the design document states about them.

    Modelling conventions:
    - a [uint32] is a [Z] with the wrap-around [u32] written out;
    - a byte is the standard library's [byte]; a file, a buffer and a
      [[]byte] value are [list byte];
    - the concurrent map [CsMap[string, []byte]] is a [gmap string _];
    - operating-system failures (seek, write, sync, mkdir) are not modelled:
      on an open file every I/O call succeeds, end-of-file being the only
      read condition, and on a closed one every call fails;
    - one owner calls the store; the flusher goroutine is a phase in the
      state of the log, and its moves are events between the owner's calls;
    - [encoding/gob], [encoding/json] are used through an interface
      ([EntryCodec]); [hash/crc32] is written out. *)

From stdpp Require Import gmap strings list fin_maps.
From Stdlib Require Import ZArith Strings.Byte Lia.

Local Open Scope Z_scope.

(** ** Machine integers and bytes *)

Module Bytes.

Definition u32 (z : Z) : Z := z mod 2 ^ 32.

Definition byte_to_Z (b : byte) : Z := Z.of_N (Byte.to_N b).

(** Go's conversion [byte(v)]: the low eight bits. *)
Definition byte_of_Z (z : Z) : byte :=
  match Byte.of_N (Z.to_N (z mod 256)) with
  | Some b => b
  | None => x00
  end.

(** [binary.BigEndian.PutUint32]. *)
Definition PutUint32 (v : Z) : list byte :=
  [ byte_of_Z (Z.shiftr v 24); byte_of_Z (Z.shiftr v 16);
    byte_of_Z (Z.shiftr v 8); byte_of_Z v ].

(** [binary.BigEndian.Uint32]; the callers pass exactly four bytes. *)
Definition Uint32 (b : list byte) : Z :=
  let at_ i := byte_to_Z (nth i b x00) in
  Z.lor (Z.lor (Z.lor (at_ 3%nat) (Z.shiftl (at_ 2%nat) 8))
               (Z.shiftl (at_ 1%nat) 16))
        (Z.shiftl (at_ 0%nat) 24).

End Bytes.

(** ** [hash/crc32]: the IEEE checksum, as the byte-at-a-time update *)

Module CRC32.
Import Bytes.

Definition IEEE : Z := 0xedb88320.

(** One of the eight rounds that fill a table slot. *)
Definition round (crc : Z) : Z :=
  if Z.land crc 1 =? 1 then Z.lxor (Z.shiftr crc 1) IEEE else Z.shiftr crc 1.

Definition table (i : Z) : Z :=
  round (round (round (round (round (round (round (round i))))))).

Definition update1 (crc : Z) (v : byte) : Z :=
  Z.lxor (table (Z.lxor (Z.land crc 255) (byte_to_Z v))) (Z.shiftr crc 8).

Definition ChecksumIEEE (p : list byte) : Z :=
  u32 (Z.lxor (fold_left update1 p 0xffffffff) 0xffffffff).

End CRC32.

(** ** Log entries and their serialisation *)

Definition OperationType := string.
Definition OperationSet : OperationType := "set"%string.
Definition OperationDelete : OperationType := "delete"%string.

Record WALEntry := mkEntry {
  Type_ : OperationType;
  Key : string;
  Value : list byte
}.

#[global] Instance byte_eq_decision : EqDecision byte := Byte.byte_eq_dec.

#[global] Instance WALEntry_eq_dec : EqDecision WALEntry.
Proof. solve_decision. Defined.

(** The payload serialiser: [gob.NewEncoder(&buf).Encode(entry)] with
    [buf.Bytes()], and [gob.NewDecoder(bytes.NewReader(payload)).Decode]
    (for the JSON log, [json.Marshal] and [json.Unmarshal]). Both directions
    can fail. *)
Class EntryCodec := {
  Encode : WALEntry -> option (list byte);
  Decode : list byte -> option WALEntry
}.

(** The one property of the library that recovery relies on: a value
    decodes to what was encoded. Nothing about reading a damaged log
    depends on it. *)
Class RoundTrip (codec : EntryCodec) : Prop :=
  Decode_Encode : forall e data, Encode e = Some data -> Decode data = Some e.

(** ** Errors and outcomes *)

Inductive error :=
| ErrCorruptWAL                               (* the package's sentinel *)
| ErrChecksumFailed (expected actual : Z)     (* [... %w] around [ErrCorruptWAL] *)
| ErrDecodeEntry                              (* [store: decode wal entry: %w], around the codec's error *)
| ErrSeekStart                                (* [store: seek wal start: %w], the file being closed *)
| ErrRecoverWAL (cause : error)               (* [store: recover wal: %w] *)
| ErrKeyEmpty.                                (* [store: key must not be empty] *)

(** [errors.Is(err, ErrCorruptWAL)]: follows the [%w] chain. *)
Fixpoint IsCorruptWAL (e : error) : bool :=
  match e with
  | ErrCorruptWAL => true
  | ErrChecksumFailed _ _ => true
  | ErrRecoverWAL cause => IsCorruptWAL cause
  | ErrDecodeEntry | ErrSeekStart | ErrKeyEmpty => false
  end.

Inductive result (A : Type) :=
| Ok (a : A)
| Err (e : error).
Arguments Ok {A} a.
Arguments Err {A} e.

(** How a call ends: it returns, it panics, or it never returns. *)
Inductive Outcome (A : Type) :=
| Returns (a : A)
| Panics
| Blocks.
Arguments Returns {A} a.
Arguments Panics {A}.
Arguments Blocks {A}.

(** ** Reading: [io.ReadFull] on the rest of the file *)

Inductive ReadResult :=
| ReadOk (buf rest : list byte)
| ReadEOF
| ReadUnexpectedEOF.

Definition ReadFull (reader : list byte) (n : nat) : ReadResult :=
  match n with
  | O => ReadOk [] reader
  | S _ =>
      match reader with
      | [] => ReadEOF
      | _ :: _ =>
          if (length reader <? n)%nat then ReadUnexpectedEOF
          else ReadOk (take n reader) (drop n reader)
      end
  end.

Definition lengthPrefix : nat := 4.
Definition checksumSize : nat := 4.
Definition bufferSize : nat := 100.

(** What one turn of the [for] loop of [ReadAll] does. *)
Inductive Iter :=
| IterBreak
| IterReturn (e : error)
| IterAppend (entry : WALEntry) (reader : list byte).

(** ** The buffered, checksummed log ([wal.go], first design) *)

Module WAL.
Import Bytes CRC32.

(** Where the flusher goroutine stands: in its [select]; woken, on its
    way to [swapBuffers]; inside [flushBuffer] behind the swap; returned. *)
Inductive phase := Idle | Woken | Swapped | Gone.

(** The fields of the Go struct that carry state. [file] is the content of
    the file behind the descriptor, [writer] what the [bufio.Writer] holds,
    [flushChan] whether the one-slot channel holds a signal, [doneChan]
    whether that channel has been closed, [flusher] where the goroutine
    started by [NewWAL] stands. The mutexes, the wait group and the ticker
    have no state of their own here. *)
Record t := mk {
  file : list byte;
  fileOpen : bool;
  writer : list byte;
  flushChan : bool;
  doneChan : bool;
  flusher : phase;
  activeBuffer : list WALEntry;
  pendingBuffer : list WALEntry
}.

Definition with_buffers (w : t) (active pending : list WALEntry) : t :=
  mk (file w) (fileOpen w) (writer w) (flushChan w) (doneChan w) (flusher w)
     active pending.

Definition with_flushChan (w : t) (b : bool) : t :=
  mk (file w) (fileOpen w) (writer w) b (doneChan w) (flusher w)
     (activeBuffer w) (pendingBuffer w).

Definition with_doneChan (w : t) (b : bool) : t :=
  mk (file w) (fileOpen w) (writer w) (flushChan w) b (flusher w)
     (activeBuffer w) (pendingBuffer w).

Definition with_flusher (w : t) (ph : phase) : t :=
  mk (file w) (fileOpen w) (writer w) (flushChan w) (doneChan w) ph
     (activeBuffer w) (pendingBuffer w).

Definition with_fileOpen (w : t) (b : bool) : t :=
  mk (file w) b (writer w) (flushChan w) (doneChan w) (flusher w)
     (activeBuffer w) (pendingBuffer w).

(** [w.writer.Write(p)]. *)
Definition writerWrite (w : t) (p : list byte) : t :=
  mk (file w) (fileOpen w) (writer w ++ p) (flushChan w) (doneChan w)
     (flusher w) (activeBuffer w) (pendingBuffer w).

(** [w.writer.Flush(); w.file.Sync()]: on a closed file the write fails,
    the error is dropped and the bytes stay in the writer. *)
Definition writerFlush (w : t) : t :=
  if fileOpen w
  then mk (file w ++ writer w) true [] (flushChan w) (doneChan w) (flusher w)
          (activeBuffer w) (pendingBuffer w)
  else w.

(** [NewWAL]: [O_CREATE|O_RDWR|O_APPEND] on the path; [onDisk] is the
    content found there, [None] when there is no file yet. The flusher is
    started. *)
Definition NewWAL (onDisk : option (list byte)) : t :=
  mk (default [] onDisk) true [] false false Idle [] [].

(** [Append], called with [w.mu] held until it returns. At the threshold
    it sends on [flushChan]. An empty slot takes the signal. With the slot
    taken the send waits for a receive: a flusher in its [select] takes
    the old signal, which wakes it, and the send refills the slot; a
    flusher that is woken or inside a cycle needs [w.mu] before it comes
    back to its [select], and one that has returned never receives, so
    the send waits for ever. *)
Definition Append (w : t) (entry : WALEntry) : Outcome (t * option error) :=
  let w1 := with_buffers w (activeBuffer w ++ [entry]) (pendingBuffer w) in
  if (bufferSize <=? length (activeBuffer w1))%nat
  then if flushChan w1
       then match flusher w1 with
            | Idle => Returns (with_flusher w1 Woken, None)
            | Woken | Swapped | Gone => Blocks
            end
       else Returns (with_flushChan w1 true, None)
  else Returns (w1, None).

Definition swapBuffers (w : t) : t :=
  match activeBuffer w with
  | [] => w
  | _ :: _ => with_buffers w (pendingBuffer w) (activeBuffer w)
  end.

Section Codec.
Context {codec : EntryCodec}.

(** The bytes one turn of the loop of [flushBuffer] hands to the writer:
    nothing when encoding fails ([continue]), otherwise length, checksum
    and payload. *)
Definition frame (entry : WALEntry) : list byte :=
  match Encode entry with
  | None => []
  | Some data =>
      PutUint32 (u32 (Z.of_nat (length data))) ++
      PutUint32 (ChecksumIEEE data) ++ data
  end.

(** [flushBuffer] behind its call of [swapBuffers]: the pending entries
    go to the writer, the writer to the file, the pending buffer is
    emptied. *)
Definition writePending (w : t) : t :=
  let w2 := fold_left (fun w' entry => writerWrite w' (frame entry))
                      (pendingBuffer w) w in
  let w3 := writerFlush w2 in
  with_buffers w3 (activeBuffer w3) [].

Definition flushBuffer (w : t) : t := writePending (swapBuffers w).

(** The body of the loop of [ReadAll]. *)
Definition readEntry (reader : list byte) : Iter :=
  match ReadFull reader lengthPrefix with
  | ReadEOF => IterBreak
  | ReadUnexpectedEOF => IterReturn ErrCorruptWAL
  | ReadOk lengthBuf reader1 =>
      let length_ := Uint32 lengthBuf in
      if length_ =? 0 then IterReturn ErrCorruptWAL
      else
        match ReadFull reader1 checksumSize with
        | ReadEOF | ReadUnexpectedEOF => IterReturn ErrCorruptWAL
        | ReadOk checksumBuf reader2 =>
            let expectedChecksum := Uint32 checksumBuf in
            match ReadFull reader2 (Z.to_nat length_) with
            | ReadEOF | ReadUnexpectedEOF => IterReturn ErrCorruptWAL
            | ReadOk payload reader3 =>
                let actualChecksum := ChecksumIEEE payload in
                if negb (actualChecksum =? expectedChecksum)
                then IterReturn (ErrChecksumFailed expectedChecksum actualChecksum)
                else
                  match Decode payload with
                  | None => IterReturn ErrDecodeEntry
                  | Some entry => IterAppend entry reader3
                  end
            end
        end
  end.

(** The loop, with a bound on the number of turns; [None] is the bound
    running out. On an error the entries read so far are dropped
    ([return nil, err]). *)
Fixpoint readLoop (fuel : nat) (reader : list byte) (entries : list WALEntry)
  : option (result (list WALEntry)) :=
  match fuel with
  | O => None
  | S fuel' =>
      match readEntry reader with
      | IterBreak => Some (Ok entries)
      | IterReturn e => Some (Err e)
      | IterAppend entry reader' => readLoop fuel' reader' (entries ++ [entry])
      end
  end.

(** The scan from offset 0. Every turn that goes on consumes at least nine
    bytes, so one turn per byte and one more is enough ([readLoop_enough]):
    the default is never taken. *)
Definition scan (content : list byte) : result (list WALEntry) :=
  default (Err ErrCorruptWAL) (readLoop (S (length content)) content []).

(** [ReadAll], as [New] runs it: before the first [Append], when a cycle
    of the flusher finds both buffers empty. *)
Definition ReadAll (w : t) : t * result (list WALEntry) :=
  let w1 := flushBuffer w in
  if fileOpen w1 then (w1, scan (file w1)) else (w1, Err ErrSeekStart).

(** [Close]: closing [doneChan] a second time panics. Otherwise
    [wg.Wait] lets the flusher end the cycle it is in, run the cycle it
    owes to [doneChan] and return; the caller then flushes once more and
    closes the file. Cycles the flusher may still run for a tick or a
    signal before it sees [doneChan] find the buffers as these leave
    them. *)
Definition Close (w : t) : Outcome (t * option error) :=
  if doneChan w then Panics
  else
    let w0 := with_doneChan w true in
    let w1 := match flusher w0 with
              | Idle | Gone => w0
              | Woken => flushBuffer w0
              | Swapped => writePending w0
              end in
    let w2 := flushBuffer w1 in
    let w3 := flushBuffer w2 in
    Returns (with_flusher (with_fileOpen w3 false) Gone, None).

(** What wakes the flusher. *)
Inductive wake := WakeTick | WakeSignal.

(** The moves of the flusher between two calls of the owner: it leaves
    its [select] for a tick or a signal; it swaps the buffers; it ends the
    cycle. Writing the pending entries and emptying the pending buffer are
    one move: no call of the owner reads the file or the pending buffer. *)
Inductive turn :=
| Wake (k : wake)
| Swap
| Finish.

(** [asyncFlush], one move at a time; [None] when the flusher is not in
    the phase for that move or has no signal to receive. *)
Definition asyncFlush (w : t) (tn : turn) : option t :=
  match tn, flusher w with
  | Wake WakeTick, Idle => Some (with_flusher w Woken)
  | Wake WakeSignal, Idle =>
      if flushChan w then Some (with_flusher (with_flushChan w false) Woken)
      else None
  | Swap, Woken => Some (with_flusher (swapBuffers w) Swapped)
  | Finish, Swapped => Some (with_flusher (writePending w) Idle)
  | _, _ => None
  end.

End Codec.
End WAL.

(** ** The synchronous JSON log ([wal.go], second design): its scan *)

Module WALJson.
Import Bytes.

Section Codec.
Context {codec : EntryCodec}.

(** What [Append] writes for one entry, when marshalling succeeds. *)
Definition frame (entry : WALEntry) : option (list byte) :=
  match Encode entry with
  | None => None
  | Some data => Some (PutUint32 (u32 (Z.of_nat (length data))) ++ data)
  end.

Definition readEntry (reader : list byte) : Iter :=
  match ReadFull reader lengthPrefix with
  | ReadEOF => IterBreak
  | ReadUnexpectedEOF => IterReturn ErrCorruptWAL
  | ReadOk lengthBuf reader1 =>
      let length_ := Uint32 lengthBuf in
      if length_ =? 0 then IterReturn ErrCorruptWAL
      else
        match ReadFull reader1 (Z.to_nat length_) with
        | ReadEOF | ReadUnexpectedEOF => IterReturn ErrCorruptWAL
        | ReadOk payload reader2 =>
            match Decode payload with
            | None => IterReturn ErrDecodeEntry
            | Some entry => IterAppend entry reader2
            end
        end
  end.

Fixpoint readLoop (fuel : nat) (reader : list byte) (entries : list WALEntry)
  : option (result (list WALEntry)) :=
  match fuel with
  | O => None
  | S fuel' =>
      match readEntry reader with
      | IterBreak => Some (Ok entries)
      | IterReturn e => Some (Err e)
      | IterAppend entry reader' => readLoop fuel' reader' (entries ++ [entry])
      end
  end.

Definition scan (content : list byte) : result (list WALEntry) :=
  default (Err ErrCorruptWAL) (readLoop (S (length content)) content []).

End Codec.

(** The errors of this design: those of the scan and of the store, and the
    wrappers of [Append], [ReadAll] and [Close] around what the writer or
    the closed file returned. *)
Inductive failure :=
| Of (e : error)
| ErrMarshalEntry          (* [store: marshal wal entry: %w] *)
| ErrWriteLength           (* [store: write wal length: %w] *)
| ErrWritePayload          (* [store: write wal payload: %w] *)
| ErrFlush                 (* [store: flush wal: %w] *)
| ErrSync                  (* [store: sync wal: %w] *)
| ErrFlushBeforeRead       (* [store: flush wal before read: %w] *)
| ErrSeekStartClosed       (* [store: seek wal start: %w] *)
| ErrFlushOnClose          (* [store: flush wal on close: %w] *)
| ErrSyncOnClose           (* [store: sync wal on close: %w] *)
| ErrRecover (cause : failure).   (* [store: recover wal: %w] *)

(** [errors.Is(err, ErrCorruptWAL)]. *)
Fixpoint IsCorrupt (f : failure) : bool :=
  match f with
  | Of e => IsCorruptWAL e
  | ErrRecover cause => IsCorrupt cause
  | _ => false
  end.

(** [bufio]'s default buffer size. *)
Definition defaultBufSize : nat := 4096.

(** The state of the Go struct: the content of the file, whether the
    descriptor is open, what the [bufio.Writer] holds and whether it has
    kept an error. *)
Record t := mk {
  file : list byte;
  fileOpen : bool;
  writer : list byte;
  writerErr : bool
}.

Definition NewWAL (onDisk : option (list byte)) : t :=
  mk (default [] onDisk) true [] false.

(** What is left of the buffer of the writer. *)
Definition available (w : t) : nat := (defaultBufSize - length (writer w))%nat.

(** [w.writer.Write(p)] and whether it returned no error. A writer that
    has kept an error refuses. Bytes that fit what is left of the buffer
    are copied there. Otherwise an empty buffer lets [p] go to the file in
    one write, and a buffer in use is filled and flushed first, the loop
    coming round for the rest of [p]. A write to a closed file fails, and
    the writer keeps the error. *)
Definition writerWrite (w : t) (p : list byte) : t * bool :=
  if writerErr w then (w, false)
  else if (length p <=? available w)%nat
  then (mk (file w) (fileOpen w) (writer w ++ p) false, true)
  else
    match writer w with
    | [] =>
        if fileOpen w then (mk (file w ++ p) true [] false, true)
        else (mk (file w) false [] true, false)
    | _ :: _ =>
        let filled := writer w ++ take (available w) p in
        let rest := drop (available w) p in
        if fileOpen w
        then if (length rest <=? defaultBufSize)%nat
             then (mk (file w ++ filled) true rest false, true)
             else (mk (file w ++ filled ++ rest) true [] false, true)
        else (mk (file w) false filled true, false)
    end.

(** [w.writer.Flush()]: the kept error if any; nothing to do on an empty
    buffer; otherwise one write to the file, which fails when it is
    closed. *)
Definition writerFlush (w : t) : t * bool :=
  if writerErr w then (w, false)
  else
    match writer w with
    | [] => (w, true)
    | _ :: _ =>
        if fileOpen w then (mk (file w ++ writer w) true [] false, true)
        else (mk (file w) false (writer w) true, false)
    end.

Section Log.
Context {codec : EntryCodec}.

Definition Append (w : t) (entry : WALEntry) : t * option failure :=
  match Encode entry with
  | None => (w, Some ErrMarshalEntry)
  | Some data =>
      let prefix := PutUint32 (u32 (Z.of_nat (length data))) in
      let '(w1, ok1) := writerWrite w prefix in
      if negb ok1 then (w1, Some ErrWriteLength)
      else
        let '(w2, ok2) := writerWrite w1 data in
        if negb ok2 then (w2, Some ErrWritePayload)
        else
          let '(w3, ok3) := writerFlush w2 in
          if negb ok3 then (w3, Some ErrFlush)
          else if fileOpen w3 then (w3, None)
          else (w3, Some ErrSync)
  end.

Definition ReadAll (w : t) : t * (list WALEntry + failure) :=
  let '(w1, ok) := writerFlush w in
  if negb ok then (w1, inr ErrFlushBeforeRead)
  else if fileOpen w1
  then match scan (file w1) with
       | Ok entries => (w1, inl entries)
       | Err e => (w1, inr (Of e))
       end
  else (w1, inr ErrSeekStartClosed).

Definition Close (w : t) : t * option failure :=
  let '(w1, ok) := writerFlush w in
  if negb ok then (w1, Some ErrFlushOnClose)
  else if fileOpen w1
  then (mk (file w1) false (writer w1) (writerErr w1), None)
  else (w1, Some ErrSyncOnClose).

End Log.
End WALJson.

(** ** The store ([store.go]) *)

Module Store.

Record t := mk {
  wal : WAL.t;
  data : gmap string (list byte)
}.

Definition applyEntry (s : t) (entry : WALEntry) : t :=
  if decide (Type_ entry = OperationSet)
  then mk (wal s) (<[Key entry := Value entry]> (data s))
  else if decide (Type_ entry = OperationDelete)
  then mk (wal s) (delete (Key entry) (data s))
  else s.

(** [Get]: the value found is returned through [bytes.Clone]; on lists of
    bytes the clone is the list itself. *)
Definition Get (s : t) (key : string) : list byte * bool :=
  match data s !! key with
  | None => ([], false)
  | Some value => (value, true)
  end.

Definition Set_ (s : t) (key : string) (value : list byte)
  : Outcome (t * option error) :=
  if decide (key = ""%string) then Returns (s, Some ErrKeyEmpty)
  else
    let valueCopy := value in
    let entry := mkEntry OperationSet key valueCopy in
    match WAL.Append (wal s) entry with
    | Returns (w, Some err) => Returns (mk w (data s), Some err)
    | Returns (w, None) => Returns (mk w (<[key := valueCopy]> (data s)), None)
    | Panics => Panics
    | Blocks => Blocks
    end.

Definition Delete (s : t) (key : string) : Outcome (t * (bool * option error)) :=
  if decide (key = ""%string) then Returns (s, (false, Some ErrKeyEmpty))
  else
    let entry := mkEntry OperationDelete key [] in
    match WAL.Append (wal s) entry with
    | Returns (w, Some err) => Returns (mk w (data s), (false, Some err))
    | Returns (w, None) =>
        let existed := bool_decide (is_Some (data s !! key)) in
        Returns (mk w (delete key (data s)), (existed, None))
    | Panics => Panics
    | Blocks => Blocks
    end.

Section Codec.
Context {codec : EntryCodec}.

Definition Recover (s : t) : t * option error :=
  match WAL.ReadAll (wal s) with
  | (w, Err e) => (mk w (data s), Some (ErrRecoverWAL e))
  | (w, Ok entries) => (fold_left applyEntry entries (mk w (data s)), None)
  end.

(** [New] on the content found at the path. When recovery fails the log
    is closed, the outcome of that close being dropped, and no store is
    returned. *)
Definition New (onDisk : option (list byte)) : result t :=
  let s := mk (WAL.NewWAL onDisk) ∅ in
  match Recover s with
  | (s', None) => Ok s'
  | (s', Some err) => let _ := WAL.Close (wal s') in Err err
  end.

Definition Close (s : t) : Outcome (t * option error) :=
  match WAL.Close (wal s) with
  | Returns (w, err) => Returns (mk w (data s), err)
  | Panics => Panics
  | Blocks => Blocks
  end.

(** *** Histories: the owner's calls, interleaved with the flusher's moves *)

Inductive call :=
| CallSet (key : string) (value : list byte)
| CallDelete (key : string)
| CallGet (key : string).

Inductive event :=
| EvCall (c : call)
| EvFlusher (tn : WAL.turn).

(** The store after one event; [None] when the call does not return. A
    move the flusher cannot make leaves the store as it is. *)
Definition step (s : t) (ev : event) : option t :=
  match ev with
  | EvCall (CallSet key value) =>
      match Set_ s key value with
      | Returns (s', _) => Some s'
      | Panics | Blocks => None
      end
  | EvCall (CallDelete key) =>
      match Delete s key with
      | Returns (s', _) => Some s'
      | Panics | Blocks => None
      end
  | EvCall (CallGet key) => let _ := Get s key in Some s
  | EvFlusher tn =>
      Some (mk (default (wal s) (WAL.asyncFlush (wal s) tn)) (data s))
  end.

Fixpoint run (s : t) (evs : list event) : option t :=
  match evs with
  | [] => Some s
  | ev :: evs' =>
      match step s ev with
      | Some s' => run s' evs'
      | None => None
      end
  end.

End Codec.
End Store.

(** ** The store over the JSON log: [store.go] with the second design *)

Module StoreJson.

Record t := mk {
  wal : WALJson.t;
  data : gmap string (list byte)
}.

Definition applyEntry (s : t) (entry : WALEntry) : t :=
  if decide (Type_ entry = OperationSet)
  then mk (wal s) (<[Key entry := Value entry]> (data s))
  else if decide (Type_ entry = OperationDelete)
  then mk (wal s) (delete (Key entry) (data s))
  else s.

Definition Get (s : t) (key : string) : list byte * bool :=
  match data s !! key with
  | None => ([], false)
  | Some value => (value, true)
  end.

Section Codec.
Context {codec : EntryCodec}.

Definition Set_ (s : t) (key : string) (value : list byte)
  : t * option WALJson.failure :=
  if decide (key = ""%string) then (s, Some (WALJson.Of ErrKeyEmpty))
  else
    let valueCopy := value in
    let entry := mkEntry OperationSet key valueCopy in
    match WALJson.Append (wal s) entry with
    | (w, Some err) => (mk w (data s), Some err)
    | (w, None) => (mk w (<[key := valueCopy]> (data s)), None)
    end.

Definition Delete (s : t) (key : string)
  : t * (bool * option WALJson.failure) :=
  if decide (key = ""%string) then (s, (false, Some (WALJson.Of ErrKeyEmpty)))
  else
    let entry := mkEntry OperationDelete key [] in
    match WALJson.Append (wal s) entry with
    | (w, Some err) => (mk w (data s), (false, Some err))
    | (w, None) =>
        let existed := bool_decide (is_Some (data s !! key)) in
        (mk w (delete key (data s)), (existed, None))
    end.

Definition Recover (s : t) : t * option WALJson.failure :=
  match WALJson.ReadAll (wal s) with
  | (w, inr e) => (mk w (data s), Some (WALJson.ErrRecover e))
  | (w, inl entries) => (fold_left applyEntry entries (mk w (data s)), None)
  end.

Definition New (onDisk : option (list byte)) : t + WALJson.failure :=
  let s := mk (WALJson.NewWAL onDisk) ∅ in
  match Recover s with
  | (s', None) => inl s'
  | (s', Some err) => let _ := WALJson.Close (wal s') in inr err
  end.

Definition Close (s : t) : t * option WALJson.failure :=
  let '(w, err) := WALJson.Close (wal s) in (mk w (data s), err).

(** The store after one call of the owner, whatever the call returned. *)
Definition step (s : t) (c : Store.call) : t :=
  match c with
  | Store.CallSet key value => fst (Set_ s key value)
  | Store.CallDelete key => fst (Delete s key)
  | Store.CallGet key => let _ := Get s key in s
  end.

Definition run (s : t) (calls : list Store.call) : t :=
  fold_left step calls s.

End Codec.
End StoreJson.

(** ** Byte slices as references: who shares which array

    [Get] and [Set] again, this time with a [[]byte] as a reference to a
    backing array in a heap, to follow what the caller and the store share.
    A slice is [None] for [nil] and [Some l] for an array at [l]; writing
    through a slice replaces the content of its array. Of the log only the
    entries handed to [Append] are kept. *)

Module Aliasing.

Definition loc := positive.
Definition slice := option loc.
Abbreviation heap := (gmap loc (list byte)).

Record entry := mkEntry {
  Type_ : OperationType;
  Key : string;
  Value : slice
}.

Record t := mk {
  appended : list entry;
  data : gmap string slice
}.

Definition contents (h : heap) (b : slice) : list byte :=
  match b with
  | None => []
  | Some l => default [] (h !! l)
  end.

(** [bytes.Clone]: [nil] for [nil], otherwise a new array with the same
    bytes. *)
Definition Clone (h : heap) (b : slice) : heap * slice :=
  match b with
  | None => (h, None)
  | Some l =>
      let l' := fresh (dom h) in
      (<[l' := default [] (h !! l)]> h, Some l')
  end.

(** The caller stores [bs] through a slice it holds. *)
Definition write (h : heap) (b : slice) (bs : list byte) : heap :=
  match b with
  | None => h
  | Some l => <[l := bs]> h
  end.

Definition Get (h : heap) (s : t) (key : string) : heap * (slice * bool) :=
  match data s !! key with
  | None => (h, (None, false))
  | Some value =>
      let '(h1, copyValue) := Clone h value in
      (h1, (copyValue, true))
  end.

Definition Set_ (h : heap) (s : t) (key : string) (value : slice)
  : heap * t * option error :=
  if decide (key = ""%string) then (h, s, Some ErrKeyEmpty)
  else
    let '(h1, valueCopy) := Clone h value in
    let entry := mkEntry OperationSet key valueCopy in
    (h1, mk (appended s ++ [entry]) (<[key := valueCopy]> (data s)), None).

(** Every array the index points to exists. *)
Definition closed (h : heap) (s : t) : Prop :=
  forall key l, data s !! key = Some (Some l) -> l ∈ dom h.

(** The index as the other model has it: keys to bytes. *)
Definition view (h : heap) (s : t) : gmap string (list byte) :=
  contents h <$> data s.

End Aliasing.

(** ** A serialiser to run the definitions with

    Each field is written byte by byte behind a [x01] marker and closed by
    [x00]. It inhabits [EntryCodec]; it is not the gob wire format. *)

Module MarkedCodec.

Fixpoint put (l : list byte) : list byte :=
  match l with
  | [] => [x00]
  | b :: l' => x01 :: b :: put l'
  end.

Fixpoint get (l : list byte) : option (list byte * list byte) :=
  match l with
  | x00 :: rest => Some ([], rest)
  | x01 :: b :: rest =>
      match get rest with
      | Some (f, rest') => Some (b :: f, rest')
      | None => None
      end
  | _ => None
  end.

Definition encode (e : WALEntry) : option (list byte) :=
  Some (put (String.list_byte_of_string (Type_ e)) ++
        put (String.list_byte_of_string (Key e)) ++ put (Value e)).

Definition decode (data : list byte) : option WALEntry :=
  match get data with
  | Some (t, r1) =>
      match get r1 with
      | Some (k, r2) =>
          match get r2 with
          | Some (v, _) =>
              Some (mkEntry (String.string_of_list_byte t)
                            (String.string_of_list_byte k) v)
          | None => None
          end
      | None => None
      end
  | None => None
  end.

Definition codec : EntryCodec := {| Encode := encode; Decode := decode |}.

End MarkedCodec.

(** * The vocabulary of the properties *)

Section Vocabulary.
Context {codec : EntryCodec}.
Import Bytes CRC32.

(** ** Frames in a file *)

(** An intact frame at the head of [r]: a length field that counts the
    payload, not zero, the checksum of the payload, the payload, then [r']. *)
Definition frameAt (r payload r' : list byte) : Prop :=
  exists lengthBuf checksumBuf,
    r = lengthBuf ++ checksumBuf ++ payload ++ r' /\
    length lengthBuf = 4%nat /\ length checksumBuf = 4%nat /\
    Uint32 lengthBuf = Z.of_nat (length payload) /\ payload <> [] /\
    Uint32 checksumBuf = ChecksumIEEE payload.

(** Structural corruption where the next frame should start. A length or
    checksum field cut short by the end of the file and a payload cut
    short are the frame running past the end of the file. *)
Inductive corruptAt (r : list byte) : Prop :=
| TruncatedLength :
    (0 < length r < 4)%nat -> corruptAt r
| ZeroLength :
    (4 <= length r)%nat -> Uint32 (take 4 r) = 0 -> corruptAt r
| PastEndOfFile :
    (4 <= length r)%nat -> Uint32 (take 4 r) <> 0 ->
    Z.of_nat (length r) < 8 + Uint32 (take 4 r) -> corruptAt r
| ChecksumMismatch :
    (4 <= length r)%nat -> Uint32 (take 4 r) <> 0 ->
    8 + Uint32 (take 4 r) <= Z.of_nat (length r) ->
    ChecksumIEEE (take (Z.to_nat (Uint32 (take 4 r))) (drop 8 r))
      <> Uint32 (take 4 (drop 4 r)) ->
    corruptAt r.

(** [content] is [entries], one intact decodable frame each, then [tail]. *)
Inductive Frames : list byte -> list WALEntry -> list byte -> Prop :=
| Frames_nil tail : Frames tail [] tail
| Frames_cons r payload r' entry entries tail :
    frameAt r payload r' -> Decode payload = Some entry ->
    Frames r' entries tail -> Frames r (entry :: entries) tail.

(** The same for the JSON log, whose frames carry no checksum. *)
Definition frameAtJson (r payload r' : list byte) : Prop :=
  exists lengthBuf,
    r = lengthBuf ++ payload ++ r' /\ length lengthBuf = 4%nat /\
    Uint32 lengthBuf = Z.of_nat (length payload) /\ payload <> [].

Inductive corruptAtJson (r : list byte) : Prop :=
| TruncatedLengthJson :
    (0 < length r < 4)%nat -> corruptAtJson r
| ZeroLengthJson :
    (4 <= length r)%nat -> Uint32 (take 4 r) = 0 -> corruptAtJson r
| PastEndOfFileJson :
    (4 <= length r)%nat -> Uint32 (take 4 r) <> 0 ->
    Z.of_nat (length r) < 4 + Uint32 (take 4 r) -> corruptAtJson r.

Inductive FramesJson : list byte -> list WALEntry -> list byte -> Prop :=
| FramesJson_nil tail : FramesJson tail [] tail
| FramesJson_cons r payload r' entry entries tail :
    frameAtJson r payload r' -> Decode payload = Some entry ->
    FramesJson r' entries tail -> FramesJson r (entry :: entries) tail.

(** The result of the rest of a scan, seen from a turn that had already
    collected [acc]. *)
Definition after (acc : list WALEntry) (res : result (list WALEntry))
  : result (list WALEntry) :=
  match res with
  | Ok entries => Ok (acc ++ entries)
  | Err e => Err e
  end.

(** ** What the log holds *)

(** An entry fits a frame when it encodes, to a payload that is not empty
    and whose length a [uint32] holds. *)
Definition fits (entry : WALEntry) : Prop :=
  exists data, Encode entry = Some data /\
               0 < Z.of_nat (length data) < 2 ^ 32.

(** What a flush cycle writes for a buffer. *)
Definition frames (entries : list WALEntry) : list byte :=
  flat_map WAL.frame entries.

(** Outside a cycle nothing is half-written: the file is open, the
    writer and the pending buffer are empty. *)
Definition tidy (w : WAL.t) : Prop :=
  WAL.fileOpen w = true /\ WAL.writer w = [] /\ WAL.pendingBuffer w = [].

(** The send of the next [Append] would wait for ever: the entry takes the
    active buffer to the threshold, the slot is taken, and the flusher is
    not in its [select]. *)
Definition stuck (w : WAL.t) : Prop :=
  (bufferSize <= length (WAL.activeBuffer w) + 1)%nat /\
  WAL.flushChan w = true /\ WAL.flusher w <> WAL.Idle.

(** [w'] is [w] with one more entry in the active buffer; the signal slot
    may have been filled, or the flusher woken. *)
Definition appendedTo (w : WAL.t) (entry : WALEntry) (w' : WAL.t) : Prop :=
  WAL.file w' = WAL.file w /\ WAL.fileOpen w' = WAL.fileOpen w /\
  WAL.writer w' = WAL.writer w /\ WAL.doneChan w' = WAL.doneChan w /\
  WAL.pendingBuffer w' = WAL.pendingBuffer w /\
  WAL.activeBuffer w' = WAL.activeBuffer w ++ [entry] /\
  (WAL.flusher w' = WAL.flusher w \/
   (WAL.flusher w = WAL.Idle /\ WAL.flusher w' = WAL.Woken)).

(** ** Histories *)

(** The entry a call hands to the log, when it gets that far. *)
Definition entryOf (c : Store.call) : option WALEntry :=
  match c with
  | Store.CallSet key value =>
      if decide (key = ""%string) then None
      else Some (mkEntry OperationSet key value)
  | Store.CallDelete key =>
      if decide (key = ""%string) then None
      else Some (mkEntry OperationDelete key [])
  | Store.CallGet _ => None
  end.

Definition callsOf (evs : list Store.event) : list Store.call :=
  omap (fun ev => match ev with
                  | Store.EvCall c => Some c
                  | Store.EvFlusher _ => None
                  end) evs.

Definition logOf (evs : list Store.event) : list WALEntry :=
  omap entryOf (callsOf evs).

(** [Set("k", nil)], [n] times in a row. *)
Definition sets (n : nat) : list Store.event :=
  replicate n (Store.EvCall (Store.CallSet "k" [])).

(** The flusher alone, for a while. *)
Definition flusherMoves (tns : list WAL.turn) : list Store.event :=
  map Store.EvFlusher tns.

(** The index part of [applyEntry]. *)
Definition applyData (m : gmap string (list byte)) (entry : WALEntry)
  : gmap string (list byte) :=
  Store.data (Store.applyEntry (Store.mk (WAL.NewWAL None) m) entry).

(** The reference the recovered index is compared with: a plain map, the
    calls the interface accepts applied in order, the last write winning. *)
Definition accepted (c : Store.call) : bool :=
  match c with
  | Store.CallSet key _ | Store.CallDelete key =>
      negb (bool_decide (key = ""%string))
  | Store.CallGet _ => true
  end.

Definition memApply (m : gmap string (list byte)) (c : Store.call)
  : gmap string (list byte) :=
  match c with
  | Store.CallSet key value => <[key := value]> m
  | Store.CallDelete key => delete key m
  | Store.CallGet _ => m
  end.

Definition lastWriteWins (calls : list Store.call) : gmap string (list byte) :=
  fold_left memApply (filter (fun c => accepted c = true) calls) ∅.

(** What holds of an open store after a history that logged [entries]:
    the file holds the frames of a prefix, the pending buffer, empty
    outside a cycle, what comes next, the active buffer the rest, and the
    index is the replay of all of them. *)
Definition Inv (s : Store.t) (entries : list WALEntry) : Prop :=
  let w := Store.wal s in
  WAL.fileOpen w = true /\ WAL.writer w = [] /\
  WAL.doneChan w = false /\ WAL.flusher w <> WAL.Gone /\
  (WAL.flusher w <> WAL.Swapped -> WAL.pendingBuffer w = []) /\
  (exists done,
     entries = done ++ WAL.pendingBuffer w ++ WAL.activeBuffer w /\
     WAL.file w = frames done) /\
  Store.data s = fold_left applyData entries ∅.

End Vocabulary.

(** ** The log on its own, the bounds of its buffers, the JSON log *)

Section MoreVocabulary.
Context {codec : EntryCodec}.

(** What happens to a log used without the store: an [Append] of its
    owner, or a move of the flusher. *)
Inductive logEvent :=
| Appended (entry : WALEntry)
| Moved (tn : WAL.turn).

Definition logStep (w : WAL.t) (ev : logEvent) : option WAL.t :=
  match ev with
  | Appended entry =>
      match WAL.Append w entry with
      | Returns (w', _) => Some w'
      | Panics | Blocks => None
      end
  | Moved tn => Some (default w (WAL.asyncFlush w tn))
  end.

Fixpoint logRun (w : WAL.t) (evs : list logEvent) : option WAL.t :=
  match evs with
  | [] => Some w
  | ev :: evs' =>
      match logStep w ev with
      | Some w' => logRun w' evs'
      | None => None
      end
  end.

Definition appendedOf (evs : list logEvent) : list WALEntry :=
  omap (fun ev => match ev with
                  | Appended entry => Some entry
                  | Moved _ => None
                  end) evs.

(** What holds of an open log that found [file0] on disk and has taken
    [entries] since: the file has grown by the frames of a prefix of them,
    the pending buffer, empty outside a cycle, holds what comes next and
    the active buffer the rest. *)
Definition sound (file0 : list byte) (w : WAL.t) (entries : list WALEntry)
  : Prop :=
  WAL.fileOpen w = true /\ WAL.writer w = [] /\
  WAL.doneChan w = false /\ WAL.flusher w <> WAL.Gone /\
  (WAL.flusher w <> WAL.Swapped -> WAL.pendingBuffer w = []) /\
  exists more,
    entries = more ++ WAL.pendingBuffer w ++ WAL.activeBuffer w /\
    WAL.file w = file0 ++ frames more.

(** What a history of the store does to its log. *)
Definition logEventsOf (evs : list Store.event) : list logEvent :=
  omap (fun ev => match ev with
                  | Store.EvCall c => Appended <$> entryOf c
                  | Store.EvFlusher tn => Some (Moved tn)
                  end) evs.

(** How full the buffers can be: one entry past the threshold at most, and
    only with the signal sent or the flusher woken; the pending buffer is
    in use inside a cycle only. *)
Definition bounded (w : WAL.t) : Prop :=
  let n := length (WAL.activeBuffer w) in
  (n <= bufferSize + 1)%nat /\
  (length (WAL.pendingBuffer w) <= bufferSize + 1)%nat /\
  ((bufferSize <= n)%nat ->
   WAL.flushChan w = true \/ WAL.flusher w = WAL.Woken) /\
  (n = (bufferSize + 1)%nat ->
   WAL.flushChan w = true /\ WAL.flusher w = WAL.Woken) /\
  (WAL.flusher w <> WAL.Swapped -> WAL.pendingBuffer w = []).

(** The moves of the flusher that leave the buffers where they are. *)
Definition noSwap (ev : Store.event) : Prop :=
  match ev with
  | Store.EvCall _ => True
  | Store.EvFlusher (WAL.Wake _) => True
  | Store.EvFlusher WAL.Swap | Store.EvFlusher WAL.Finish => False
  end.

(** The buffered log once [Close] has returned: the flusher has gone,
    [doneChan] is closed, the file is [file0] for good, and the active
    buffer fills up to the threshold, the signal then sitting in its slot
    with nobody to receive it. *)
Definition closedLog (file0 : list byte) (w : WAL.t) : Prop :=
  WAL.flusher w = WAL.Gone /\ WAL.doneChan w = true /\
  WAL.file w = file0 /\
  (length (WAL.activeBuffer w) <= bufferSize)%nat /\
  ((bufferSize <= length (WAL.activeBuffer w))%nat ->
   WAL.flushChan w = true).

(** One cycle of the flusher on its tick, and a history in which the
    flusher gets through a cycle after every call. *)
Definition cycle : list Store.event :=
  [ Store.EvFlusher (WAL.Wake WAL.WakeTick); Store.EvFlusher WAL.Swap;
    Store.EvFlusher WAL.Finish ].

Definition paced (calls : list Store.call) : list Store.event :=
  flat_map (fun c => Store.EvCall c :: cycle) calls.

(** An entry whose type [applyEntry] knows. *)
Definition known (entry : WALEntry) : Prop :=
  Type_ entry = OperationSet \/ Type_ entry = OperationDelete.

#[global] Instance known_dec entry : Decision (known entry).
Proof. unfold known. apply _. Defined.



(** The index part of [StoreJson.applyEntry] is that of [Store.applyEntry];
    the entries a history of calls hands to the JSON log. *)
Definition entriesOf (calls : list Store.call) : list WALEntry :=
  omap entryOf calls.

(** [Append] on the JSON log for each entry in turn, with what each call
    returned. *)
Fixpoint appendAll (w : WALJson.t) (entries : list WALEntry)
  : WALJson.t * list (option WALJson.failure) :=
  match entries with
  | [] => (w, [])
  | entry :: entries' =>
      let '(w1, out) := WALJson.Append w entry in
      let '(w2, outs) := appendAll w1 entries' in
      (w2, out :: outs)
  end.

End MoreVocabulary.

(** ** Two statements that the code does not meet *)

(** C4, as stated: once [Close] has returned, [Set], [Delete] and [Close]
    return an error and [Get] finds nothing. *)
Definition closed_store_fails : Prop :=
  forall (codec : EntryCodec) (s s' : Store.t),
    Store.Close s = Returns (s', None) ->
    forall key value,
      (exists s'' e, Store.Set_ s' key value = Returns (s'', Some e)) /\
      (exists s'' b e, Store.Delete s' key = Returns (s'', (b, Some e))) /\
      (exists s'' e, Store.Close s' = Returns (s'', Some e)) /\
      snd (Store.Get s' key) = false.

(** C6, as stated: a frame with a good length and checksum whose payload
    does not decode makes the scan fail with the corruption error. *)
Definition decode_failure_is_corruption : Prop :=
  forall (codec : EntryCodec) content entries tail payload rest,
    Frames content entries tail ->
    frameAt tail payload rest -> Decode payload = None ->
    exists e, WAL.scan content = Err e /\ IsCorruptWAL e = true.

(** * Properties *)

(** ** The marked serialiser decodes what it encodes *)

Lemma MarkedCodec_get_put l rest :
  MarkedCodec.get (MarkedCodec.put l ++ rest) = Some (l, rest).
Proof.
  induction l as [|b l IH]; cbn; [reflexivity|]. rewrite IH. reflexivity.
Qed.

Lemma MarkedCodec_round_trip : RoundTrip MarkedCodec.codec.
Proof.
  intros e data. cbn. unfold MarkedCodec.encode, MarkedCodec.decode.
  intros [= <-].
  rewrite MarkedCodec_get_put, MarkedCodec_get_put.
  rewrite <- (app_nil_r (MarkedCodec.put (Value e))), MarkedCodec_get_put.
  rewrite !String.string_of_list_byte_of_string. destruct e; reflexivity.
Qed.

(** ** Bytes and big-endian words *)

Section BytesFacts.
Import Bytes.

Lemma byte_to_Z_range b : 0 <= byte_to_Z b < 256.
Proof.
  unfold byte_to_Z. pose proof (Byte.to_N_bounded b). lia.
Qed.

Lemma byte_to_of_Z z : byte_to_Z (byte_of_Z z) = z mod 256.
Proof.
  unfold byte_to_Z, byte_of_Z.
  assert (Hr : 0 <= z mod 256 < 256) by (apply Z.mod_pos_bound; lia).
  destruct (Byte.of_N (Z.to_N (z mod 256))) as [b|] eqn:E.
  - apply Byte.to_of_N in E. rewrite E. lia.
  - apply Byte.of_N_None_iff in E. lia.
Qed.

Lemma u32_range z : 0 <= u32 z < 2 ^ 32.
Proof. apply Z.mod_pos_bound. lia. Qed.

Lemma u32_small z : 0 <= z < 2 ^ 32 -> u32 z = z.
Proof. apply Z.mod_small. Qed.

Lemma length_PutUint32 v : length (PutUint32 v) = 4%nat.
Proof. reflexivity. Qed.

(** Bit [n] of byte number [k / 8] of [v], moved back in place. *)
Lemma testbit_byte_at v k n :
  0 <= k -> 0 <= n ->
  Z.testbit (Z.shiftl (Z.shiftr v k mod 2 ^ 8) k) n =
  Z.testbit v n && (k <=? n) && (n <? k + 8).
Proof.
  intros Hk Hn.
  rewrite Z.shiftl_spec by lia.
  destruct (Z.leb_spec k n) as [Hle|Hlt].
  - rewrite Z.testbit_mod_pow2 by lia.
    rewrite Z.shiftr_spec by lia.
    replace (n - k + k) with n by lia.
    destruct (Z.ltb_spec (n - k) 8), (Z.ltb_spec n (k + 8)); try lia;
      cbn; rewrite ?andb_true_r, ?andb_false_r; reflexivity.
  - rewrite Z.testbit_neg_r by lia. rewrite andb_false_r. reflexivity.
Qed.

Lemma testbit_above_u32 v n : 0 <= v < 2 ^ 32 -> 32 <= n -> Z.testbit v n = false.
Proof.
  intros Hv Hn.
  destruct (Z.eq_dec v 0) as [->|Hnz]; [apply Z.bits_0|].
  apply Z.bits_above_log2; [lia|].
  assert (Z.log2 v < 32) by (apply Z.log2_lt_pow2; lia). lia.
Qed.

Lemma Uint32_PutUint32 v : 0 <= v < 2 ^ 32 -> Uint32 (PutUint32 v) = v.
Proof.
  intros Hv. unfold Uint32, PutUint32. cbn [nth].
  rewrite !byte_to_of_Z. change 256 with (2 ^ 8).
  rewrite <- (Z.shiftl_0_r (v mod 2 ^ 8)).
  rewrite <- (Z.shiftr_0_r v) at 1.
  apply Z.bits_inj'. intros n Hn.
  rewrite !Z.lor_spec, !testbit_byte_at by lia.
  destruct (Z.ltb_spec n 32) as [H32|H32].
  - destruct (Z.testbit v n); cbn [andb]; [|reflexivity].
    destruct (Z.leb_spec 0 n), (Z.ltb_spec n (0 + 8)), (Z.leb_spec 8 n),
      (Z.ltb_spec n (8 + 8)), (Z.leb_spec 16 n), (Z.ltb_spec n (16 + 8)),
      (Z.leb_spec 24 n), (Z.ltb_spec n (24 + 8)); try lia; reflexivity.
  - rewrite (testbit_above_u32 v n) by lia. reflexivity.
Qed.

Lemma ChecksumIEEE_range p : 0 <= CRC32.ChecksumIEEE p < 2 ^ 32.
Proof. apply u32_range. Qed.

(** The standard check value: the checksum of the ASCII digits 1 to 9. *)
Example ChecksumIEEE_check :
  CRC32.ChecksumIEEE [x31; x32; x33; x34; x35; x36; x37; x38; x39] = 0xcbf43926.
Proof. vm_compute. reflexivity. Qed.

End BytesFacts.

(** ** [io.ReadFull] *)

Lemma ReadFull_app (buf rest : list byte) :
  ReadFull (buf ++ rest) (length buf) = ReadOk buf rest.
Proof.
  unfold ReadFull. destruct buf as [|b buf]; [reflexivity|].
  cbn [length app].
  replace (_ <? _)%nat with false.
  - change (b :: buf ++ rest) with ((b :: buf) ++ rest).
    change (S (length buf)) with (length (b :: buf)).
    rewrite take_app_length, drop_app_length. reflexivity.
  - symmetry. apply Nat.ltb_ge. rewrite length_app. lia.
Qed.

Lemma ReadFull_ok reader n buf rest :
  ReadFull reader n = ReadOk buf rest ->
  reader = buf ++ rest /\ length buf = n.
Proof.
  unfold ReadFull. destruct n as [|n].
  - intros [= <- <-]. split; reflexivity.
  - destruct reader as [|b reader]; [discriminate|].
    destruct (Nat.ltb_spec (length (b :: reader)) (S n)) as [Hlt|Hge];
      [discriminate|].
    intros [= <- <-]. split.
    + symmetry. exact (take_drop (S n) (b :: reader)).
    + exact (length_take_le (b :: reader) (S n) Hge).
Qed.

Lemma ReadFull_eof reader n :
  ReadFull reader n = ReadEOF <-> reader = [] /\ n <> 0%nat.
Proof.
  unfold ReadFull. destruct n as [|n].
  - split; [discriminate|]. intros [_ H]. congruence.
  - destruct reader as [|b reader].
    + split; [split; [reflexivity|lia]|reflexivity].
    + destruct (_ <? _)%nat; split; try discriminate; intros [H _]; discriminate.
Qed.

Lemma ReadFull_short reader n :
  ReadFull reader n = ReadUnexpectedEOF <-> (0 < length reader < n)%nat.
Proof.
  unfold ReadFull. destruct n as [|n].
  - split; [discriminate|lia].
  - destruct reader as [|b reader].
    + split; [discriminate|cbn; lia].
    + destruct (Nat.ltb_spec (length (b :: reader)) (S n)) as [Hlt|Hge].
      * split; [cbn in *; lia|reflexivity].
      * split; [discriminate|cbn in *; lia].
Qed.

(** ** The scan of the checksummed log *)

Section ScanFacts.
Context {codec : EntryCodec}.
Import Bytes CRC32.

Lemma Uint32_nonneg b : 0 <= Uint32 b.
Proof.
  unfold Uint32.
  repeat (apply Z.lor_nonneg; split);
    try apply Z.shiftl_nonneg; apply byte_to_Z_range.
Qed.

Lemma frameAt_length r payload r' :
  frameAt r payload r' -> (length r = 8 + length payload + length r')%nat.
Proof.
  intros (lb & cb & -> & Hl & Hc & _). rewrite !length_app. lia.
Qed.

Lemma readEntry_frame r payload r' entry :
  frameAt r payload r' -> Decode payload = Some entry ->
  WAL.readEntry r = IterAppend entry r'.
Proof.
  intros (lb & cb & -> & Hl & Hc & Hlen & Hne & Hsum) Hdec.
  unfold WAL.readEntry, lengthPrefix, checksumSize.
  rewrite <- Hl at 1. rewrite ReadFull_app. cbv zeta.
  rewrite Hlen.
  destruct (Z.eqb_spec (Z.of_nat (length payload)) 0) as [H0|_].
  { destruct payload; [congruence|cbn in H0; lia]. }
  rewrite <- Hc at 1. rewrite ReadFull_app.
  rewrite Nat2Z.id, ReadFull_app, Hsum, Z.eqb_refl. cbn [negb].
  rewrite Hdec. reflexivity.
Qed.

Lemma readEntry_undecodable r payload r' :
  frameAt r payload r' -> Decode payload = None ->
  WAL.readEntry r = IterReturn ErrDecodeEntry.
Proof.
  intros (lb & cb & -> & Hl & Hc & Hlen & Hne & Hsum) Hdec.
  unfold WAL.readEntry, lengthPrefix, checksumSize.
  rewrite <- Hl at 1. rewrite ReadFull_app. cbv zeta.
  rewrite Hlen.
  destruct (Z.eqb_spec (Z.of_nat (length payload)) 0) as [H0|_].
  { destruct payload; [congruence|cbn in H0; lia]. }
  rewrite <- Hc at 1. rewrite ReadFull_app.
  rewrite Nat2Z.id, ReadFull_app, Hsum, Z.eqb_refl. cbn [negb].
  rewrite Hdec. reflexivity.
Qed.

(** What each way out of one turn of the loop says about the bytes. *)
Lemma readEntry_spec r :
  match WAL.readEntry r with
  | IterBreak => r = []
  | IterReturn e =>
      (IsCorruptWAL e = true /\ corruptAt r) \/
      (e = ErrDecodeEntry /\
       exists payload r', frameAt r payload r' /\ Decode payload = None)
  | IterAppend entry r' =>
      exists payload, frameAt r payload r' /\ Decode payload = Some entry
  end.
Proof.
  unfold WAL.readEntry, lengthPrefix, checksumSize.
  destruct (ReadFull r 4) as [lb r1| |] eqn:E1.
  2:{ apply ReadFull_eof in E1. tauto. }
  2:{ apply ReadFull_short in E1. left. split; [reflexivity|].
      apply TruncatedLength. exact E1. }
  apply ReadFull_ok in E1 as [-> Hl]. cbv zeta.
  pose proof (Uint32_nonneg lb) as Hnn.
  assert (Ht : take 4 (lb ++ r1) = lb) by (apply take_app_length'; symmetry; exact Hl).
  destruct (Z.eqb_spec (Uint32 lb) 0) as [H0|Hn0].
  { left. split; [reflexivity|]. apply ZeroLength.
    - rewrite length_app. lia.
    - rewrite Ht. exact H0. }
  destruct (ReadFull r1 4) as [cb r2| |] eqn:E2.
  2:{ apply ReadFull_eof in E2 as [-> _]. left. split; [reflexivity|].
      apply PastEndOfFile; rewrite ?Ht, ?length_app; cbn; try lia; exact Hn0. }
  2:{ apply ReadFull_short in E2. left. split; [reflexivity|].
      apply PastEndOfFile; rewrite ?Ht, ?length_app; try lia; exact Hn0. }
  apply ReadFull_ok in E2 as [-> Hc].
  destruct (ReadFull r2 (Z.to_nat (Uint32 lb))) as [payload r3| |] eqn:E3.
  2:{ apply ReadFull_eof in E3 as [-> _]. left. split; [reflexivity|].
      apply PastEndOfFile; rewrite ?Ht, ?length_app; cbn; try lia; exact Hn0. }
  2:{ apply ReadFull_short in E3. left. split; [reflexivity|].
      apply PastEndOfFile; rewrite ?Ht, ?length_app; try lia; exact Hn0. }
  apply ReadFull_ok in E3 as [-> Hp].
  assert (Hframe : ChecksumIEEE payload = Uint32 cb ->
                   frameAt (lb ++ cb ++ payload ++ r3) payload r3).
  { intros Hsum. exists lb, cb. repeat split; try assumption.
    - lia.
    - intros ->. cbn in Hp. lia.
    - symmetry. exact Hsum. }
  destruct (Z.eqb_spec (ChecksumIEEE payload) (Uint32 cb)) as [Hsum|Hsum];
    cbn [negb].
  - destruct (Decode payload) as [entry|] eqn:Hdec.
    + exists payload. split; [apply Hframe; exact Hsum|exact Hdec].
    + right. split; [reflexivity|]. exists payload, r3.
      split; [apply Hframe; exact Hsum|exact Hdec].
  - left. split; [reflexivity|]. apply ChecksumMismatch.
    + rewrite length_app. lia.
    + rewrite Ht. exact Hn0.
    + rewrite Ht, !length_app. lia.
    + rewrite Ht.
      replace (drop 8 (lb ++ cb ++ payload ++ r3)) with (payload ++ r3).
      2:{ rewrite (app_assoc lb cb). symmetry. apply drop_app_length'.
          rewrite length_app. lia. }
      replace (drop 4 (lb ++ cb ++ payload ++ r3)) with (cb ++ payload ++ r3)
        by (symmetry; apply drop_app_length'; symmetry; exact Hl).
      rewrite (take_app_length' payload r3) by (symmetry; exact Hp).
      rewrite (take_app_length' cb) by (symmetry; exact Hc).
      exact Hsum.
Qed.

Lemma after_nil res : after [] res = res.
Proof. destruct res; reflexivity. Qed.

Lemma after_after acc1 acc2 res :
  after acc1 (after acc2 res) = after (acc1 ++ acc2) res.
Proof. destruct res; cbn; [rewrite app_assoc|]; reflexivity. Qed.

Lemma readLoop_acc fuel r acc :
  WAL.readLoop fuel r acc = after acc <$> WAL.readLoop fuel r [].
Proof.
  revert r acc. induction fuel as [|fuel IH]; intros r acc; [reflexivity|].
  cbn [WAL.readLoop]. destruct (WAL.readEntry r) as [|e|entry r'].
  - cbn. rewrite app_nil_r. reflexivity.
  - reflexivity.
  - rewrite (IH r' (acc ++ [entry])), (IH r' ([] ++ [entry])).
    destruct (WAL.readLoop fuel r' []) as [res|]; [|reflexivity].
    cbn [fmap option_fmap option_map app]. rewrite after_after. reflexivity.
Qed.

Lemma readLoop_mono fuel fuel' r acc res :
  WAL.readLoop fuel r acc = Some res -> (fuel <= fuel')%nat ->
  WAL.readLoop fuel' r acc = Some res.
Proof.
  revert fuel' r acc. induction fuel as [|fuel IH]; intros fuel' r acc;
    [discriminate|].
  intros H Hle. destruct fuel' as [|fuel']; [lia|].
  cbn [WAL.readLoop] in *. destruct (WAL.readEntry r); try exact H.
  apply IH; [exact H|lia].
Qed.

(** The loop ends: one turn per byte, and one to see the end of the file. *)
Lemma readLoop_enough fuel r acc :
  (length r < fuel)%nat -> is_Some (WAL.readLoop fuel r acc).
Proof.
  revert r acc. induction fuel as [|fuel IH]; intros r acc Hlt; [lia|].
  cbn [WAL.readLoop]. pose proof (readEntry_spec r) as Hs.
  destruct (WAL.readEntry r) as [|e|entry r']; [eauto..|].
  destruct Hs as (payload & Hf & _). apply frameAt_length in Hf.
  apply IH. lia.
Qed.

Lemma scan_readLoop content :
  WAL.readLoop (S (length content)) content [] = Some (WAL.scan content).
Proof.
  unfold WAL.scan.
  destruct (readLoop_enough (S (length content)) content []) as [res ->];
    [lia|reflexivity].
Qed.

(** The scan, one frame at a time. *)
Lemma scan_unfold r :
  WAL.scan r =
  match WAL.readEntry r with
  | IterBreak => Ok []
  | IterReturn e => Err e
  | IterAppend entry r' => after [entry] (WAL.scan r')
  end.
Proof.
  pose proof (scan_readLoop r) as H. cbn [WAL.readLoop] in H.
  pose proof (readEntry_spec r) as Hs.
  destruct (WAL.readEntry r) as [|e|entry r']; try congruence.
  destruct Hs as (payload & Hf & _). apply frameAt_length in Hf.
  rewrite readLoop_acc in H. cbn [app] in H.
  rewrite (readLoop_mono _ (length r) _ _ _ (scan_readLoop r')) in H by lia.
  change (Some (after [entry] (WAL.scan r')) = Some (WAL.scan r)) in H.
  congruence.
Qed.

Lemma scan_Frames content entries tail :
  Frames content entries tail ->
  WAL.scan content = after entries (WAL.scan tail).
Proof.
  induction 1 as [tail|r payload r' entry entries tail Hf Hdec _ IH].
  - rewrite after_nil. reflexivity.
  - rewrite scan_unfold, (readEntry_frame _ _ _ _ Hf Hdec), IH.
    rewrite after_after. reflexivity.
Qed.

Lemma frameAt_not_corrupt r payload r' : frameAt r payload r' -> ~ corruptAt r.
Proof.
  intros (lb & cb & -> & Hl & Hc & Hlen & Hne & Hsum) Hbad.
  assert (Ht : take 4 (lb ++ cb ++ payload ++ r') = lb)
    by (apply take_app_length'; symmetry; exact Hl).
  assert (Hp : (0 < length payload)%nat)
    by (destruct payload; [congruence|cbn; lia]).
  destruct Hbad as [H|_ H|_ _ H|_ _ _ H]; rewrite ?Ht, ?length_app in H.
  - lia.
  - lia.
  - lia.
  - apply H. rewrite Hlen, Nat2Z.id.
    replace (drop 8 (lb ++ cb ++ payload ++ r')) with (payload ++ r').
    2:{ rewrite (app_assoc lb cb). symmetry. apply drop_app_length'.
        rewrite length_app. lia. }
    replace (drop 4 (lb ++ cb ++ payload ++ r')) with (cb ++ payload ++ r')
      by (symmetry; apply drop_app_length'; symmetry; exact Hl).
    rewrite take_app_length, (take_app_length' cb) by (symmetry; exact Hc).
    symmetry. exact Hsum.
Qed.

Lemma scan_corruptAt tail :
  corruptAt tail -> exists e, WAL.scan tail = Err e /\ IsCorruptWAL e = true.
Proof.
  intros Hbad. rewrite scan_unfold. pose proof (readEntry_spec tail) as Hs.
  destruct (WAL.readEntry tail) as [|e|entry r'].
  - subst tail. destruct Hbad as [H|H _|H _ _|H _ _ _]; cbn in H; lia.
  - destruct Hs as [[He _]|[_ (payload & r' & Hf & _)]].
    + exists e. split; [reflexivity|exact He].
    + destruct (frameAt_not_corrupt _ _ _ Hf Hbad).
  - destruct Hs as (payload & Hf & _).
    destruct (frameAt_not_corrupt _ _ _ Hf Hbad).
Qed.

(** A scan that fails on corruption stopped at a corrupt place behind
    intact frames. *)
Lemma scan_corrupt_inv content e :
  WAL.scan content = Err e -> IsCorruptWAL e = true ->
  exists entries tail, Frames content entries tail /\ corruptAt tail.
Proof.
  remember (length content) as n eqn:Hn. revert content Hn.
  induction n as [n IH] using lt_wf_ind. intros content -> Hscan He.
  rewrite scan_unfold in Hscan. pose proof (readEntry_spec content) as Hs.
  destruct (WAL.readEntry content) as [|e'|entry r']; [discriminate|..].
  - injection Hscan as ->.
    destruct Hs as [[_ Hbad]|[-> _]]; [|discriminate].
    exists [], content. split; [constructor|exact Hbad].
  - destruct Hs as (payload & Hf & Hdec).
    destruct (WAL.scan r') as [es|e''] eqn:Hr'; [discriminate|].
    injection Hscan as ->.
    pose proof (frameAt_length _ _ _ Hf) as Hlen.
    destruct (IH (length r') ltac:(lia) r' eq_refl Hr' He)
      as (entries & tail & HF & Hbad).
    exists (entry :: entries), tail. split; [|exact Hbad].
    econstructor; eassumption.
Qed.

Lemma scan_ok_inv content entries :
  WAL.scan content = Ok entries -> Frames content entries [].
Proof.
  remember (length content) as n eqn:Hn. revert content entries Hn.
  induction n as [n IH] using lt_wf_ind. intros content entries -> Hscan.
  rewrite scan_unfold in Hscan. pose proof (readEntry_spec content) as Hs.
  destruct (WAL.readEntry content) as [|e'|entry r']; [|discriminate|].
  - injection Hscan as <-. subst content. constructor.
  - destruct Hs as (payload & Hf & Hdec).
    destruct (WAL.scan r') as [es|e''] eqn:Hr'; [|discriminate].
    injection Hscan as <-.
    pose proof (frameAt_length _ _ _ Hf) as Hlen.
    econstructor; [eassumption..|].
    apply (IH (length r') ltac:(lia) r' es eq_refl Hr').
Qed.

Lemma scan_nil : WAL.scan [] = Ok [].
Proof. reflexivity. Qed.

End ScanFacts.

(** ** The scan of the JSON log *)

Section ScanFactsJson.
Context {codec : EntryCodec}.
Import Bytes.

Lemma frameAtJson_length r payload r' :
  frameAtJson r payload r' -> (length r = 4 + length payload + length r')%nat.
Proof.
  intros (lb & -> & Hl & _). rewrite !length_app. lia.
Qed.

Lemma readEntry_frame_json r payload r' :
  frameAtJson r payload r' ->
  WALJson.readEntry r =
  match Decode payload with
  | Some entry => IterAppend entry r'
  | None => IterReturn ErrDecodeEntry
  end.
Proof.
  intros (lb & -> & Hl & Hlen & Hne).
  unfold WALJson.readEntry, lengthPrefix.
  rewrite <- Hl at 1. rewrite ReadFull_app. cbv zeta.
  rewrite Hlen.
  destruct (Z.eqb_spec (Z.of_nat (length payload)) 0) as [H0|_].
  { destruct payload; [congruence|cbn in H0; lia]. }
  rewrite Nat2Z.id, ReadFull_app. reflexivity.
Qed.

Lemma readEntry_spec_json r :
  match WALJson.readEntry r with
  | IterBreak => r = []
  | IterReturn e =>
      (e = ErrCorruptWAL /\ corruptAtJson r) \/
      (e = ErrDecodeEntry /\
       exists payload r', frameAtJson r payload r' /\ Decode payload = None)
  | IterAppend entry r' =>
      exists payload, frameAtJson r payload r' /\ Decode payload = Some entry
  end.
Proof.
  unfold WALJson.readEntry, lengthPrefix.
  destruct (ReadFull r 4) as [lb r1| |] eqn:E1.
  2:{ apply ReadFull_eof in E1. tauto. }
  2:{ apply ReadFull_short in E1. left. split; [reflexivity|].
      apply TruncatedLengthJson. exact E1. }
  apply ReadFull_ok in E1 as [-> Hl]. cbv zeta.
  pose proof (Uint32_nonneg lb) as Hnn.
  assert (Ht : take 4 (lb ++ r1) = lb)
    by (apply take_app_length'; symmetry; exact Hl).
  destruct (Z.eqb_spec (Uint32 lb) 0) as [H0|Hn0].
  { left. split; [reflexivity|]. apply ZeroLengthJson.
    - rewrite length_app. lia.
    - rewrite Ht. exact H0. }
  destruct (ReadFull r1 (Z.to_nat (Uint32 lb))) as [payload r2| |] eqn:E2.
  2:{ apply ReadFull_eof in E2 as [-> _]. left. split; [reflexivity|].
      apply PastEndOfFileJson; rewrite ?Ht, ?length_app; cbn; try lia;
        exact Hn0. }
  2:{ apply ReadFull_short in E2. left. split; [reflexivity|].
      apply PastEndOfFileJson; rewrite ?Ht, ?length_app; try lia; exact Hn0. }
  apply ReadFull_ok in E2 as [-> Hp].
  assert (Hframe : frameAtJson (lb ++ payload ++ r2) payload r2).
  { exists lb. repeat split; try assumption; [lia|].
    intros ->. cbn in Hp. lia. }
  destruct (Decode payload) as [entry|] eqn:Hdec.
  - exists payload. split; assumption.
  - right. split; [reflexivity|]. exists payload, r2. split; assumption.
Qed.

Lemma readLoop_acc_json fuel r acc :
  WALJson.readLoop fuel r acc = after acc <$> WALJson.readLoop fuel r [].
Proof.
  revert r acc. induction fuel as [|fuel IH]; intros r acc; [reflexivity|].
  cbn [WALJson.readLoop]. destruct (WALJson.readEntry r) as [|e|entry r'].
  - cbn. rewrite app_nil_r. reflexivity.
  - reflexivity.
  - rewrite (IH r' (acc ++ [entry])), (IH r' ([] ++ [entry])).
    destruct (WALJson.readLoop fuel r' []) as [res|]; [|reflexivity].
    cbn [fmap option_fmap option_map app]. rewrite after_after. reflexivity.
Qed.

Lemma readLoop_mono_json fuel fuel' r acc res :
  WALJson.readLoop fuel r acc = Some res -> (fuel <= fuel')%nat ->
  WALJson.readLoop fuel' r acc = Some res.
Proof.
  revert fuel' r acc. induction fuel as [|fuel IH]; intros fuel' r acc;
    [discriminate|].
  intros H Hle. destruct fuel' as [|fuel']; [lia|].
  cbn [WALJson.readLoop] in *. destruct (WALJson.readEntry r); try exact H.
  apply IH; [exact H|lia].
Qed.

Lemma readLoop_enough_json fuel r acc :
  (length r < fuel)%nat -> is_Some (WALJson.readLoop fuel r acc).
Proof.
  revert r acc. induction fuel as [|fuel IH]; intros r acc Hlt; [lia|].
  cbn [WALJson.readLoop]. pose proof (readEntry_spec_json r) as Hs.
  destruct (WALJson.readEntry r) as [|e|entry r']; [eauto..|].
  destruct Hs as (payload & Hf & _). apply frameAtJson_length in Hf.
  apply IH. lia.
Qed.

Lemma scan_readLoop_json content :
  WALJson.readLoop (S (length content)) content [] =
  Some (WALJson.scan content).
Proof.
  unfold WALJson.scan.
  destruct (readLoop_enough_json (S (length content)) content []) as [res ->];
    [lia|reflexivity].
Qed.

Lemma scan_unfold_json r :
  WALJson.scan r =
  match WALJson.readEntry r with
  | IterBreak => Ok []
  | IterReturn e => Err e
  | IterAppend entry r' => after [entry] (WALJson.scan r')
  end.
Proof.
  pose proof (scan_readLoop_json r) as H. cbn [WALJson.readLoop] in H.
  pose proof (readEntry_spec_json r) as Hs.
  destruct (WALJson.readEntry r) as [|e|entry r']; try congruence.
  destruct Hs as (payload & Hf & _). apply frameAtJson_length in Hf.
  rewrite readLoop_acc_json in H. cbn [app] in H.
  rewrite (readLoop_mono_json _ (length r) _ _ _ (scan_readLoop_json r')) in H
    by lia.
  change (Some (after [entry] (WALJson.scan r')) = Some (WALJson.scan r)) in H.
  congruence.
Qed.

Lemma scan_Frames_json content entries tail :
  FramesJson content entries tail ->
  WALJson.scan content = after entries (WALJson.scan tail).
Proof.
  induction 1 as [tail|r payload r' entry entries tail Hf Hdec _ IH].
  - rewrite after_nil. reflexivity.
  - rewrite scan_unfold_json, (readEntry_frame_json _ _ _ Hf), Hdec, IH.
    rewrite after_after. reflexivity.
Qed.

Lemma frameAtJson_not_corrupt r payload r' :
  frameAtJson r payload r' -> ~ corruptAtJson r.
Proof.
  intros (lb & -> & Hl & Hlen & Hne) Hbad.
  assert (Ht : take 4 (lb ++ payload ++ r') = lb)
    by (apply take_app_length'; symmetry; exact Hl).
  assert (Hp : (0 < length payload)%nat)
    by (destruct payload; [congruence|cbn; lia]).
  destruct Hbad as [H|_ H|_ _ H]; rewrite ?Ht, ?length_app in H; lia.
Qed.

Lemma scan_corruptAt_json tail :
  corruptAtJson tail -> WALJson.scan tail = Err ErrCorruptWAL.
Proof.
  intros Hbad. rewrite scan_unfold_json.
  pose proof (readEntry_spec_json tail) as Hs.
  destruct (WALJson.readEntry tail) as [|e|entry r'].
  - subst tail. destruct Hbad as [H|H _|H _ _]; cbn in H; lia.
  - destruct Hs as [[-> _]|[_ (payload & r' & Hf & _)]]; [reflexivity|].
    destruct (frameAtJson_not_corrupt _ _ _ Hf Hbad).
  - destruct Hs as (payload & Hf & _).
    destruct (frameAtJson_not_corrupt _ _ _ Hf Hbad).
Qed.

Lemma scan_corrupt_inv_json content e :
  WALJson.scan content = Err e -> IsCorruptWAL e = true ->
  exists entries tail, FramesJson content entries tail /\ corruptAtJson tail.
Proof.
  remember (length content) as n eqn:Hn. revert content Hn.
  induction n as [n IH] using lt_wf_ind. intros content -> Hscan He.
  rewrite scan_unfold_json in Hscan.
  pose proof (readEntry_spec_json content) as Hs.
  destruct (WALJson.readEntry content) as [|e'|entry r']; [discriminate|..].
  - injection Hscan as ->.
    destruct Hs as [[_ Hbad]|[-> _]]; [|discriminate].
    exists [], content. split; [constructor|exact Hbad].
  - destruct Hs as (payload & Hf & Hdec).
    destruct (WALJson.scan r') as [es|e''] eqn:Hr'; [discriminate|].
    injection Hscan as ->.
    pose proof (frameAtJson_length _ _ _ Hf) as Hlen.
    destruct (IH (length r') ltac:(lia) r' eq_refl Hr' He)
      as (entries & tail & HF & Hbad).
    exists (entry :: entries), tail. split; [|exact Hbad].
    econstructor; eassumption.
Qed.

Lemma scan_ok_inv_json content entries :
  WALJson.scan content = Ok entries -> FramesJson content entries [].
Proof.
  remember (length content) as n eqn:Hn. revert content entries Hn.
  induction n as [n IH] using lt_wf_ind. intros content entries -> Hscan.
  rewrite scan_unfold_json in Hscan.
  pose proof (readEntry_spec_json content) as Hs.
  destruct (WALJson.readEntry content) as [|e'|entry r']; [|discriminate|].
  - injection Hscan as <-. subst content. constructor.
  - destruct Hs as (payload & Hf & Hdec).
    destruct (WALJson.scan r') as [es|e''] eqn:Hr'; [|discriminate].
    injection Hscan as <-.
    pose proof (frameAtJson_length _ _ _ Hf) as Hlen.
    econstructor; [eassumption..|].
    apply (IH (length r') ltac:(lia) r' es eq_refl Hr').
Qed.

End ScanFactsJson.

(** ** Frames written, then read back *)

Section LogFacts.
Context {codec : EntryCodec} {law : RoundTrip codec}.
Import Bytes CRC32.

Lemma frames_app es1 es2 : frames (es1 ++ es2) = frames es1 ++ frames es2.
Proof. apply flat_map_app. Qed.

Lemma frameAt_frame entry data rest :
  Encode entry = Some data -> 0 < Z.of_nat (length data) < 2 ^ 32 ->
  frameAt (WAL.frame entry ++ rest) data rest.
Proof.
  intros Henc Hlen. unfold WAL.frame. rewrite Henc.
  exists (PutUint32 (u32 (Z.of_nat (length data)))),
         (PutUint32 (ChecksumIEEE data)).
  rewrite <- !app_assoc. repeat split.
  - rewrite u32_small by lia. apply Uint32_PutUint32. lia.
  - intros ->. cbn in Hlen. lia.
  - apply Uint32_PutUint32, ChecksumIEEE_range.
Qed.

Lemma Frames_frames entries tail :
  Forall fits entries -> Frames (frames entries ++ tail) entries tail.
Proof.
  induction 1 as [|entry entries (data & Henc & Hlen) _ IH]; [constructor|].
  cbn [frames flat_map]. rewrite <- app_assoc.
  econstructor; [apply frameAt_frame; eassumption| |exact IH].
  apply Decode_Encode. exact Henc.
Qed.

Lemma scan_frames entries :
  Forall fits entries -> WAL.scan (frames entries) = Ok entries.
Proof.
  intros Hfit. rewrite <- (app_nil_r (frames entries)).
  rewrite (scan_Frames _ _ _ (Frames_frames entries [] Hfit)), scan_nil.
  cbn. rewrite app_nil_r. reflexivity.
Qed.

End LogFacts.

(** ** The store along a history *)

Section StoreFacts.
Context {codec : EntryCodec}.

Lemma applyEntry_data s entry :
  Store.data (Store.applyEntry s entry) = applyData (Store.data s) entry /\
  Store.wal (Store.applyEntry s entry) = Store.wal s.
Proof.
  unfold applyData, Store.applyEntry.
  repeat case_decide; split; reflexivity.
Qed.

Lemma fold_applyEntry entries s :
  Store.data (fold_left Store.applyEntry entries s) =
    fold_left applyData entries (Store.data s) /\
  Store.wal (fold_left Store.applyEntry entries s) = Store.wal s.
Proof.
  revert s. induction entries as [|entry entries IH]; intros s;
    [split; reflexivity|].
  cbn [fold_left]. destruct (IH (Store.applyEntry s entry)) as [-> ->].
  destruct (applyEntry_data s entry) as [-> ->]. split; reflexivity.
Qed.

Lemma applyData_set key value m :
  applyData m (mkEntry OperationSet key value) = <[key := value]> m.
Proof. reflexivity. Qed.

Lemma applyData_delete key value m :
  applyData m (mkEntry OperationDelete key value) = delete key m.
Proof. reflexivity. Qed.

Lemma logOf_app evs1 evs2 : logOf (evs1 ++ evs2) = logOf evs1 ++ logOf evs2.
Proof. unfold logOf, callsOf. rewrite !omap_app. reflexivity. Qed.

(** Replaying the log of a history is the reference map of its calls. *)
Lemma replay_lastWriteWins evs m :
  fold_left applyData (logOf evs) m =
  fold_left memApply (filter (fun c => accepted c = true) (callsOf evs)) m.
Proof.
  revert m. induction evs as [|ev evs IH]; intros m; [reflexivity|].
  destruct ev as [c|k]; [|apply IH].
  change (logOf (Store.EvCall c :: evs))
    with (match entryOf c with
          | Some e => e :: logOf evs
          | None => logOf evs
          end).
  change (callsOf (Store.EvCall c :: evs)) with (c :: callsOf evs).
  rewrite filter_cons.
  destruct c as [key value|key|key]; cbn [entryOf accepted].
  - destruct (decide (key = ""%string)) as [->|Hne].
    + rewrite bool_decide_eq_true_2 by reflexivity. cbn [negb].
      rewrite decide_False by discriminate. apply IH.
    + rewrite bool_decide_eq_false_2 by exact Hne. cbn [negb].
      rewrite decide_True by reflexivity. cbn [fold_left]. apply IH.
  - destruct (decide (key = ""%string)) as [->|Hne].
    + rewrite bool_decide_eq_true_2 by reflexivity. cbn [negb].
      rewrite decide_False by discriminate. apply IH.
    + rewrite bool_decide_eq_false_2 by exact Hne. cbn [negb].
      rewrite decide_True by reflexivity. cbn [fold_left]. apply IH.
  - rewrite decide_True by reflexivity. cbn [fold_left memApply]. apply IH.
Qed.

End StoreFacts.

(** ** Flush cycles *)

Section CycleFacts.
Context {codec : EntryCodec}.

Lemma fold_writerWrite entries w :
  fold_left (fun w' entry => WAL.writerWrite w' (WAL.frame entry)) entries w =
  WAL.mk (WAL.file w) (WAL.fileOpen w) (WAL.writer w ++ frames entries)
         (WAL.flushChan w) (WAL.doneChan w) (WAL.flusher w)
         (WAL.activeBuffer w) (WAL.pendingBuffer w).
Proof.
  revert w. induction entries as [|entry entries IH]; intros w.
  - cbn. rewrite app_nil_r. destruct w; reflexivity.
  - cbn [fold_left]. rewrite IH. cbn. rewrite <- app_assoc. reflexivity.
Qed.

Lemma writePending_eq file fo wr fc dc ph active pending :
  WAL.writePending (WAL.mk file fo wr fc dc ph active pending) =
  if fo then WAL.mk (file ++ wr ++ frames pending) true [] fc dc ph active []
  else WAL.mk file false (wr ++ frames pending) fc dc ph active [].
Proof.
  unfold WAL.writePending. rewrite fold_writerWrite. destruct fo; reflexivity.
Qed.

Lemma flushBuffer_eq file fo wr fc dc ph active pending :
  WAL.flushBuffer (WAL.mk file fo wr fc dc ph active pending) =
  let out := match active with [] => pending | _ :: _ => active end in
  let keep := match active with [] => [] | _ :: _ => pending end in
  if fo then WAL.mk (file ++ wr ++ frames out) true [] fc dc ph keep []
  else WAL.mk file false (wr ++ frames out) fc dc ph keep [].
Proof.
  unfold WAL.flushBuffer. destruct active; cbn [WAL.swapBuffers WAL.activeBuffer];
    unfold WAL.with_buffers; cbn; apply writePending_eq.
Qed.

(** A whole cycle outside any other: the active buffer goes to the file. *)
Lemma flushBuffer_tidy w :
  tidy w ->
  WAL.flushBuffer w =
  WAL.mk (WAL.file w ++ frames (WAL.activeBuffer w)) true []
         (WAL.flushChan w) (WAL.doneChan w) (WAL.flusher w) [] [].
Proof.
  destruct w as [file fo wr fc dc ph active pending].
  intros (Ho & Hw & Hp). cbn in Ho, Hw, Hp. subst fo wr pending.
  rewrite flushBuffer_eq.
  destruct active as [|entry active]; cbn; rewrite ?app_nil_r; reflexivity.
Qed.

(** Two cycles in a row leave both buffers empty. *)
Lemma flushBuffer_twice_active w :
  WAL.activeBuffer (WAL.flushBuffer (WAL.flushBuffer w)) = [].
Proof.
  destruct w as [f fo wr fc dc ph a p]. rewrite flushBuffer_eq.
  destruct fo, a as [|e a]; cbv zeta iota; rewrite flushBuffer_eq;
    try reflexivity; destruct p; reflexivity.
Qed.

Lemma flushBuffer_doneChan w :
  WAL.doneChan (WAL.flushBuffer w) = WAL.doneChan w.
Proof.
  destruct w as [f [] wr fc dc ph a p]; rewrite flushBuffer_eq; reflexivity.
Qed.

Lemma asyncFlush_doneChan w tn w' :
  WAL.asyncFlush w tn = Some w' -> WAL.doneChan w' = WAL.doneChan w.
Proof.
  destruct w as [f fo wr fc dc ph a p]. unfold WAL.asyncFlush.
  cbn [WAL.flusher WAL.flushChan].
  destruct tn as [[]| |], ph; try discriminate.
  - intros [= <-]. reflexivity.
  - destruct fc; [|discriminate]. intros [= <-]. reflexivity.
  - intros [= <-]. destruct a; reflexivity.
  - intros [= <-]. rewrite writePending_eq. destruct fo; reflexivity.
Qed.

(** The flusher changes neither the index nor whether the log is closed,
    and never keeps the owner waiting by itself. *)
Lemma run_flusherMoves s tns :
  exists s', Store.run s (flusherMoves tns) = Some s' /\
             Store.data s' = Store.data s /\
             WAL.doneChan (Store.wal s') = WAL.doneChan (Store.wal s).
Proof.
  revert s. induction tns as [|tn tns IH]; intros s.
  - exists s. repeat split.
  - cbn [flusherMoves map Store.run Store.step].
    destruct (IH (Store.mk (default (Store.wal s)
                              (WAL.asyncFlush (Store.wal s) tn))
                           (Store.data s)))
      as (s' & Hrun & Hdata & Hdone).
    exists s'. split; [exact Hrun|]. split; [exact Hdata|].
    rewrite Hdone. cbn [Store.wal].
    destruct (WAL.asyncFlush (Store.wal s) tn) as [w'|] eqn:E; [|reflexivity].
    apply (asyncFlush_doneChan _ _ _ E).
Qed.

End CycleFacts.

(** ** Calls and moves, one at a time *)

Section StepFacts.
Context {codec : EntryCodec}.

Lemma Append_free w entry :
  ~ stuck w ->
  exists w', WAL.Append w entry = Returns (w', None) /\ appendedTo w entry w'.
Proof.
  destruct w as [file fo wr fc dc ph active pending]. intros Hfree.
  unfold WAL.Append, WAL.with_flushChan, WAL.with_flusher, WAL.with_buffers.
  cbn [WAL.file WAL.fileOpen WAL.writer WAL.flushChan WAL.doneChan
       WAL.flusher WAL.activeBuffer WAL.pendingBuffer].
  destruct (Nat.leb_spec bufferSize (length (active ++ [entry]))) as [Hle|Hlt].
  - rewrite length_app in Hle. cbn [length] in Hle.
    destruct fc.
    + destruct ph;
        try (exfalso; apply Hfree; repeat split; [exact Hle|discriminate]).
      eexists. split; [reflexivity|]. repeat split. right. split; reflexivity.
    + eexists. split; [reflexivity|]. repeat split. left. reflexivity.
  - eexists. split; [reflexivity|]. repeat split. left. reflexivity.
Qed.

Lemma Append_stuck w entry : stuck w -> WAL.Append w entry = Blocks.
Proof.
  destruct w as [file fo wr fc dc ph active pending].
  intros (Hle & Hfc & Hph). cbn in Hle, Hfc, Hph. subst fc.
  unfold WAL.Append, WAL.with_flushChan, WAL.with_flusher, WAL.with_buffers.
  cbn [WAL.file WAL.fileOpen WAL.writer WAL.flushChan WAL.doneChan
       WAL.flusher WAL.activeBuffer WAL.pendingBuffer].
  destruct (Nat.leb_spec bufferSize (length (active ++ [entry]))) as [_|Hlt].
  - destruct ph; try reflexivity. congruence.
  - rewrite length_app in Hlt. cbn [length] in Hlt. lia.
Qed.

Lemma Append_first w entry :
  WAL.activeBuffer w = [] ->
  WAL.Append w entry =
  Returns (WAL.with_buffers w [entry] (WAL.pendingBuffer w), None).
Proof. intros H. unfold WAL.Append. cbn. rewrite H. reflexivity. Qed.

Lemma Set_free s key value :
  key <> ""%string -> ~ stuck (Store.wal s) ->
  exists w', Store.Set_ s key value =
               Returns (Store.mk w' (<[key := value]> (Store.data s)), None) /\
             appendedTo (Store.wal s) (mkEntry OperationSet key value) w'.
Proof.
  intros Hne Hfree. unfold Store.Set_. rewrite decide_False by exact Hne.
  destruct (Append_free (Store.wal s) (mkEntry OperationSet key value) Hfree)
    as (w' & -> & Happ).
  exists w'. split; [reflexivity|exact Happ].
Qed.

Lemma Delete_free s key :
  key <> ""%string -> ~ stuck (Store.wal s) ->
  exists w', Store.Delete s key =
               Returns (Store.mk w' (delete key (Store.data s)),
                        (bool_decide (is_Some (Store.data s !! key)), None)) /\
             appendedTo (Store.wal s) (mkEntry OperationDelete key []) w'.
Proof.
  intros Hne Hfree. unfold Store.Delete. rewrite decide_False by exact Hne.
  destruct (Append_free (Store.wal s) (mkEntry OperationDelete key []) Hfree)
    as (w' & -> & Happ).
  exists w'. split; [reflexivity|exact Happ].
Qed.

Lemma Delete_stuck s key :
  key <> ""%string -> stuck (Store.wal s) -> Store.Delete s key = Blocks.
Proof.
  intros Hne Hstuck. unfold Store.Delete. rewrite decide_False by exact Hne.
  rewrite (Append_stuck _ _ Hstuck). reflexivity.
Qed.

Lemma Set_stuck s key value :
  key <> ""%string -> stuck (Store.wal s) -> Store.Set_ s key value = Blocks.
Proof.
  intros Hne Hstuck. unfold Store.Set_. rewrite decide_False by exact Hne.
  rewrite (Append_stuck _ _ Hstuck). reflexivity.
Qed.

(** A call either returns or waits; what it returned tells which. *)
Lemma stuck_dec w : {stuck w} + {~ stuck w}.
Proof.
  unfold stuck.
  destruct (le_dec bufferSize (length (WAL.activeBuffer w) + 1));
    [|right; tauto].
  destruct (WAL.flushChan w); [|right; intros (_ & ? & _); discriminate].
  destruct (WAL.flusher w); try (left; repeat split; [assumption|discriminate]).
  right. intros (_ & _ & ?). congruence.
Qed.

Lemma Inv_appended s entries entry w' m :
  Inv s entries -> appendedTo (Store.wal s) entry w' ->
  m = applyData (Store.data s) entry ->
  Inv (Store.mk w' m) (entries ++ [entry]).
Proof.
  intros (Ho & Hw & Hd & Hg & Hp & (done & Hes & Hfile) & Hdata)
         (Hf' & Ho' & Hw' & Hd' & Hp' & Ha' & Hph') ->.
  unfold Inv. cbn [Store.wal Store.data].
  rewrite Ho', Hw', Hp', Hd', Hf', Ha'.
  split; [exact Ho|]. split; [exact Hw|]. split; [exact Hd|].
  split; [destruct Hph' as [->|[_ ->]]; [exact Hg|discriminate]|].
  split; [intros Hns; apply Hp; destruct Hph' as [<-|[-> _]];
          [exact Hns|discriminate]|].
  split.
  - exists done. split; [|exact Hfile]. rewrite Hes, <- !app_assoc. reflexivity.
  - rewrite fold_left_app, <- Hdata. reflexivity.
Qed.

Lemma Inv_asyncFlush s entries tn w' :
  Inv s entries -> WAL.asyncFlush (Store.wal s) tn = Some w' ->
  Inv (Store.mk w' (Store.data s)) entries.
Proof.
  destruct s as [[file fo wr fc dc ph active pending] m].
  intros (Ho & Hw & Hd & Hg & Hp & (done & Hes & Hfile) & Hdata).
  cbn in Ho, Hw, Hd, Hg, Hp, Hes, Hfile, Hdata. subst fo wr dc.
  unfold WAL.asyncFlush. cbn [Store.wal WAL.flusher WAL.flushChan].
  destruct tn as [[]| |], ph; try discriminate.
  - intros [= <-]. rewrite (Hp ltac:(discriminate)) in *.
    unfold Inv. cbn. split_and!; try done. exists done. split; assumption.
  - destruct fc; [|discriminate]. intros [= <-].
    rewrite (Hp ltac:(discriminate)) in *.
    unfold Inv. cbn. split_and!; try done. exists done. split; assumption.
  - intros [= <-]. rewrite (Hp ltac:(discriminate)) in *.
    unfold Inv. destruct active as [|e active]; cbn; split_and!; try done;
      exists done; rewrite ?app_nil_r in *; split; assumption.
  - intros [= <-]. rewrite writePending_eq.
    unfold Inv. cbn. split_and!; try done.
    exists (done ++ pending). rewrite frames_app, Hfile, <- app_assoc.
    split; [exact Hes|reflexivity].
Qed.

Lemma logOf_call c :
  logOf [Store.EvCall c] = match entryOf c with Some e => [e] | None => [] end.
Proof. unfold logOf. cbn. destruct (entryOf c); reflexivity. Qed.

Lemma step_Inv s entries ev s' :
  Inv s entries -> Store.step s ev = Some s' ->
  Inv s' (entries ++ logOf [ev]).
Proof.
  intros HI. destruct ev as [[key value|key|key]|tn]; cbn [Store.step].
  - rewrite logOf_call. cbn [entryOf].
    destruct (decide (key = ""%string)) as [->|Hne].
    + cbn. intros [= <-]. rewrite app_nil_r. exact HI.
    + destruct (stuck_dec (Store.wal s)) as [Hs|Hfree].
      * rewrite (Set_stuck s key value Hne Hs). discriminate.
      * destruct (Set_free s key value Hne Hfree) as (w' & -> & Happ).
        intros [= <-].
        eapply Inv_appended; [exact HI|exact Happ|reflexivity].
  - rewrite logOf_call. cbn [entryOf].
    destruct (decide (key = ""%string)) as [->|Hne].
    + cbn. intros [= <-]. rewrite app_nil_r. exact HI.
    + destruct (stuck_dec (Store.wal s)) as [Hs|Hfree].
      * rewrite (Delete_stuck s key Hne Hs). discriminate.
      * destruct (Delete_free s key Hne Hfree) as (w' & -> & Happ).
        intros [= <-].
        eapply Inv_appended; [exact HI|exact Happ|reflexivity].
  - intros [= <-]. cbn. rewrite app_nil_r. exact HI.
  - intros [= <-]. cbn. rewrite app_nil_r.
    destruct (WAL.asyncFlush (Store.wal s) tn) as [w'|] eqn:E; cbn [default].
    + exact (Inv_asyncFlush s entries tn w' HI E).
    + destruct s; exact HI.
Qed.

Lemma run_Inv evs s entries s' :
  Inv s entries -> Store.run s evs = Some s' ->
  Inv s' (entries ++ logOf evs).
Proof.
  revert s entries. induction evs as [|ev evs IH]; intros s entries HI.
  - cbn. intros [= <-]. rewrite app_nil_r. exact HI.
  - cbn [Store.run]. destruct (Store.step s ev) as [s1|] eqn:Hstep;
      [|discriminate].
    intros Hrun. pose proof (step_Inv s entries ev s1 HI Hstep) as HI1.
    pose proof (IH s1 _ HI1 Hrun) as HI'.
    rewrite <- app_assoc, <- logOf_app in HI'. exact HI'.
Qed.

Lemma Inv_active_length s entries :
  Inv s entries ->
  (length (WAL.activeBuffer (Store.wal s)) <= length entries)%nat.
Proof.
  intros (_ & _ & _ & _ & _ & (done & -> & _) & _). rewrite !length_app. lia.
Qed.

(** A history that logs fewer entries than the threshold never waits. *)
Lemma run_below_threshold evs s entries :
  Inv s entries ->
  (length entries + length (logOf evs) < bufferSize)%nat ->
  is_Some (Store.run s evs).
Proof.
  revert s entries. induction evs as [|ev evs IH]; intros s entries HI Hlen;
    [eexists; reflexivity|].
  change (ev :: evs) with ([ev] ++ evs) in Hlen.
  rewrite logOf_app, length_app in Hlen.
  assert (Hstep : is_Some (Store.step s ev)).
  { pose proof (Inv_active_length s entries HI) as Ha.
    assert (Hfree : logOf [ev] <> [] -> ~ stuck (Store.wal s)).
    { intros Hlog (Hle & _). destruct (logOf [ev]); [congruence|].
      cbn [length] in Hlen. lia. }
    destruct ev as [[key value|key|key]|tn]; cbn [Store.step];
      try (eexists; reflexivity).
    - destruct (decide (key = ""%string)) as [->|Hne];
        [eexists; reflexivity|].
      destruct (Set_free s key value Hne) as (w' & -> & _);
        [|eexists; reflexivity].
      apply Hfree. rewrite logOf_call. cbn [entryOf].
      rewrite decide_False by exact Hne. discriminate.
    - destruct (decide (key = ""%string)) as [->|Hne];
        [eexists; reflexivity|].
      destruct (Delete_free s key Hne) as (w' & -> & _);
        [|eexists; reflexivity].
      apply Hfree. rewrite logOf_call. cbn [entryOf].
      rewrite decide_False by exact Hne. discriminate. }
  destruct Hstep as [s1 Hstep]. cbn [Store.run]. rewrite Hstep.
  apply (IH s1 (entries ++ logOf [ev])).
  - exact (step_Inv s entries ev s1 HI Hstep).
  - rewrite length_app. lia.
Qed.

(** A store opened on an empty or absent log is empty. *)
Lemma New_empty onDisk :
  default [] onDisk = [] ->
  exists s, Store.New onDisk = Ok s /\ Inv s [].
Proof.
  intros Hdisk. unfold Store.New, Store.Recover, WAL.ReadAll.
  assert (Ht : tidy (WAL.NewWAL onDisk)) by (repeat split).
  rewrite (flushBuffer_tidy _ Ht). cbn [Store.wal WAL.fileOpen WAL.file].
  cbn [WAL.NewWAL WAL.file WAL.activeBuffer frames flat_map].
  rewrite app_nil_r, Hdisk, scan_nil.
  eexists. split; [reflexivity|]. cbn [fold_left].
  unfold Inv. cbn. split_and!; try done. exists []. split; reflexivity.
Qed.

(** Closing an open store leaves the frames of everything logged. *)
Lemma Close_Inv s entries :
  Inv s entries ->
  exists s', Store.Close s = Returns (s', None) /\
             WAL.file (Store.wal s') = frames entries /\
             Store.data s' = Store.data s /\
             WAL.fileOpen (Store.wal s') = false /\
             WAL.doneChan (Store.wal s') = true /\
             WAL.flusher (Store.wal s') = WAL.Gone /\
             WAL.activeBuffer (Store.wal s') = [].
Proof.
  destruct s as [[file fo wr fc dc ph active pending] m].
  intros (Ho & Hw & Hd & Hg & Hp & (done & Hes & Hfile) & Hdata).
  cbn in Ho, Hw, Hd, Hg, Hp, Hes, Hfile, Hdata. subst fo wr dc.
  unfold Store.Close, WAL.Close, WAL.with_doneChan.
  cbn [Store.wal Store.data WAL.file WAL.fileOpen WAL.writer WAL.flushChan
       WAL.doneChan WAL.flusher WAL.activeBuffer WAL.pendingBuffer].
  destruct ph; try congruence.
  - rewrite (Hp ltac:(discriminate)) in *. rewrite !flushBuffer_eq.
    eexists. split; [reflexivity|]. cbn.
    destruct active; cbn; rewrite ?app_nil_r, Hfile, Hes, ?frames_app;
      cbn; rewrite ?app_nil_r; repeat split.
  - rewrite (Hp ltac:(discriminate)) in *. rewrite !flushBuffer_eq.
    eexists. split; [reflexivity|]. cbn.
    destruct active; cbn; rewrite ?app_nil_r, Hfile, Hes, ?frames_app;
      cbn; rewrite ?app_nil_r; repeat split.
  - rewrite writePending_eq, !flushBuffer_eq.
    eexists. split; [reflexivity|]. cbn.
    destruct active; cbn; rewrite ?app_nil_r, Hfile, Hes, ?frames_app;
      cbn; rewrite ?app_nil_r, <- ?app_assoc; repeat split.
Qed.

End StepFacts.

Section ReopenFacts.
Context {codec : EntryCodec} {law : RoundTrip codec}.

(** A store opened on the frames of [entries] has replayed them. *)
Lemma New_frames onDisk entries :
  default [] onDisk = frames entries -> Forall fits entries ->
  exists s, Store.New onDisk = Ok s /\ Inv s entries /\
            WAL.activeBuffer (Store.wal s) = [].
Proof.
  intros Hdisk Hfit. unfold Store.New, Store.Recover, WAL.ReadAll.
  assert (Ht : tidy (WAL.NewWAL onDisk)) by (repeat split).
  rewrite (flushBuffer_tidy _ Ht). cbn [Store.wal WAL.fileOpen WAL.file].
  cbn [WAL.NewWAL WAL.file WAL.activeBuffer frames flat_map].
  rewrite app_nil_r, Hdisk, (scan_frames entries Hfit).
  eexists. split; [reflexivity|].
  match goal with
  | |- Inv (fold_left _ _ ?s0) _ /\ _ =>
      destruct (fold_applyEntry entries s0) as [Hdata Hwal]
  end.
  split; [|rewrite Hwal; reflexivity].
  unfold Inv. rewrite Hwal, Hdata. cbn. split_and!; try done.
  exists entries. rewrite app_nil_r. split; reflexivity.
Qed.

End ReopenFacts.

(** ** What a history can log *)

Section KeyFacts.
Context {codec : EntryCodec}.

Lemma logOf_keys evs :
  Forall (fun entry => Key entry <> ""%string) (logOf evs).
Proof.
  unfold logOf. induction (callsOf evs) as [|c cs IH]; [apply Forall_nil_2|].
  cbn [omap list_omap]. destruct c as [key value|key|key]; cbn [entryOf];
    try exact IH; destruct (decide (key = ""%string)); try exact IH;
    apply Forall_cons_2; assumption.
Qed.

Lemma applyData_other m entry key :
  Key entry <> key -> applyData m entry !! key = m !! key.
Proof.
  intros Hne. unfold applyData, Store.applyEntry.
  repeat case_decide; cbn [Store.data].
  - apply lookup_insert_ne. exact Hne.
  - apply lookup_delete_ne. exact Hne.
  - reflexivity.
Qed.

Lemma replay_other entries m key :
  Forall (fun entry => Key entry <> key) entries ->
  fold_left applyData entries m !! key = m !! key.
Proof.
  intros H. revert m. induction H as [|entry entries Hne _ IH]; intros m;
    [reflexivity|].
  cbn [fold_left]. rewrite IH. apply applyData_other. exact Hne.
Qed.

End KeyFacts.

(** ** Sharing between the caller and the index *)

Section AliasingFacts.
Import Aliasing.

Lemma Clone_spec (h : heap) (b : slice) :
  (forall l, b = Some l -> l ∈ dom h) ->
  exists h1 c,
    Clone h b = (h1, c) /\
    contents h1 c = contents h b /\
    (forall l, l ∈ dom h -> h1 !! l = h !! l) /\
    (forall l, l ∈ dom h -> l ∈ dom h1) /\
    (forall l, c = Some l -> (l ∉ dom h) /\ l ∈ dom h1) /\
    (b = None <-> c = None).
Proof.
  intros Hb. destruct b as [l|]; cbn [Clone].
  - pose proof (is_fresh (dom h)) as Hfresh.
    eexists _, _. split; [reflexivity|]. repeat split.
    + cbn. rewrite lookup_insert_eq. reflexivity.
    + intros l2 Hl2. apply lookup_insert_ne. intros <-. exact (Hfresh Hl2).
    + intros l2 Hl2. rewrite dom_insert_L. set_solver.
    + match goal with H : Some _ = Some _ |- _ => injection H as <- end.
      exact Hfresh.
    + match goal with H : Some _ = Some _ |- _ => injection H as <- end.
      rewrite dom_insert_L. set_solver.
    + discriminate.
    + discriminate.
  - exists h, None. repeat split; try discriminate; auto.
Qed.

Lemma contents_write_other (h : heap) (b c : slice) (bs : list byte) :
  (forall l, b = Some l -> c <> Some l) ->
  contents (write h b bs) c = contents h c.
Proof.
  intros Hne. destruct b as [l|]; [|reflexivity].
  destruct c as [l'|]; [|reflexivity].
  cbn. rewrite lookup_insert_ne; [reflexivity|].
  intros ->. exact (Hne l' eq_refl eq_refl).
Qed.

Lemma dom_write (h : heap) (b : slice) (bs : list byte) l :
  l ∈ dom h -> l ∈ dom (write h b bs).
Proof.
  destruct b as [l'|]; [|auto]. cbn. rewrite dom_insert_L. set_solver.
Qed.

(** [Get] hands out a copy of what the index holds, whatever was done to
    arrays the index does not point to. *)
Lemma Get_copies (h : heap) (s : t) (key : string) (stored : slice) :
  data s !! key = Some stored ->
  (forall l, stored = Some l -> l ∈ dom h) ->
  exists h1 got,
    Get h s key = (h1, (got, true)) /\
    contents h1 got = contents h stored /\
    contents h1 stored = contents h stored /\
    (forall l, stored = Some l -> got <> Some l /\ l ∈ dom h1).
Proof.
  intros Hk Hdom. unfold Get. rewrite Hk.
  destruct (Clone_spec h stored Hdom)
    as (h1 & c & -> & Hc & Hsame & Hmono & Hfresh & _).
  exists h1, c. split; [reflexivity|]. split; [exact Hc|]. split.
  - destruct stored as [l|]; [|reflexivity]. cbn.
    rewrite (Hsame l (Hdom l eq_refl)). reflexivity.
  - intros l ->. split; [|apply Hmono, Hdom; reflexivity].
    intros ->. destruct (Hfresh l eq_refl) as [Hn _].
    exact (Hn (Hdom l eq_refl)).
Qed.

(** The two models agree on the index: what [Set] and [Get] do to
    references is, seen through [view], what they do to bytes. *)
Lemma view_Clone (h h1 : heap) (s : t) :
  closed h s -> (forall l, l ∈ dom h -> h1 !! l = h !! l) ->
  view h1 s = view h s.
Proof.
  intros Hclosed Hsame. unfold view. apply map_fmap_ext.
  intros key [l|] Hk; [|reflexivity]. cbn.
  rewrite (Hsame l (Hclosed key l Hk)). reflexivity.
Qed.

Lemma Set_view (h : heap) (s : t) (key : string) (value : slice) w :
  key <> ""%string -> (forall l, value = Some l -> l ∈ dom h) ->
  closed h s -> ~ stuck w ->
  exists h1 s1 w',
    Set_ h s key value = (h1, s1, None) /\ closed h1 s1 /\
    Store.Set_ (Store.mk w (view h s)) key (contents h value) =
      Returns (Store.mk w' (view h1 s1), None).
Proof.
  intros Hne Hval Hclosed Hopen. unfold Set_.
  rewrite decide_False by exact Hne.
  destruct (Clone_spec h value Hval)
    as (h1 & c & -> & Hc & Hsame & Hmono & Hfresh & _).
  destruct (Set_free (Store.mk w (view h s)) key (contents h value) Hne Hopen)
    as (w' & Hset & _).
  eexists _, _, w'. split; [reflexivity|]. split.
  - intros key' l. cbn [data]. rewrite lookup_insert.
    case_decide as Hk.
    + intros [= ->]. apply (Hfresh l eq_refl).
    + intros Hk'. apply Hmono. exact (Hclosed key' l Hk').
  - rewrite Hset. do 3 f_equal.
    unfold view at 2. cbn [data Store.data]. rewrite fmap_insert, Hc.
    f_equal. symmetry. apply (view_Clone h h1 s Hclosed Hsame).
Qed.

Lemma Get_view (h : heap) (s : t) (key : string) w :
  closed h s ->
  exists h1 got found,
    Get h s key = (h1, (got, found)) /\ closed h1 s /\
    view h1 s = view h s /\
    Store.Get (Store.mk w (view h s)) key = (contents h1 got, found).
Proof.
  intros Hclosed. unfold Get, Store.Get, view. cbn [Store.data].
  rewrite lookup_fmap.
  destruct (data s !! key) as [stored|] eqn:Hk; cbn [fmap option_fmap option_map].
  - assert (Hdom : forall l, stored = Some l -> l ∈ dom h)
      by (intros l ->; exact (Hclosed key l Hk)).
    destruct (Clone_spec h stored Hdom)
      as (h1 & c & -> & Hc & Hsame & Hmono & _ & _).
    exists h1, c, true. split; [reflexivity|]. split; [|split].
    + intros key' l Hk'. apply Hmono. exact (Hclosed key' l Hk').
    + apply (view_Clone h h1 s Hclosed Hsame).
    + rewrite Hc. reflexivity.
  - exists h, None, false. repeat split. exact Hclosed.
Qed.

End AliasingFacts.

(** ** The owner ahead of the flusher

    From an empty store the hundredth [Set] fills the signal slot, the
    next one wakes the flusher, and the one after that finds the slot
    taken and the flusher on its way to the lock the call holds: it never
    returns. With the flusher's swap before it, it returns. *)

Example owner_outruns_flusher :
  let s0 := Store.mk (WAL.NewWAL None) ∅ in
  is_Some (@Store.run MarkedCodec.codec s0 (sets 101)) /\
  @Store.run MarkedCodec.codec s0 (sets 102) = None /\
  is_Some (@Store.run MarkedCodec.codec s0
             (sets 101 ++ [Store.EvFlusher WAL.Swap] ++ sets 1)).
Proof.
  cbv zeta. split; [|split].
  - vm_compute. eexists. reflexivity.
  - vm_compute. reflexivity.
  - vm_compute. eexists. reflexivity.
Qed.

(** * The claims *)

(** Closes [Forall fits] on a concrete list of entries. *)
Ltac fits_by_computation :=
  repeat (apply Forall_cons_2;
          [eexists; split; [reflexivity|vm_compute; split; reflexivity]|]);
  apply Forall_nil_2.

(** C1. A store opened on an empty or absent log takes a history of
    [Set], [Delete] and [Get] calls, the flusher making its moves at any
    point in between, whose entries fit a frame. Whenever all the calls
    have returned, [Close] returns, a store opens on the file it leaves,
    and the index of that store is the index the closed one had, which is
    the plain map obtained from the accepted calls, last write winning.
    The calls of a history that logs fewer entries than the flush threshold
    do all return. *)
Theorem recovery_lossless {codec : EntryCodec} {law : RoundTrip codec}
    (onDisk : option (list byte)) (evs : list Store.event) :
  default [] onDisk = [] ->
  Forall fits (logOf evs) ->
  exists s0,
    Store.New onDisk = Ok s0 /\
    ((length (logOf evs) < bufferSize)%nat -> is_Some (Store.run s0 evs)) /\
    forall s1,
      Store.run s0 evs = Some s1 ->
      exists s2 s3,
        Store.Close s1 = Returns (s2, None) /\
        Store.New (Some (WAL.file (Store.wal s2))) = Ok s3 /\
        Store.data s3 = Store.data s1 /\
        Store.data s3 = lastWriteWins (callsOf evs).
Proof.
  intros Hdisk Hfit.
  destruct (New_empty onDisk Hdisk) as (s0 & Hnew & HI0).
  exists s0. split; [exact Hnew|]. split.
  { intros Hlen. exact (run_below_threshold evs s0 [] HI0 Hlen). }
  intros s1 Hrun.
  pose proof (run_Inv evs s0 [] s1 HI0 Hrun) as HI1. cbn [app] in HI1.
  destruct (Close_Inv s1 _ HI1) as (s2 & Hclose & Hfile & _).
  destruct (New_frames (Some (WAL.file (Store.wal s2))) (logOf evs) Hfile Hfit)
    as (s3 & Hnew3 & HI3 & _).
  exists s2, s3. split; [exact Hclose|]. split; [exact Hnew3|].
  destruct HI3 as (_ & _ & _ & _ & _ & _ & ->). split.
  - destruct HI1 as (_ & _ & _ & _ & _ & _ & ->). reflexivity.
  - apply replay_lastWriteWins.
Qed.

Lemma recovery_lossless_witness :
  let evs := [ Store.EvCall (Store.CallSet "a" [x31]);
               Store.EvFlusher (WAL.Wake WAL.WakeTick);
               Store.EvCall (Store.CallSet "b" [x32]);
               Store.EvFlusher WAL.Swap;
               Store.EvCall (Store.CallSet "" [x33]);
               Store.EvCall (Store.CallDelete "a");
               Store.EvFlusher WAL.Finish ] in
  default [] (@None (list byte)) = [] /\
  Forall (@fits MarkedCodec.codec) (logOf evs) /\
  exists s0,
    @Store.New MarkedCodec.codec None = Ok s0 /\
    ((length (logOf evs) < bufferSize)%nat ->
     is_Some (@Store.run MarkedCodec.codec s0 evs)) /\
    forall s1,
      @Store.run MarkedCodec.codec s0 evs = Some s1 ->
      exists s2 s3,
        @Store.Close MarkedCodec.codec s1 = Returns (s2, None) /\
        @Store.New MarkedCodec.codec (Some (WAL.file (Store.wal s2))) = Ok s3 /\
        Store.data s3 = Store.data s1 /\
        Store.data s3 = lastWriteWins (callsOf evs).
Proof.
  intros evs. split; [reflexivity|].
  split; [subst evs; fits_by_computation|].
  apply (@recovery_lossless MarkedCodec.codec MarkedCodec_round_trip None evs);
    [reflexivity|subst evs; fits_by_computation].
Defined.

(** C2. For an entry that encodes to a payload that is not empty and whose
    length a [uint32] holds, the frame written by [flushBuffer] is the
    big-endian length, the big-endian CRC32 of the payload and the payload,
    and reading it back with the loop of [ReadAll] gives the entry again,
    whatever follows the frame. *)
Theorem frame_round_trip {codec : EntryCodec} {law : RoundTrip codec}
    (entry : WALEntry) (data rest : list byte) :
  Encode entry = Some data ->
  0 < Z.of_nat (length data) < 2 ^ 32 ->
  WAL.frame entry =
    Bytes.PutUint32 (Z.of_nat (length data)) ++
    Bytes.PutUint32 (CRC32.ChecksumIEEE data) ++ data /\
  WAL.readEntry (WAL.frame entry ++ rest) = IterAppend entry rest /\
  WAL.scan (WAL.frame entry) = Ok [entry].
Proof.
  intros Henc Hlen. split; [|split].
  - unfold WAL.frame. rewrite Henc, u32_small by lia. reflexivity.
  - apply (readEntry_frame _ data); [apply frameAt_frame; assumption|].
    apply Decode_Encode. exact Henc.
  - assert (Hfit : Forall fits [entry]).
    { apply Forall_cons_2; [exists data; split; assumption|apply Forall_nil_2]. }
    pose proof (scan_frames [entry] Hfit) as H.
    cbn [frames flat_map] in H. rewrite app_nil_r in H. exact H.
Qed.

Lemma frame_round_trip_witness :
  let entry := mkEntry OperationSet "alpha" [x76; x31] in
  let data := [x01; x73; x01; x65; x01; x74; x00;
               x01; x61; x01; x6c; x01; x70; x01; x68; x01; x61; x00;
               x01; x76; x01; x31; x00] in
  @Encode MarkedCodec.codec entry = Some data /\
  0 < Z.of_nat (length data) < 2 ^ 32 /\
  @WAL.frame MarkedCodec.codec entry =
    Bytes.PutUint32 (Z.of_nat (length data)) ++
    Bytes.PutUint32 (CRC32.ChecksumIEEE data) ++ data /\
  @WAL.readEntry MarkedCodec.codec (@WAL.frame MarkedCodec.codec entry ++ [xff])
    = IterAppend entry [xff] /\
  @WAL.scan MarkedCodec.codec (@WAL.frame MarkedCodec.codec entry) = Ok [entry].
Proof.
  intros entry data.
  split; [reflexivity|]. split; [vm_compute; split; reflexivity|].
  apply (@frame_round_trip MarkedCodec.codec MarkedCodec_round_trip
           entry data [xff]);
    [reflexivity|vm_compute; split; reflexivity].
Defined.

(** C3. [ReadAll], run on a log just opened on a file, returns an error
    that is [ErrCorruptWAL] exactly when the file is a run of intact
    decodable frames followed by structural corruption: a length field cut
    short, a zero length field, a frame that runs past the end of the
    file, or a checksum that does not match; and it returns entries exactly
    when the file is a run of intact decodable frames that ends at a frame
    boundary, the entries being those of all the frames. The scan of the
    JSON log obeys the same law with its three kinds of corruption. *)
Theorem ReadAll_corrupt_iff {codec : EntryCodec}
    (onDisk : option (list byte)) :
  let content := default [] onDisk in
  let res := snd (WAL.ReadAll (WAL.NewWAL onDisk)) in
  ((exists e, res = Err e /\ IsCorruptWAL e = true) <->
   (exists entries tail, Frames content entries tail /\ corruptAt tail)) /\
  (forall entries, res = Ok entries <-> Frames content entries []) /\
  (forall contentJ,
     ((exists e, WALJson.scan contentJ = Err e /\ IsCorruptWAL e = true) <->
      (exists entries tail,
         FramesJson contentJ entries tail /\ corruptAtJson tail)) /\
     (forall entries,
        WALJson.scan contentJ = Ok entries <-> FramesJson contentJ entries [])).
Proof.
  intros content res.
  assert (Hres : res = WAL.scan content).
  { subst res content. unfold WAL.ReadAll.
    rewrite flushBuffer_tidy by (repeat split). cbn. rewrite app_nil_r.
    reflexivity. }
  rewrite Hres. clear Hres res. split; [|split].
  - split.
    + intros (e & Hscan & He). exact (scan_corrupt_inv content e Hscan He).
    + intros (entries & tail & HF & Hbad).
      destruct (scan_corruptAt tail Hbad) as (e & Ht & He).
      exists e. split; [|exact He].
      rewrite (scan_Frames _ _ _ HF), Ht. reflexivity.
  - intros entries. split; [apply scan_ok_inv|].
    intros HF. rewrite (scan_Frames _ _ _ HF), scan_nil. cbn.
    rewrite app_nil_r. reflexivity.
  - intros contentJ. split.
    + split.
      * intros (e & Hscan & He). exact (scan_corrupt_inv_json contentJ e Hscan He).
      * intros (entries & tail & HF & Hbad). exists ErrCorruptWAL.
        split; [|reflexivity].
        rewrite (scan_Frames_json _ _ _ HF), (scan_corruptAt_json tail Hbad).
        reflexivity.
    + intros entries. split; [apply scan_ok_inv_json|].
      intros HF. rewrite (scan_Frames_json _ _ _ HF).
      change (WALJson.scan []) with (@Ok (list WALEntry) []). cbn.
      rewrite app_nil_r. reflexivity.
Qed.

(** The four kinds of corruption and a clean end, on files that start with
    the frame of [Set("a", "1")]. *)
Example ReadAll_on_damaged_files :
  let good := @WAL.frame MarkedCodec.codec (mkEntry OperationSet "a" [x31]) in
  let read content :=
    snd (@WAL.ReadAll MarkedCodec.codec (WAL.NewWAL (Some content))) in
  read good = Ok [mkEntry OperationSet "a" [x31]] /\
  read (good ++ [x00; x00; x00]) = Err ErrCorruptWAL /\
  read (good ++ [x00; x00; x00; x00; x01; x02; x03; x04; x05])
    = Err ErrCorruptWAL /\
  read (good ++ [x00; x00; x00; x05; x01]) = Err ErrCorruptWAL /\
  read (good ++ [x00; x00; x00; x02; x01; x02; x03; x04; x05])
    = Err ErrCorruptWAL /\
  read (good ++ [x00; x00; x00; x01; x01; x01; x01; x01; x01])
    = Err (ErrChecksumFailed 16843009 2768625435).
Proof. cbv zeta. repeat split; vm_compute; reflexivity. Qed.

(** C4 fails on the store that was opened on no file, took [Set("k", "1")]
    and was closed: [Set("k", "2")] then returns a nil error (and [Get]
    still finds the key). *)
Lemma closed_store_fails_refuted : ~ closed_store_fails.
Proof.
  intros H.
  pose (s := Store.mk (WAL.mk [] true [] false false WAL.Idle
                              [mkEntry OperationSet "k" [x31]] [])
                      (<["k"%string := [x31]]> ∅)).
  destruct (@Close_Inv MarkedCodec.codec s [mkEntry OperationSet "k" [x31]])
    as (s' & Hclose & _ & _ & _ & _ & _ & Hactive).
  { unfold Inv. cbn. split_and!; try done. exists []. split; reflexivity. }
  destruct (H MarkedCodec.codec s s' Hclose "k"%string [x32])
    as ((s'' & e & Hset) & _).
  unfold Store.Set_ in Hset. rewrite decide_False in Hset by discriminate.
  rewrite (Append_first _ _ Hactive) in Hset. discriminate.
Qed.

(** C4, amended. There is no closed state. Once [Close] has returned,
    [Get] answers from the index as before; [Set] and [Delete] still
    refuse the empty key; with another key they return a nil error, change
    the index and keep the entry in the buffer, the file staying as it
    was. *)
Theorem after_Close_no_closed_state {codec : EntryCodec} (s s' : Store.t) :
  Store.Close s = Returns (s', None) ->
  (forall key, Store.Get s' key = Store.Get s key) /\
  (forall value, Store.Set_ s' "" value = Returns (s', Some ErrKeyEmpty)) /\
  Store.Delete s' "" = Returns (s', (false, Some ErrKeyEmpty)) /\
  (forall key value, key <> ""%string ->
     exists w',
       Store.Set_ s' key value =
         Returns (Store.mk w' (<[key := value]> (Store.data s')), None) /\
       WAL.file w' = WAL.file (Store.wal s') /\
       WAL.activeBuffer w' = [mkEntry OperationSet key value]) /\
  (forall key, key <> ""%string ->
     exists w',
       Store.Delete s' key =
         Returns (Store.mk w' (delete key (Store.data s')),
                  (bool_decide (is_Some (Store.data s' !! key)), None)) /\
       WAL.file w' = WAL.file (Store.wal s') /\
       WAL.activeBuffer w' = [mkEntry OperationDelete key []]).
Proof.
  unfold Store.Close, WAL.Close.
  destruct (WAL.doneChan (Store.wal s)); [discriminate|].
  intros [= <-].
  match goal with
  | |- context [WAL.with_fileOpen (WAL.flushBuffer (WAL.flushBuffer ?w1)) false] =>
      set (w3 := WAL.flushBuffer (WAL.flushBuffer w1))
  end.
  assert (Hactive : WAL.activeBuffer
                      (WAL.with_flusher (WAL.with_fileOpen w3 false) WAL.Gone)
                    = [])
    by apply flushBuffer_twice_active.
  split; [reflexivity|]. split; [reflexivity|]. split; [reflexivity|]. split.
  - intros key value Hne. unfold Store.Set_. rewrite decide_False by exact Hne.
    cbn [Store.wal Store.data]. rewrite (Append_first _ _ Hactive).
    eexists. split; [reflexivity|]. split; reflexivity.
  - intros key Hne. unfold Store.Delete. rewrite decide_False by exact Hne.
    cbn [Store.wal Store.data]. rewrite (Append_first _ _ Hactive).
    eexists. split; [reflexivity|]. split; reflexivity.
Qed.

Lemma after_Close_no_closed_state_witness :
  let s := Store.mk (WAL.mk [] true [] false false WAL.Idle
                            [mkEntry OperationSet "k" [x31]] [])
                    (<["k"%string := [x31]]> ∅) in
  let s' := Store.mk (WAL.mk (@frames MarkedCodec.codec
                                      [mkEntry OperationSet "k" [x31]])
                             false [] false true WAL.Gone [] [])
                     (<["k"%string := [x31]]> ∅) in
  @Store.Close MarkedCodec.codec s = Returns (s', None) /\
  Store.Get s' "k" = ([x31], true) /\
  (forall key, Store.Get s' key = Store.Get s key) /\
  (forall value, Store.Set_ s' "" value = Returns (s', Some ErrKeyEmpty)) /\
  Store.Delete s' "" = Returns (s', (false, Some ErrKeyEmpty)) /\
  (forall key value, key <> ""%string ->
     exists w',
       Store.Set_ s' key value =
         Returns (Store.mk w' (<[key := value]> (Store.data s')), None) /\
       WAL.file w' = WAL.file (Store.wal s') /\
       WAL.activeBuffer w' = [mkEntry OperationSet key value]) /\
  (forall key, key <> ""%string ->
     exists w',
       Store.Delete s' key =
         Returns (Store.mk w' (delete key (Store.data s')),
                  (bool_decide (is_Some (Store.data s' !! key)), None)) /\
       WAL.file w' = WAL.file (Store.wal s') /\
       WAL.activeBuffer w' = [mkEntry OperationDelete key []]).
Proof.
  intros s s'. split; [reflexivity|]. split; [reflexivity|].
  apply (@after_Close_no_closed_state MarkedCodec.codec s s'). reflexivity.
Defined.

(** What the code does on the history C4 is refuted with, call by call;
    the second [Close] closes a closed channel. *)
Example closed_store_history :
  let s0 := Store.mk (WAL.mk [] true [] false false WAL.Idle [] []) ∅ in
  let s1 := Store.mk (WAL.mk [] true [] false false WAL.Idle
                             [mkEntry OperationSet "k" [x31]] [])
                     (<["k"%string := [x31]]> ∅) in
  let s2 := Store.mk (WAL.mk (@frames MarkedCodec.codec
                                      [mkEntry OperationSet "k" [x31]])
                             false [] false true WAL.Gone [] [])
                     (<["k"%string := [x31]]> ∅) in
  @Store.New MarkedCodec.codec None = Ok s0 /\
  Store.Set_ s0 "k" [x31] = Returns (s1, None) /\
  @Store.Close MarkedCodec.codec s1 = Returns (s2, None) /\
  Store.Get s2 "k" = ([x31], true) /\
  (exists s3, Store.Set_ s2 "k" [x32] = Returns (s3, None) /\
              Store.Get s3 "k" = ([x32], true) /\
              WAL.file (Store.wal s3) = WAL.file (Store.wal s2)) /\
  @Store.Close MarkedCodec.codec s2 = Panics.
Proof.
  cbv zeta. repeat split.
  eexists. split; [reflexivity|]. split; reflexivity.
Qed.

(** C5. [Set] and [Delete] with the empty key return the empty-key error
    and the store they leave, log and index, is the store they found. *)
Theorem empty_key_rejected (s : Store.t) (value : list byte) :
  Store.Set_ s "" value = Returns (s, Some ErrKeyEmpty) /\
  Store.Delete s "" = Returns (s, (false, Some ErrKeyEmpty)).
Proof. split; reflexivity. Qed.

(** C6 fails on the file that holds one frame, of length 1, with the right
    checksum, whose payload is the byte [xff]: the error is the decoder's,
    wrapped, and [errors.Is(err, ErrCorruptWAL)] is false. *)
Lemma decode_failure_is_corruption_refuted : ~ decode_failure_is_corruption.
Proof.
  intros H.
  pose (content := Bytes.PutUint32 1 ++
                   Bytes.PutUint32 (CRC32.ChecksumIEEE [xff]) ++ [xff]).
  assert (Hf : frameAt content [xff] []).
  { exists (Bytes.PutUint32 1), (Bytes.PutUint32 (CRC32.ChecksumIEEE [xff])).
    repeat split; discriminate. }
  destruct (H MarkedCodec.codec content [] content [xff] []
              (Frames_nil content) Hf eq_refl) as (e & Hscan & He).
  assert (Hcode : @WAL.scan MarkedCodec.codec content = Err ErrDecodeEntry)
    by (vm_compute; reflexivity).
  rewrite Hcode in Hscan. injection Hscan as <-. discriminate.
Qed.

(** C6, amended. A frame with a good length and checksum whose payload does
    not decode, behind any run of intact frames and whatever follows it,
    makes the scan stop at that frame: it returns no entries and the error
    that wraps the decoder's, which is not [ErrCorruptWAL]. The same holds
    of the JSON log. *)
Theorem decode_failure_stops_scan {codec : EntryCodec}
    (content : list byte) (entries : list WALEntry)
    (tail payload rest : list byte) :
  Frames content entries tail ->
  frameAt tail payload rest -> Decode payload = None ->
  WAL.scan content = Err ErrDecodeEntry /\
  IsCorruptWAL ErrDecodeEntry = false /\
  (forall contentJ entriesJ tailJ payloadJ restJ,
     FramesJson contentJ entriesJ tailJ ->
     frameAtJson tailJ payloadJ restJ -> Decode payloadJ = None ->
     WALJson.scan contentJ = Err ErrDecodeEntry).
Proof.
  intros HF Hf Hdec. split; [|split; [reflexivity|]].
  - rewrite (scan_Frames _ _ _ HF), scan_unfold,
      (readEntry_undecodable _ _ _ Hf Hdec). reflexivity.
  - intros contentJ entriesJ tailJ payloadJ restJ HFJ HfJ HdecJ.
    rewrite (scan_Frames_json _ _ _ HFJ), scan_unfold_json,
      (readEntry_frame_json _ _ _ HfJ), HdecJ. reflexivity.
Qed.

Lemma decode_failure_stops_scan_witness :
  let content := Bytes.PutUint32 1 ++
                 Bytes.PutUint32 (CRC32.ChecksumIEEE [xff]) ++ [xff; x00] in
  @Frames MarkedCodec.codec content [] content /\
  frameAt content [xff] [x00] /\
  @Decode MarkedCodec.codec [xff] = None /\
  @WAL.scan MarkedCodec.codec content = Err ErrDecodeEntry /\
  IsCorruptWAL ErrDecodeEntry = false /\
  (forall contentJ entriesJ tailJ payloadJ restJ,
     @FramesJson MarkedCodec.codec contentJ entriesJ tailJ ->
     frameAtJson tailJ payloadJ restJ ->
     @Decode MarkedCodec.codec payloadJ = None ->
     @WALJson.scan MarkedCodec.codec contentJ = Err ErrDecodeEntry).
Proof.
  intros content.
  assert (Hf : frameAt content [xff] [x00]).
  { exists (Bytes.PutUint32 1), (Bytes.PutUint32 (CRC32.ChecksumIEEE [xff])).
    repeat split; discriminate. }
  split; [constructor|]. split; [exact Hf|]. split; [reflexivity|].
  apply (@decode_failure_stops_scan MarkedCodec.codec content [] content
           [xff] [x00]); [constructor|exact Hf|reflexivity].
Defined.

(** C7. With a key that is not empty, a [Delete] that is not kept waiting
    by the signal to the flusher returns, and without error: [false] when
    the index does not hold the key; and after a [Set] of the key that
    returned no error, two [Delete]s of it return [true], then [false],
    whatever moves the flusher makes between the calls. *)
Theorem delete_reports_existence {codec : EntryCodec}
    (s : Store.t) (key : string) (value : list byte) :
  key <> ""%string ->
  ~ stuck (Store.wal s) ->
  (Store.data s !! key = None ->
   exists s', Store.Delete s key = Returns (s', (false, None))) /\
  (exists s1,
     Store.Set_ s key value = Returns (s1, None) /\
     forall tns1 s1',
       Store.run s1 (flusherMoves tns1) = Some s1' ->
       ~ stuck (Store.wal s1') ->
       exists s2,
         Store.Delete s1' key = Returns (s2, (true, None)) /\
         forall tns2 s2',
           Store.run s2 (flusherMoves tns2) = Some s2' ->
           ~ stuck (Store.wal s2') ->
           exists s3, Store.Delete s2' key = Returns (s3, (false, None))).
Proof.
  intros Hne Hfree. split.
  - intros Habs. destruct (Delete_free s key Hne Hfree) as (w' & -> & _).
    rewrite Habs, bool_decide_eq_false_2 by (intros [? ?]; discriminate).
    eexists. reflexivity.
  - destruct (Set_free s key value Hne Hfree) as (w1 & Hset & _).
    eexists. split; [exact Hset|]. intros tns1 s1' Hrun1 Hfree1.
    destruct (run_flusherMoves
                (Store.mk w1 (<[key := value]> (Store.data s))) tns1)
      as (s1'' & Hrun1' & Hdata1 & _).
    rewrite Hrun1 in Hrun1'. injection Hrun1' as <-.
    cbn [Store.data] in Hdata1.
    destruct (Delete_free s1' key Hne Hfree1) as (w2 & Hdel1 & _).
    rewrite Hdata1, lookup_insert_eq, bool_decide_eq_true_2 in Hdel1
      by (eexists; reflexivity).
    eexists. split; [exact Hdel1|]. intros tns2 s2' Hrun2 Hfree2.
    destruct (run_flusherMoves
                (Store.mk w2 (delete key (<[key := value]> (Store.data s))))
                tns2)
      as (s2'' & Hrun2' & Hdata2 & _).
    rewrite Hrun2 in Hrun2'. injection Hrun2' as <-.
    cbn [Store.data] in Hdata2.
    destruct (Delete_free s2' key Hne Hfree2) as (w3 & Hdel2 & _).
    rewrite Hdata2, lookup_delete_eq, bool_decide_eq_false_2 in Hdel2
      by (intros [? ?]; discriminate).
    eexists. exact Hdel2.
Qed.

Lemma delete_reports_existence_witness :
  let s := Store.mk (WAL.NewWAL None) ∅ in
  "foo"%string <> ""%string /\
  ~ stuck (Store.wal s) /\
  (Store.data s !! "foo"%string = None ->
   exists s', Store.Delete s "foo" = Returns (s', (false, None))) /\
  (exists s1,
     Store.Set_ s "foo" [x62; x61; x72] = Returns (s1, None) /\
     forall tns1 s1',
       @Store.run MarkedCodec.codec s1 (flusherMoves tns1) = Some s1' ->
       ~ stuck (Store.wal s1') ->
       exists s2,
         Store.Delete s1' "foo" = Returns (s2, (true, None)) /\
         forall tns2 s2',
           @Store.run MarkedCodec.codec s2 (flusherMoves tns2) = Some s2' ->
           ~ stuck (Store.wal s2') ->
           exists s3, Store.Delete s2' "foo" = Returns (s3, (false, None))).
Proof.
  intros s.
  assert (Hfree : ~ stuck (Store.wal s)).
  { intros (_ & Hslot & _). discriminate. }
  split; [discriminate|]. split; [exact Hfree|].
  apply (@delete_reports_existence MarkedCodec.codec s "foo" [x62; x61; x72]);
    [discriminate|exact Hfree].
Defined.

(** C8. With byte slices as references into a heap of arrays: after
    [Set(k, v)] has returned, overwriting the array of [v] does not change
    what [Get(k)] returns, which is what [v] held when [Set] was called;
    overwriting the array of the slice that [Get] returned does not change
    what the next [Get(k)] returns; and in any store whose index points to
    existing arrays, overwriting the array of a slice returned by [Get(k)]
    leaves the next [Get(k)] with what the first one returned. *)
Theorem copy_isolation (h : Aliasing.heap) (s : Aliasing.t)
    (key : string) (value : Aliasing.slice) :
  key <> ""%string ->
  (forall l, value = Some l -> l ∈ dom h) ->
  Aliasing.closed h s ->
  (exists h1 s1,
     Aliasing.Set_ h s key value = (h1, s1, None) /\
     forall bs1, exists h3 got,
       Aliasing.Get (Aliasing.write h1 value bs1) s1 key = (h3, (got, true)) /\
       Aliasing.contents h3 got = Aliasing.contents h value /\
       forall bs2, exists h5 again,
         Aliasing.Get (Aliasing.write h3 got bs2) s1 key
           = (h5, (again, true)) /\
         Aliasing.contents h5 again = Aliasing.contents h value) /\
  (forall key' h1 got found,
     Aliasing.Get h s key' = (h1, (got, found)) ->
     forall bs, exists h2 again,
       Aliasing.Get (Aliasing.write h1 got bs) s key' = (h2, (again, found)) /\
       Aliasing.contents h2 again = Aliasing.contents h1 got).
Proof.
  intros Hne Hval Hclosed. split.
  - unfold Aliasing.Set_. rewrite decide_False by exact Hne.
    destruct (Clone_spec h value Hval)
      as (h1 & c & -> & Hc & Hsame & Hmono & Hfresh & Hnil).
    eexists _, _. split; [reflexivity|]. intros bs1.
    assert (Hcv : forall l, value = Some l -> c <> Some l).
    { intros l -> ->. destruct (Hfresh l eq_refl) as [Hn _].
      exact (Hn (Hval l eq_refl)). }
    destruct (Get_copies (Aliasing.write h1 value bs1)
                (Aliasing.mk (Aliasing.appended s ++
                                [Aliasing.mkEntry OperationSet key c])
                             (<[key := c]> (Aliasing.data s))) key c)
      as (h3 & got & Hget & Hgot & Hkeep & Hsep).
    { cbn. apply lookup_insert_eq. }
    { intros l ->. apply dom_write. apply (Hfresh l eq_refl). }
    rewrite (contents_write_other h1 value c bs1 Hcv) in Hgot, Hkeep.
    exists h3, got. split; [exact Hget|]. split; [congruence|].
    intros bs2.
    destruct (Get_copies (Aliasing.write h3 got bs2)
                (Aliasing.mk (Aliasing.appended s ++
                                [Aliasing.mkEntry OperationSet key c])
                             (<[key := c]> (Aliasing.data s))) key c)
      as (h5 & again & Hget2 & Hagain & _ & _).
    { cbn. apply lookup_insert_eq. }
    { intros l ->. apply dom_write. apply (Hsep l eq_refl). }
    rewrite contents_write_other in Hagain.
    2:{ intros l -> ->. destruct (Hsep l eq_refl) as [Hx _]. apply Hx.
        reflexivity. }
    exists h5, again. split; [exact Hget2|]. congruence.
  - intros key' h1 got found Hget bs.
    destruct (Aliasing.data s !! key') as [stored|] eqn:Hk.
    + assert (Hdom : forall l, stored = Some l -> l ∈ dom h)
        by (intros l ->; exact (Hclosed key' l Hk)).
      destruct (Get_copies h s key' stored Hk Hdom)
        as (h1' & got' & Hget' & Hgot & Hkeep & Hsep).
      rewrite Hget in Hget'. injection Hget' as <- <- ->.
      destruct (Get_copies (Aliasing.write h1 got bs) s key' stored Hk)
        as (h2 & again & Hget2 & Hagain & _ & _).
      { intros l ->. apply dom_write. apply (Hsep l eq_refl). }
      rewrite contents_write_other in Hagain.
      2:{ intros l -> ->. destruct (Hsep l eq_refl) as [Hx _]. apply Hx.
          reflexivity. }
      exists h2, again. split; [exact Hget2|]. congruence.
    + unfold Aliasing.Get in *. rewrite Hk in *.
      injection Hget as <- <- <-. eexists _, _. split; reflexivity.
Qed.

Lemma copy_isolation_witness :
  let h : Aliasing.heap := {[ 1%positive := [x62; x61; x72] ]} in
  let s := Aliasing.mk [] ∅ in
  "foo"%string <> ""%string /\
  (forall l, Some 1%positive = Some l -> l ∈ dom h) /\
  Aliasing.closed h s /\
  (exists h1 s1,
     Aliasing.Set_ h s "foo" (Some 1%positive) = (h1, s1, None) /\
     forall bs1, exists h3 got,
       Aliasing.Get (Aliasing.write h1 (Some 1%positive) bs1) s1 "foo"
         = (h3, (got, true)) /\
       Aliasing.contents h3 got = Aliasing.contents h (Some 1%positive) /\
       forall bs2, exists h5 again,
         Aliasing.Get (Aliasing.write h3 got bs2) s1 "foo"
           = (h5, (again, true)) /\
         Aliasing.contents h5 again = Aliasing.contents h (Some 1%positive)) /\
  (forall key' h1 got found,
     Aliasing.Get h s key' = (h1, (got, found)) ->
     forall bs, exists h2 again,
       Aliasing.Get (Aliasing.write h1 got bs) s key' = (h2, (again, found)) /\
       Aliasing.contents h2 again = Aliasing.contents h1 got).
Proof.
  intros h s.
  assert (Hv : forall l, Some 1%positive = Some l -> l ∈ dom h).
  { intros l [= <-]. subst h. rewrite dom_singleton_L. set_solver. }
  assert (Hc : Aliasing.closed h s).
  { intros key l Hk. subst s. cbn in Hk. rewrite lookup_empty in Hk.
    discriminate. }
  split; [discriminate|]. split; [exact Hv|]. split; [exact Hc|].
  apply (copy_isolation h s "foo" (Some 1%positive));
    [discriminate|exact Hv|exact Hc].
Defined.

(** C9. Take a store opened on no file that has been through any history
    whose calls returned, and a key that is not empty. [Delete] either
    waits for ever on the signal to the flusher, or returns having put a
    delete entry at the end of the active buffer and reports whether the
    index held the key; neither depends on the index. Closing then leaves
    a file that is the file a close without that [Delete] would have left,
    followed by the frame of the delete entry, and reading the file back
    gives the entries of the history followed by the delete entry. When the
    index did not hold the key the call reports [false] and leaves the
    index as it was, and applying the entry at replay leaves an index that
    does not hold the key as it was. *)
Theorem delete_always_logged {codec : EntryCodec} {law : RoundTrip codec}
    (evs : list Store.event) (key : string) :
  key <> ""%string ->
  Forall fits (logOf evs ++ [mkEntry OperationDelete key []]) ->
  let entry := mkEntry OperationDelete key [] in
  exists s0,
    Store.New None = Ok s0 /\
    forall s,
      Store.run s0 evs = Some s ->
      (stuck (Store.wal s) -> Store.Delete s key = Blocks) /\
      (~ stuck (Store.wal s) ->
       exists s' existed closed closed',
         Store.Delete s key = Returns (s', (existed, None)) /\
         existed = bool_decide (is_Some (Store.data s !! key)) /\
         WAL.activeBuffer (Store.wal s') =
           WAL.activeBuffer (Store.wal s) ++ [entry] /\
         Store.Close s = Returns (closed, None) /\
         Store.Close s' = Returns (closed', None) /\
         WAL.file (Store.wal closed') =
           WAL.file (Store.wal closed) ++ WAL.frame entry /\
         WAL.frame entry <> [] /\
         snd (WAL.ReadAll (WAL.NewWAL (Some (WAL.file (Store.wal closed'))))) =
           Ok (logOf evs ++ [entry]) /\
         (Store.data s !! key = None ->
          existed = false /\ Store.data s' = Store.data s /\
          Store.data (Store.applyEntry s entry) = Store.data s)).
Proof.
  intros Hne Hfit entry.
  destruct (New_empty None eq_refl) as (s0 & Hnew & HI0).
  exists s0. split; [exact Hnew|]. intros s Hrun.
  split; [exact (Delete_stuck s key Hne)|]. intros Hfree.
  pose proof (run_Inv evs s0 [] s HI0 Hrun) as HI. cbn [app] in HI.
  destruct (Delete_free s key Hne Hfree) as (w' & Hdel & Happ).
  pose proof (Inv_appended s _ entry w' _ HI Happ eq_refl) as HI'.
  destruct (Close_Inv s _ HI) as (closed & Hclose & Hfile & _).
  destruct (Close_Inv _ _ HI') as (closed' & Hclose' & Hfile' & _).
  exists (Store.mk w' (applyData (Store.data s) entry)),
    (bool_decide (is_Some (Store.data s !! key))), closed, closed'.
  split; [exact Hdel|]. split; [reflexivity|].
  split; [destruct Happ as (_ & _ & _ & _ & _ & Ha & _); exact Ha|].
  split; [exact Hclose|]. split; [exact Hclose'|].
  split; [rewrite Hfile', Hfile, frames_app; cbn; rewrite app_nil_r; reflexivity|].
  split.
  { apply Forall_app in Hfit as [_ Hfit]. apply Forall_cons in Hfit as [Hfit _].
    destruct Hfit as (data & Henc & Hlen). unfold WAL.frame.
    fold entry in Henc. rewrite Henc. discriminate. }
  split.
  { unfold WAL.ReadAll.
    rewrite flushBuffer_tidy by (repeat split).
    cbn. rewrite app_nil_r, Hfile'. apply scan_frames. exact Hfit. }
  intros Habs. split; [|split].
  - apply bool_decide_eq_false_2. rewrite Habs. intros [? ?]. discriminate.
  - cbn. apply delete_id. exact Habs.
  - destruct (applyEntry_data s entry) as [-> _]. apply delete_id. exact Habs.
Qed.

Lemma delete_always_logged_witness :
  let evs := [ Store.EvCall (Store.CallSet "a" [x31]);
               Store.EvFlusher (WAL.Wake WAL.WakeTick);
               Store.EvFlusher WAL.Swap ] in
  let entry := mkEntry OperationDelete "ghost" [] in
  "ghost"%string <> ""%string /\
  Forall (@fits MarkedCodec.codec) (logOf evs ++ [entry]) /\
  exists s0,
    @Store.New MarkedCodec.codec None = Ok s0 /\
    forall s,
      @Store.run MarkedCodec.codec s0 evs = Some s ->
      (stuck (Store.wal s) -> Store.Delete s "ghost" = Blocks) /\
      (~ stuck (Store.wal s) ->
       exists s' existed closed closed',
         Store.Delete s "ghost" = Returns (s', (existed, None)) /\
         existed = bool_decide (is_Some (Store.data s !! "ghost"%string)) /\
         WAL.activeBuffer (Store.wal s') =
           WAL.activeBuffer (Store.wal s) ++ [entry] /\
         @Store.Close MarkedCodec.codec s = Returns (closed, None) /\
         @Store.Close MarkedCodec.codec s' = Returns (closed', None) /\
         WAL.file (Store.wal closed') =
           WAL.file (Store.wal closed) ++ @WAL.frame MarkedCodec.codec entry /\
         @WAL.frame MarkedCodec.codec entry <> [] /\
         snd (@WAL.ReadAll MarkedCodec.codec
                (WAL.NewWAL (Some (WAL.file (Store.wal closed'))))) =
           Ok (logOf evs ++ [entry]) /\
         (Store.data s !! "ghost"%string = None ->
          existed = false /\ Store.data s' = Store.data s /\
          Store.data (Store.applyEntry s entry) = Store.data s)).
Proof.
  intros evs entry. split; [discriminate|].
  split; [subst evs entry; fits_by_computation|].
  apply (@delete_always_logged MarkedCodec.codec MarkedCodec_round_trip
           evs "ghost");
    [discriminate|subst evs; fits_by_computation].
Defined.

(** C10. A store opened on an empty or absent log, after any history of
    [Set], [Delete] and [Get] calls that returned, with the flusher making
    its moves in between, does not hold the empty key, and [Get("")]
    returns no value and [false]; the calls of a history that logs fewer
    entries than the flush threshold do all return. Replay does not check
    keys: [applyEntry] of a set entry with the empty key puts it in the
    index, and a store opened on a log that holds such a frame serves
    it. *)
Theorem empty_key_never_indexed {codec : EntryCodec}
    (onDisk : option (list byte)) (evs : list Store.event) :
  default [] onDisk = [] ->
  (exists s0,
     Store.New onDisk = Ok s0 /\
     ((length (logOf evs) < bufferSize)%nat -> is_Some (Store.run s0 evs)) /\
     forall s,
       Store.run s0 evs = Some s ->
       Store.data s !! ""%string = None /\ Store.Get s "" = ([], false)) /\
  (forall st value,
     Store.Get (Store.applyEntry st (mkEntry OperationSet "" value)) ""
       = (value, true)) /\
  (RoundTrip codec ->
   forall value,
     fits (mkEntry OperationSet "" value) ->
     exists st,
       Store.New (Some (WAL.frame (mkEntry OperationSet "" value))) = Ok st /\
       Store.Get st "" = (value, true)).
Proof.
  intros Hdisk. split; [|split].
  - destruct (New_empty onDisk Hdisk) as (s0 & Hnew & HI0).
    exists s0. split; [exact Hnew|]. split.
    { intros Hlen. exact (run_below_threshold evs s0 [] HI0 Hlen). }
    intros s Hrun.
    pose proof (run_Inv evs s0 [] s HI0 Hrun) as HI. cbn [app] in HI.
    destruct HI as (_ & _ & _ & _ & _ & _ & Hdata).
    assert (Hk : Store.data s !! ""%string = None).
    { rewrite Hdata, (replay_other _ _ _ (logOf_keys evs)).
      apply lookup_empty. }
    split; [exact Hk|]. unfold Store.Get. rewrite Hk. reflexivity.
  - intros st value. unfold Store.Get, Store.applyEntry.
    rewrite decide_True by reflexivity. cbn [Store.data Key Value].
    rewrite lookup_insert_eq. reflexivity.
  - intros law value Hfit.
    destruct (New_frames (Some (WAL.frame (mkEntry OperationSet "" value)))
                [mkEntry OperationSet "" value])
      as (st & Hnew & (_ & _ & _ & _ & _ & _ & Hdata) & _).
    { cbn. rewrite app_nil_r. reflexivity. }
    { apply Forall_cons_2; [exact Hfit|apply Forall_nil_2]. }
    exists st. split; [exact Hnew|].
    unfold Store.Get. rewrite Hdata. cbn [fold_left].
    rewrite applyData_set, lookup_insert_eq. reflexivity.
Qed.

Lemma empty_key_never_indexed_witness :
  let evs := [ Store.EvCall (Store.CallSet "" [x31]);
               Store.EvCall (Store.CallSet "a" [x32]);
               Store.EvCall (Store.CallDelete "");
               Store.EvFlusher (WAL.Wake WAL.WakeSignal);
               Store.EvFlusher (WAL.Wake WAL.WakeTick);
               Store.EvCall (Store.CallGet "") ] in
  default [] (Some (@nil byte)) = [] /\
  (exists s0,
     @Store.New MarkedCodec.codec (Some []) = Ok s0 /\
     ((length (logOf evs) < bufferSize)%nat ->
      is_Some (@Store.run MarkedCodec.codec s0 evs)) /\
     forall s,
       @Store.run MarkedCodec.codec s0 evs = Some s ->
       Store.data s !! ""%string = None /\ Store.Get s "" = ([], false)) /\
  (forall st value,
     Store.Get (Store.applyEntry st (mkEntry OperationSet "" value)) ""
       = (value, true)) /\
  (RoundTrip MarkedCodec.codec ->
   forall value,
     @fits MarkedCodec.codec (mkEntry OperationSet "" value) ->
     exists st,
       @Store.New MarkedCodec.codec
         (Some (@WAL.frame MarkedCodec.codec (mkEntry OperationSet "" value)))
         = Ok st /\
       Store.Get st "" = (value, true)).
Proof.
  intros evs. split; [reflexivity|].
  apply (@empty_key_never_indexed MarkedCodec.codec (Some []) evs).
  reflexivity.
Defined.

(** * Further properties of the code *)

(** ** The buffered log on its own *)

Section LogAloneFacts.
Context {codec : EntryCodec}.

Lemma sound_NewWAL onDisk : sound (default [] onDisk) (WAL.NewWAL onDisk) [].
Proof.
  unfold sound. cbn. split_and!; try done.
  exists []. cbn. rewrite app_nil_r. split; reflexivity.
Qed.

Lemma sound_appended file0 w entries entry w' :
  sound file0 w entries -> appendedTo w entry w' ->
  sound file0 w' (entries ++ [entry]).
Proof.
  intros (Ho & Hw & Hd & Hg & Hp & (more & Hes & Hfile))
         (Hf' & Ho' & Hw' & Hd' & Hp' & Ha' & Hph').
  unfold sound. rewrite Ho', Hw', Hp', Hd', Hf', Ha'.
  split; [exact Ho|]. split; [exact Hw|]. split; [exact Hd|].
  split; [destruct Hph' as [->|[_ ->]]; [exact Hg|discriminate]|].
  split; [intros Hns; apply Hp; destruct Hph' as [<-|[-> _]];
          [exact Hns|discriminate]|].
  exists more. split; [|exact Hfile]. rewrite Hes, <- !app_assoc. reflexivity.
Qed.

Lemma sound_asyncFlush file0 w entries tn w' :
  sound file0 w entries -> WAL.asyncFlush w tn = Some w' ->
  sound file0 w' entries.
Proof.
  destruct w as [file fo wr fc dc ph active pending].
  intros (Ho & Hw & Hd & Hg & Hp & (more & Hes & Hfile)).
  cbn in Ho, Hw, Hd, Hg, Hp, Hes, Hfile. subst fo wr dc.
  unfold WAL.asyncFlush. cbn [WAL.flusher WAL.flushChan].
  destruct tn as [[]| |], ph; try discriminate.
  - intros [= <-]. rewrite (Hp ltac:(discriminate)) in *.
    unfold sound. cbn. split_and!; try done. exists more. split; assumption.
  - destruct fc; [|discriminate]. intros [= <-].
    rewrite (Hp ltac:(discriminate)) in *.
    unfold sound. cbn. split_and!; try done. exists more. split; assumption.
  - intros [= <-]. rewrite (Hp ltac:(discriminate)) in *.
    unfold sound. destruct active as [|e active]; cbn; split_and!; try done;
      exists more; rewrite ?app_nil_r in *; split; assumption.
  - intros [= <-]. rewrite writePending_eq.
    unfold sound. cbn. split_and!; try done.
    exists (more ++ pending). rewrite frames_app, Hfile, <- !app_assoc.
    split; [exact Hes|reflexivity].
Qed.

Lemma sound_step file0 w entries ev w' :
  sound file0 w entries -> logStep w ev = Some w' ->
  sound file0 w' (entries ++ appendedOf [ev]).
Proof.
  intros HI. destruct ev as [entry|tn]; cbn [logStep].
  - destruct (stuck_dec w) as [Hs|Hfree].
    + rewrite (Append_stuck w entry Hs). discriminate.
    + destruct (Append_free w entry Hfree) as (w1 & -> & Happ).
      intros [= <-]. exact (sound_appended _ _ _ _ _ HI Happ).
  - intros [= <-]. change (appendedOf [Moved tn]) with (@nil WALEntry).
    rewrite app_nil_r.
    destruct (WAL.asyncFlush w tn) as [w1|] eqn:E; cbn [default];
      [|exact HI].
    exact (sound_asyncFlush _ _ entries tn w1 HI E).
Qed.

Lemma appendedOf_app evs1 evs2 :
  appendedOf (evs1 ++ evs2) = appendedOf evs1 ++ appendedOf evs2.
Proof. unfold appendedOf. apply omap_app. Qed.

Lemma logRun_sound evs file0 w entries w' :
  sound file0 w entries -> logRun w evs = Some w' ->
  sound file0 w' (entries ++ appendedOf evs).
Proof.
  revert w entries. induction evs as [|ev evs IH]; intros w entries HI.
  - cbn. intros [= <-]. rewrite app_nil_r. exact HI.
  - cbn [logRun]. destruct (logStep w ev) as [w1|] eqn:Hstep; [|discriminate].
    intros Hrun. pose proof (sound_step _ w entries ev w1 HI Hstep) as HI1.
    pose proof (IH w1 _ HI1 Hrun) as HI'.
    change (ev :: evs) with ([ev] ++ evs).
    rewrite appendedOf_app, app_assoc. exact HI'.
Qed.

Lemma logRun_app evs1 evs2 w :
  logRun w (evs1 ++ evs2) =
  match logRun w evs1 with
  | Some w1 => logRun w1 evs2
  | None => None
  end.
Proof.
  revert w. induction evs1 as [|ev evs1 IH]; intros w; [reflexivity|].
  cbn [app logRun]. destruct (logStep w ev); [apply IH|reflexivity].
Qed.

(** [Close] on an open log: the state it leaves, in full. *)
Lemma Close_sound file0 w entries :
  sound file0 w entries ->
  WAL.Close w =
  Returns (WAL.mk (file0 ++ frames entries) false [] (WAL.flushChan w) true
                  WAL.Gone [] [], None).
Proof.
  destruct w as [file fo wr fc dc ph active pending].
  intros (Ho & Hw & Hd & Hg & Hp & (more & Hes & Hfile)).
  cbn in Ho, Hw, Hd, Hg, Hp, Hes, Hfile. subst fo wr dc.
  unfold WAL.Close, WAL.with_doneChan.
  cbn [WAL.file WAL.fileOpen WAL.writer WAL.flushChan
       WAL.doneChan WAL.flusher WAL.activeBuffer WAL.pendingBuffer].
  destruct ph; try congruence.
  - rewrite (Hp ltac:(discriminate)) in *. rewrite !flushBuffer_eq.
    destruct active; cbn; rewrite ?app_nil_r, Hfile, Hes, ?frames_app;
      cbn; rewrite ?app_nil_r, <- ?app_assoc; reflexivity.
  - rewrite (Hp ltac:(discriminate)) in *. rewrite !flushBuffer_eq.
    destruct active; cbn; rewrite ?app_nil_r, Hfile, Hes, ?frames_app;
      cbn; rewrite ?app_nil_r, <- ?app_assoc; reflexivity.
  - rewrite writePending_eq, !flushBuffer_eq.
    destruct active; cbn; rewrite ?app_nil_r, Hfile, Hes, ?frames_app;
      cbn; rewrite ?app_nil_r, <- ?app_assoc; reflexivity.
Qed.

(** [ReadAll] on an open log whose flusher is in its [select]: the state
    it leaves, and the scan it makes. *)
Lemma ReadAll_sound file0 w entries :
  sound file0 w entries -> WAL.flusher w = WAL.Idle ->
  WAL.ReadAll w =
  (WAL.mk (file0 ++ frames entries) true [] (WAL.flushChan w) false WAL.Idle
          [] [],
   WAL.scan (file0 ++ frames entries)).
Proof.
  intros (Ho & Hw & Hd & Hg & Hp & (more & Hes & Hfile)) Hidle.
  assert (Hpend : WAL.pendingBuffer w = []) by (apply Hp; congruence).
  assert (Ht : tidy w) by (repeat split; assumption).
  unfold WAL.ReadAll. rewrite (flushBuffer_tidy w Ht).
  cbn [WAL.fileOpen WAL.file].
  rewrite Hpend in Hes. cbn [app] in Hes.
  rewrite Hfile, Hd, Hidle, <- app_assoc, <- frames_app, <- Hes. reflexivity.
Qed.

(** A returned [Append] carries no error. *)
Lemma Append_no_error w entry w' err :
  WAL.Append w entry = Returns (w', err) -> err = None.
Proof.
  unfold WAL.Append.
  repeat match goal with
         | |- context [if ?b then _ else _] => destruct b
         | |- context [match ?x with WAL.Idle => _ | _ => _ end] => destruct x
         end; intros [= _ <-] || discriminate; reflexivity.
Qed.

Lemma logEventsOf_app evs1 evs2 :
  logEventsOf (evs1 ++ evs2) = logEventsOf evs1 ++ logEventsOf evs2.
Proof. unfold logEventsOf. apply omap_app. Qed.

Lemma appendedOf_logEventsOf evs : appendedOf (logEventsOf evs) = logOf evs.
Proof.
  induction evs as [|ev evs IH]; [reflexivity|].
  change (ev :: evs) with ([ev] ++ evs).
  rewrite logEventsOf_app, appendedOf_app, logOf_app, IH. f_equal.
  destruct ev as [c|tn]; [|reflexivity].
  rewrite logOf_call. unfold logEventsOf, appendedOf. cbn.
  destruct (entryOf c); reflexivity.
Qed.

(** A call of the store is an [Append] of its entry, or nothing. *)
Lemma step_logRun s ev s' :
  Store.step s ev = Some s' ->
  logRun (Store.wal s) (logEventsOf [ev]) = Some (Store.wal s') /\
  Store.data s' = fold_left applyData (logOf [ev]) (Store.data s).
Proof.
  destruct ev as [[key value|key|key]|tn]; cbn [Store.step].
  - rewrite logOf_call. unfold logEventsOf. cbn [omap list_omap entryOf].
    unfold Store.Set_.
    destruct (decide (key = ""%string)) as [->|Hne];
      [intros [= <-]; split; reflexivity|].
    cbn [fmap option_fmap option_map logRun logStep].
    destruct (WAL.Append (Store.wal s) _) as [[w' [err|]]| |] eqn:E;
      try discriminate.
    + pose proof (Append_no_error _ _ _ _ E). discriminate.
    + intros [= <-]. split; reflexivity.
  - rewrite logOf_call. unfold logEventsOf. cbn [omap list_omap entryOf].
    unfold Store.Delete.
    destruct (decide (key = ""%string)) as [->|Hne];
      [intros [= <-]; split; reflexivity|].
    cbn [fmap option_fmap option_map logRun logStep].
    destruct (WAL.Append (Store.wal s) _) as [[w' [err|]]| |] eqn:E;
      try discriminate.
    + pose proof (Append_no_error _ _ _ _ E). discriminate.
    + intros [= <-]. split; reflexivity.
  - intros [= <-]. split; reflexivity.
  - intros [= <-]. split; reflexivity.
Qed.

Lemma run_logRun evs s s' :
  Store.run s evs = Some s' ->
  logRun (Store.wal s) (logEventsOf evs) = Some (Store.wal s') /\
  Store.data s' = fold_left applyData (logOf evs) (Store.data s).
Proof.
  revert s. induction evs as [|ev evs IH]; intros s.
  - cbn. intros [= <-]. split; reflexivity.
  - cbn [Store.run]. destruct (Store.step s ev) as [s1|] eqn:Hstep;
      [|discriminate].
    intros Hrun. destruct (IH s1 Hrun) as [Hlog Hdata].
    destruct (step_logRun s ev s1 Hstep) as [Hlog1 Hdata1].
    change (ev :: evs) with ([ev] ++ evs).
    rewrite logEventsOf_app, logRun_app, Hlog1, logOf_app, fold_left_app.
    rewrite <- Hdata1. split; assumption.
Qed.

Lemma frameAt_app r payload r' t :
  frameAt r payload r' -> frameAt (r ++ t) payload (r' ++ t).
Proof.
  intros (lb & cb & -> & Hl & Hc & Hlen & Hne & Hsum).
  exists lb, cb. rewrite <- !app_assoc. repeat split; assumption.
Qed.

Lemma Frames_app r entries tail t :
  Frames r entries tail -> Frames (r ++ t) entries (tail ++ t).
Proof.
  induction 1 as [tail|r payload r' entry entries tail Hf Hdec _ IH];
    [constructor|].
  econstructor; [apply frameAt_app; exact Hf|exact Hdec|exact IH].
Qed.

(** A scan that went through goes through again when the file has grown,
    and carries on with what was added. *)
Lemma scan_app_tail content old tail :
  WAL.scan content = Ok old ->
  WAL.scan (content ++ tail) = after old (WAL.scan tail).
Proof.
  intros Hscan. apply scan_ok_inv in Hscan.
  apply (scan_Frames _ _ _ (Frames_app _ _ _ tail Hscan)).
Qed.

End LogAloneFacts.

Section LogAloneRoundTripFacts.
Context {codec : EntryCodec} {law : RoundTrip codec}.

Lemma scan_app_frames content old more :
  WAL.scan content = Ok old -> Forall fits more ->
  WAL.scan (content ++ frames more) = Ok (old ++ more).
Proof.
  intros Hscan Hfit.
  rewrite (scan_app_tail _ _ _ Hscan), (scan_frames more Hfit). reflexivity.
Qed.

End LogAloneRoundTripFacts.

(** X1. On a log opened on a file that scans, after any run of [Append]s
    that returned and of moves of the flusher that leaves the flusher in
    its [select], [ReadAll] returns the entries the file held followed by
    the appended ones, in the order of the calls; it has flushed them, and
    both buffers are empty. The appended entries are assumed to fit a
    frame. *)
Theorem ReadAll_returns_what_was_appended
    {codec : EntryCodec} {law : RoundTrip codec}
    (onDisk : option (list byte)) (old : list WALEntry)
    (evs : list logEvent) (w : WAL.t) :
  WAL.scan (default [] onDisk) = Ok old ->
  Forall fits (appendedOf evs) ->
  logRun (WAL.NewWAL onDisk) evs = Some w ->
  WAL.flusher w = WAL.Idle ->
  exists w',
    WAL.ReadAll w = (w', Ok (old ++ appendedOf evs)) /\
    WAL.file w' = default [] onDisk ++ frames (appendedOf evs) /\
    WAL.activeBuffer w' = [] /\ WAL.pendingBuffer w' = [].
Proof.
  intros Hdisk Hfit Hrun Hidle.
  pose proof (logRun_sound evs _ _ [] w (sound_NewWAL onDisk) Hrun) as HI.
  cbn [app] in HI.
  rewrite (ReadAll_sound _ w _ HI Hidle), (scan_app_frames _ _ _ Hdisk Hfit).
  eexists. split; [reflexivity|]. repeat split.
Qed.

Lemma ReadAll_returns_what_was_appended_witness :
  let e1 := mkEntry OperationSet "alpha" [x31] in
  let e2 := mkEntry OperationDelete "alpha" [] in
  let e3 := mkEntry OperationSet "beta" [x32] in
  let evs := [ Appended e1; Moved (WAL.Wake WAL.WakeTick); Appended e2;
               Moved WAL.Swap; Appended e3; Moved WAL.Finish ] in
  let w := WAL.mk (@frames MarkedCodec.codec [e1; e2]) true [] false false
                  WAL.Idle [e3] [] in
  @WAL.scan MarkedCodec.codec (default [] None) = Ok [] /\
  Forall (@fits MarkedCodec.codec) (appendedOf evs) /\
  @logRun MarkedCodec.codec (WAL.NewWAL None) evs = Some w /\
  WAL.flusher w = WAL.Idle /\
  exists w',
    @WAL.ReadAll MarkedCodec.codec w = (w', Ok ([] ++ appendedOf evs)) /\
    WAL.file w' =
      default [] None ++ @frames MarkedCodec.codec (appendedOf evs) /\
    WAL.activeBuffer w' = [] /\ WAL.pendingBuffer w' = [].
Proof.
  intros e1 e2 e3 evs w.
  split; [reflexivity|].
  split; [subst evs e1 e2 e3; fits_by_computation|].
  split; [reflexivity|]. split; [reflexivity|].
  apply (@ReadAll_returns_what_was_appended MarkedCodec.codec
           MarkedCodec_round_trip None [] evs w);
    [reflexivity|subst evs e1 e2 e3; fits_by_computation
    |reflexivity|reflexivity].
Defined.

(** X2. On a log opened on any file, after any run of [Append]s that
    returned and of moves of the flusher, wherever the flusher stands,
    [Close] returns and leaves the file closed with both buffers empty;
    the file holds what it held followed by one frame for each appended
    entry that encodes, in the order of the calls, and nothing for an
    entry that does not encode. *)
Theorem Close_writes_every_entry_in_order {codec : EntryCodec}
    (onDisk : option (list byte)) (evs : list logEvent) (w : WAL.t) :
  logRun (WAL.NewWAL onDisk) evs = Some w ->
  exists w',
    WAL.Close w = Returns (w', None) /\
    WAL.file w' = default [] onDisk ++ flat_map WAL.frame (appendedOf evs) /\
    WAL.fileOpen w' = false /\
    WAL.activeBuffer w' = [] /\ WAL.pendingBuffer w' = [] /\
    WAL.writer w' = [].
Proof.
  intros Hrun.
  pose proof (logRun_sound evs _ _ [] w (sound_NewWAL onDisk) Hrun) as HI.
  rewrite (Close_sound _ w _ HI). eexists. split; [reflexivity|].
  cbn. repeat split.
Qed.

Lemma Close_writes_every_entry_in_order_witness :
  let e1 := mkEntry OperationSet "alpha" [x31] in
  let e2 := mkEntry "noop" "alpha" [] in
  let evs := [ Appended e1; Moved (WAL.Wake WAL.WakeTick); Moved WAL.Swap;
               Appended e2 ] in
  let w := WAL.mk [x00] true [] false false WAL.Swapped [e2] [e1] in
  @logRun MarkedCodec.codec (WAL.NewWAL (Some [x00])) evs = Some w /\
  exists w',
    @WAL.Close MarkedCodec.codec w = Returns (w', None) /\
    WAL.file w' =
      default [] (Some [x00]) ++
      flat_map (@WAL.frame MarkedCodec.codec) (appendedOf evs) /\
    WAL.fileOpen w' = false /\
    WAL.activeBuffer w' = [] /\ WAL.pendingBuffer w' = [] /\
    WAL.writer w' = [].
Proof.
  intros e1 e2 evs w. split; [reflexivity|].
  apply (@Close_writes_every_entry_in_order MarkedCodec.codec
           (Some [x00]) evs w); reflexivity.
Defined.

(** ** The store between two flushes *)

Section BetweenFlushesFacts.
Context {codec : EntryCodec}.

Lemma bounded_NewWAL onDisk : bounded (WAL.NewWAL onDisk).
Proof.
  unfold bounded, bufferSize. cbn. split_and!; intros; try lia; reflexivity.
Qed.

(** Closes the parts of [bounded] once the slot and the phase are known. *)
Ltac bounded_by_cases n Hsig Hfull Hrest :=
  try (assert (n <> 101%nat)
        by (let Hx := fresh in
            intros Hx; destruct (Hfull Hx) as [? ?]; discriminate));
  try (assert (n < 100)%nat
        by (let Hx := fresh in
            destruct (Nat.lt_ge_cases n 100) as [?|Hx];
            [assumption|destruct (Hsig Hx); discriminate]));
  split_and!; intros; try lia; try solve [auto]; try congruence;
  try solve [apply Hrest; discriminate].

Lemma Append_bounded w entry w' err :
  bounded w -> WAL.Append w entry = Returns (w', err) -> bounded w'.
Proof.
  destruct w as [file fo wr fc dc ph active pending].
  unfold bounded, WAL.Append, WAL.with_flushChan, WAL.with_flusher,
    WAL.with_buffers.
  cbn [WAL.file WAL.fileOpen WAL.writer WAL.flushChan WAL.doneChan
       WAL.flusher WAL.activeBuffer WAL.pendingBuffer].
  rewrite length_app. cbn [length]. unfold bufferSize.
  intros (Ha & Hp & Hsig & Hfull & Hrest).
  destruct (Nat.leb_spec 100 (length active + 1)) as [Hle|Hlt].
  - destruct fc.
    + destruct ph; try discriminate. intros [= <- <-].
      cbn [WAL.flushChan WAL.flusher WAL.activeBuffer WAL.pendingBuffer].
      rewrite length_app. cbn [length].
      bounded_by_cases (length active) Hsig Hfull Hrest.
    + intros [= <- <-].
      cbn [WAL.flushChan WAL.flusher WAL.activeBuffer WAL.pendingBuffer].
      rewrite length_app. cbn [length].
      destruct ph; bounded_by_cases (length active) Hsig Hfull Hrest.
  - intros [= <- <-].
    cbn [WAL.flushChan WAL.flusher WAL.activeBuffer WAL.pendingBuffer].
    rewrite length_app. cbn [length].
    bounded_by_cases (length active) Hsig Hfull Hrest.
Qed.

Lemma asyncFlush_bounded w tn w' :
  bounded w -> WAL.asyncFlush w tn = Some w' -> bounded w'.
Proof.
  destruct w as [file fo wr fc dc ph active pending].
  unfold bounded, WAL.asyncFlush.
  cbn [WAL.file WAL.fileOpen WAL.writer WAL.flushChan WAL.doneChan
       WAL.flusher WAL.activeBuffer WAL.pendingBuffer].
  unfold bufferSize. intros (Ha & Hp & Hsig & Hfull & Hrest).
  destruct tn as [[]| |], ph; try discriminate.
  - intros [= <-]. cbn.
    bounded_by_cases (length active) Hsig Hfull Hrest.
  - destruct fc; [|discriminate]. intros [= <-]. cbn.
    bounded_by_cases (length active) Hsig Hfull Hrest.
  - intros [= <-]. rewrite (Hrest ltac:(discriminate)) in *.
    destruct active as [|e rest]; cbn in *; split_and!; intros;
      try lia; congruence.
  - intros [= <-]. rewrite writePending_eq.
    destruct fo, fc; cbn;
      bounded_by_cases (length active) Hsig Hfull Hrest.
Qed.

Lemma step_bounded s ev s' :
  bounded (Store.wal s) -> Store.step s ev = Some s' ->
  bounded (Store.wal s').
Proof.
  intros HB. destruct ev as [[key value|key|key]|tn]; cbn [Store.step].
  - unfold Store.Set_. destruct (decide (key = ""%string));
      [intros [= <-]; exact HB|].
    destruct (WAL.Append (Store.wal s) _) as [[w' [err|]]| |] eqn:E;
      try discriminate; intros [= <-]; exact (Append_bounded _ _ _ _ HB E).
  - unfold Store.Delete. destruct (decide (key = ""%string));
      [intros [= <-]; exact HB|].
    destruct (WAL.Append (Store.wal s) _) as [[w' [err|]]| |] eqn:E;
      try discriminate; intros [= <-]; exact (Append_bounded _ _ _ _ HB E).
  - intros [= <-]. exact HB.
  - intros [= <-]. cbn [Store.wal].
    destruct (WAL.asyncFlush (Store.wal s) tn) as [w'|] eqn:E; cbn [default];
      [|exact HB].
    exact (asyncFlush_bounded _ tn w' HB E).
Qed.

Lemma run_bounded evs s s' :
  bounded (Store.wal s) -> Store.run s evs = Some s' ->
  bounded (Store.wal s').
Proof.
  revert s. induction evs as [|ev evs IH]; intros s HB.
  - cbn. intros [= <-]. exact HB.
  - cbn [Store.run]. destruct (Store.step s ev) as [s1|] eqn:Hstep;
      [|discriminate].
    apply (IH s1). exact (step_bounded s ev s1 HB Hstep).
Qed.

(** [New], with the cycle [ReadAll] starts on the fresh log and the replay
    worked out. *)
Lemma New_unfold onDisk :
  Store.New onDisk =
  match WAL.scan (default [] onDisk) with
  | Ok entries =>
      Ok (Store.mk (WAL.NewWAL onDisk) (fold_left applyData entries ∅))
  | Err e => Err (ErrRecoverWAL e)
  end.
Proof.
  unfold Store.New, Store.Recover, WAL.ReadAll.
  assert (Ht : tidy (WAL.NewWAL onDisk)) by (repeat split).
  rewrite (flushBuffer_tidy _ Ht). cbn [Store.wal WAL.fileOpen WAL.file].
  cbn [WAL.NewWAL WAL.file WAL.activeBuffer frames flat_map].
  rewrite app_nil_r.
  destruct (WAL.scan (default [] onDisk)) as [entries|e]; [|reflexivity].
  match goal with
  | |- context [fold_left Store.applyEntry entries ?s0] =>
      destruct (fold_applyEntry entries s0) as [Hdata Hwal];
      destruct (fold_left Store.applyEntry entries s0) as [w m]
  end.
  cbn in Hdata, Hwal. subst w m. reflexivity.
Qed.

Lemma New_wal onDisk s0 :
  Store.New onDisk = Ok s0 -> Store.wal s0 = WAL.NewWAL onDisk.
Proof.
  rewrite New_unfold. destruct (WAL.scan _); [|discriminate].
  intros [= <-]. reflexivity.
Qed.

(** Without the flusher's swap the active buffer only grows. *)
Lemma run_noSwap_active evs s s' :
  Forall noSwap evs -> Store.run s evs = Some s' ->
  WAL.activeBuffer (Store.wal s') = WAL.activeBuffer (Store.wal s) ++ logOf evs.
Proof.
  intros Hno. revert s. induction Hno as [|ev evs Hev _ IH]; intros s.
  - cbn. intros [= <-]. rewrite app_nil_r. reflexivity.
  - cbn [Store.run]. destruct (Store.step s ev) as [s1|] eqn:Hstep;
      [|discriminate].
    intros Hrun. rewrite (IH s1 Hrun).
    change (ev :: evs) with ([ev] ++ evs). rewrite logOf_app, app_assoc.
    f_equal. clear IH Hrun.
    destruct ev as [[key value|key|key]|[k| |]]; try destruct Hev;
      cbn [Store.step] in Hstep; rewrite ?logOf_call; cbn [entryOf].
    + destruct (decide (key = ""%string)) as [->|Hne].
      * cbn in Hstep. injection Hstep as <-. rewrite app_nil_r. reflexivity.
      * destruct (stuck_dec (Store.wal s)) as [Hs|Hfree].
        { rewrite (Set_stuck s key value Hne Hs) in Hstep. discriminate. }
        destruct (Set_free s key value Hne Hfree) as (w' & Hset & Happ).
        rewrite Hset in Hstep. injection Hstep as <-.
        destruct Happ as (_ & _ & _ & _ & _ & Ha & _). exact Ha.
    + destruct (decide (key = ""%string)) as [->|Hne].
      * cbn in Hstep. injection Hstep as <-. rewrite app_nil_r. reflexivity.
      * destruct (stuck_dec (Store.wal s)) as [Hs|Hfree].
        { rewrite (Delete_stuck s key Hne Hs) in Hstep. discriminate. }
        destruct (Delete_free s key Hne Hfree) as (w' & Hdel & Happ).
        rewrite Hdel in Hstep. injection Hstep as <-.
        destruct Happ as (_ & _ & _ & _ & _ & Ha & _). exact Ha.
    + injection Hstep as <-. rewrite app_nil_r. reflexivity.
    + injection Hstep as <-. cbn. rewrite app_nil_r.
      unfold WAL.asyncFlush.
      destruct k, (WAL.flusher (Store.wal s)); cbn [default]; try reflexivity.
      destruct (WAL.flushChan (Store.wal s)); reflexivity.
Qed.

End BetweenFlushesFacts.

(** ** Replay, key by key *)

Section ReplayFacts.
Context {codec : EntryCodec}.
Import Bytes CRC32.

(** What an entry does to a key does not depend on the index, or leaves
    the key as it is. *)
Lemma applyData_fixed_or_id entry key :
  (forall m1 m2, applyData m1 entry !! key = applyData m2 entry !! key) \/
  (forall m, applyData m entry !! key = m !! key).
Proof.
  unfold applyData, Store.applyEntry.
  destruct (decide (Key entry = key)) as [<-|Hne].
  - repeat case_decide; cbn [Store.data].
    + left. intros m1 m2. rewrite !lookup_insert_eq. reflexivity.
    + left. intros m1 m2. rewrite !lookup_delete_eq. reflexivity.
    + right. reflexivity.
  - right. intros m. repeat case_decide; cbn [Store.data].
    + apply lookup_insert_ne. exact Hne.
    + apply lookup_delete_ne. exact Hne.
    + reflexivity.
Qed.

Lemma replay_congr entries key m1 m2 :
  m1 !! key = m2 !! key ->
  fold_left applyData entries m1 !! key = fold_left applyData entries m2 !! key.
Proof.
  revert m1 m2. induction entries as [|entry entries IH]; intros m1 m2 Hm;
    [exact Hm|].
  cbn [fold_left]. apply IH.
  destruct (applyData_fixed_or_id entry key) as [H|H];
    [apply H|rewrite !H; exact Hm].
Qed.

(** Replaying a log over its own replay changes nothing. *)
Lemma replay_idem entries m :
  fold_left applyData entries (fold_left applyData entries m) =
  fold_left applyData entries m.
Proof.
  revert m. induction entries as [|entry entries IH] using rev_ind; intros m;
    [reflexivity|].
  rewrite !fold_left_app. cbn [fold_left]. apply map_eq. intros key.
  destruct (applyData_fixed_or_id entry key) as [H|H]; [apply H|].
  rewrite !H.
  rewrite (replay_congr entries key _ (fold_left applyData entries m))
    by apply H.
  rewrite IH. reflexivity.
Qed.

Lemma replay_filter_known entries m :
  fold_left applyData entries m = fold_left applyData (filter known entries) m.
Proof.
  revert m. induction entries as [|entry entries IH]; intros m; [reflexivity|].
  rewrite filter_cons. cbn [fold_left].
  destruct (decide (known entry)) as [Hk|Hk]; cbn [fold_left]; [apply IH|].
  rewrite <- IH. f_equal. unfold applyData, Store.applyEntry.
  repeat case_decide; try reflexivity; exfalso; apply Hk; [left|right];
    assumption.
Qed.

(** A nonempty part of a frame that is not the whole frame is corrupt. *)
Lemma corruptAt_cut entry cut lost :
  fits entry -> WAL.frame entry = cut ++ lost -> cut <> [] -> lost <> [] ->
  corruptAt cut.
Proof.
  intros (data & Henc & Hlen) Hframe Hcut Hlost.
  unfold WAL.frame in Hframe. rewrite Henc in Hframe.
  pose proof (f_equal length Hframe) as Hl.
  rewrite !length_app, !length_PutUint32 in Hl.
  assert (0 < length cut)%nat by (destruct cut; [congruence|cbn; lia]).
  assert (0 < length lost)%nat by (destruct lost; [congruence|cbn; lia]).
  destruct (le_lt_dec 4 (length cut)) as [Hle|Hlt];
    [|apply TruncatedLength; lia].
  assert (Ht : take 4 cut = PutUint32 (u32 (Z.of_nat (length data)))).
  { rewrite <- (take_app_le cut lost 4) by exact Hle. rewrite <- Hframe.
    apply take_app_length'. rewrite length_PutUint32. reflexivity. }
  assert (Hu : Uint32 (take 4 cut) = Z.of_nat (length data)).
  { rewrite Ht, u32_small by lia. apply Uint32_PutUint32. lia. }
  apply PastEndOfFile; [exact Hle|rewrite Hu; lia|rewrite Hu; lia].
Qed.

End ReplayFacts.

(** ** The store and its file *)



(** X4. On a store that [New] returned, after any history of calls that
    returned and of moves of the flusher, neither buffer of the log holds
    more than one entry past the flush threshold, and whenever the active
    buffer has reached the threshold a flush has been asked for: the
    signal is in its slot or the flusher has been woken. *)
Theorem buffers_hold_one_past_the_threshold_at_most
    {codec : EntryCodec} (onDisk : option (list byte)) (s0 s : Store.t)
    (evs : list Store.event) :
  Store.New onDisk = Ok s0 ->
  Store.run s0 evs = Some s ->
  (length (WAL.activeBuffer (Store.wal s)) <= bufferSize + 1)%nat /\
  (length (WAL.pendingBuffer (Store.wal s)) <= bufferSize + 1)%nat /\
  ((bufferSize <= length (WAL.activeBuffer (Store.wal s)))%nat ->
   WAL.flushChan (Store.wal s) = true \/
   WAL.flusher (Store.wal s) = WAL.Woken).
Proof.
  intros Hnew Hrun.
  assert (HB : bounded (Store.wal s0))
    by (rewrite (New_wal _ _ Hnew); apply bounded_NewWAL).
  destruct (run_bounded evs s0 s HB Hrun) as (Ha & Hp & Hsig & _).
  split; [exact Ha|]. split; [exact Hp|exact Hsig].
Qed.

Lemma buffers_hold_one_past_the_threshold_at_most_witness :
  let evs := sets 101 ++ [Store.EvFlusher WAL.Swap] ++ sets 3 in
  let s0 := Store.mk (WAL.NewWAL None) ∅ in
  exists s,
    @Store.New MarkedCodec.codec None = Ok s0 /\
    @Store.run MarkedCodec.codec s0 evs = Some s /\
    (length (WAL.activeBuffer (Store.wal s)) <= bufferSize + 1)%nat /\
    (length (WAL.pendingBuffer (Store.wal s)) <= bufferSize + 1)%nat /\
    ((bufferSize <= length (WAL.activeBuffer (Store.wal s)))%nat ->
     WAL.flushChan (Store.wal s) = true \/
     WAL.flusher (Store.wal s) = WAL.Woken).
Proof.
  intros evs s0.
  destruct (@Store.run MarkedCodec.codec s0 evs) as [s|] eqn:Hrun;
    [|vm_compute in Hrun; discriminate].
  exists s. split; [reflexivity|]. split; [reflexivity|].
  apply (@buffers_hold_one_past_the_threshold_at_most MarkedCodec.codec
           None s0 s evs); [reflexivity|exact Hrun].
Defined.

(** X5. On a store that [New] returned, a history in which the flusher
    never gets to swap the buffers cannot log two entries more than the
    flush threshold: some call of it does not return. [Append] waits to
    send on [flushChan] with [w.mu] held, and the flusher needs [w.mu]
    to swap. *)
Theorem owner_waits_for_the_swap
    {codec : EntryCodec} (onDisk : option (list byte)) (s0 : Store.t)
    (evs : list Store.event) :
  Store.New onDisk = Ok s0 ->
  Forall noSwap evs ->
  (bufferSize + 2 <= length (logOf evs))%nat ->
  Store.run s0 evs = None.
Proof.
  intros Hnew Hno Hlen.
  destruct (Store.run s0 evs) as [s|] eqn:Hrun; [exfalso|reflexivity].
  assert (HB : bounded (Store.wal s0))
    by (rewrite (New_wal _ _ Hnew); apply bounded_NewWAL).
  destruct (run_bounded evs s0 s HB Hrun) as (Ha & _).
  rewrite (run_noSwap_active evs s0 s Hno Hrun), (New_wal _ _ Hnew) in Ha.
  cbn [WAL.NewWAL WAL.activeBuffer app] in Ha. lia.
Qed.

Lemma owner_waits_for_the_swap_witness :
  let evs := sets 60 ++ [Store.EvFlusher (WAL.Wake WAL.WakeTick)] ++
             sets 42 in
  let s0 := Store.mk (WAL.NewWAL None) ∅ in
  @Store.New MarkedCodec.codec None = Ok s0 /\
  Forall noSwap evs /\
  (bufferSize + 2 <= length (logOf evs))%nat /\
  @Store.run MarkedCodec.codec s0 evs = None.
Proof.
  intros evs s0.
  assert (Hno : Forall noSwap evs).
  { subst evs. unfold sets. repeat apply Forall_app_2;
      try apply Forall_replicate; try exact I.
    apply Forall_cons_2; [exact I|apply Forall_nil_2]. }
  assert (Hlen : (bufferSize + 2 <= length (logOf evs))%nat)
    by (vm_compute; lia).
  split; [reflexivity|]. split; [exact Hno|]. split; [exact Hlen|].
  apply (@owner_waits_for_the_swap MarkedCodec.codec None s0 evs);
    [reflexivity|exact Hno|exact Hlen].
Defined.

(** X6. A file that recovers, followed by a frame cut short, does not:
    [New] returns no store, and its error wraps [ErrCorruptWAL]. Nothing
    of the intact frames before the cut is served. *)
Theorem torn_tail_fails_recovery
    {codec : EntryCodec} (content cut lost : list byte)
    (old : list WALEntry) (entry : WALEntry) :
  WAL.scan content = Ok old ->
  fits entry ->
  WAL.frame entry = cut ++ lost -> cut <> [] -> lost <> [] ->
  exists e,
    Store.New (Some (content ++ cut)) = Err (ErrRecoverWAL e) /\
    IsCorruptWAL (ErrRecoverWAL e) = true.
Proof.
  intros Hscan Hfit Hframe Hcut Hlost.
  destruct (scan_corruptAt cut (corruptAt_cut entry cut lost Hfit Hframe
                                  Hcut Hlost)) as (e & He & Hbad).
  exists e. rewrite New_unfold.
  change (default [] (Some (content ++ cut))) with (content ++ cut).
  rewrite (scan_app_tail _ _ _ Hscan), He. split; [reflexivity|exact Hbad].
Qed.

Lemma torn_tail_fails_recovery_witness :
  let e1 := mkEntry OperationSet "alpha" [x31] in
  let e2 := mkEntry OperationSet "beta" [x32] in
  let content := @WAL.frame MarkedCodec.codec e1 in
  let cut := take 9 (@WAL.frame MarkedCodec.codec e2) in
  let lost := drop 9 (@WAL.frame MarkedCodec.codec e2) in
  @WAL.scan MarkedCodec.codec content = Ok [e1] /\
  @fits MarkedCodec.codec e2 /\
  @WAL.frame MarkedCodec.codec e2 = cut ++ lost /\
  cut <> [] /\ lost <> [] /\
  exists e,
    @Store.New MarkedCodec.codec (Some (content ++ cut))
      = Err (ErrRecoverWAL e) /\
    IsCorruptWAL (ErrRecoverWAL e) = true.
Proof.
  intros e1 e2 content cut lost.
  assert (Hscan : @WAL.scan MarkedCodec.codec content = Ok [e1])
    by (vm_compute; reflexivity).
  assert (Hfit : @fits MarkedCodec.codec e2)
    by (eexists; split; [reflexivity|vm_compute; split; reflexivity]).
  assert (Hframe : @WAL.frame MarkedCodec.codec e2 = cut ++ lost)
    by (symmetry; apply take_drop).
  assert (Hcut : cut <> []) by (vm_compute; discriminate).
  assert (Hlost : lost <> []) by (vm_compute; discriminate).
  split; [exact Hscan|]. split; [exact Hfit|]. split; [exact Hframe|].
  split; [exact Hcut|]. split; [exact Hlost|].
  apply (@torn_tail_fails_recovery MarkedCodec.codec content cut lost
           [e1] e2); assumption.
Defined.

(** X7. Replay ignores the entries whose type is neither [set] nor
    [delete]: the index [New] returns on a file that scans is the replay
    of the entries of the two known types alone. *)
Theorem unknown_entries_are_skipped_at_replay
    {codec : EntryCodec} (onDisk : option (list byte))
    (entries : list WALEntry) :
  WAL.scan (default [] onDisk) = Ok entries ->
  exists s,
    Store.New onDisk = Ok s /\
    Store.data s =
      Store.data (fold_left Store.applyEntry (filter known entries)
                            (Store.mk (WAL.NewWAL onDisk) ∅)).
Proof.
  intros Hscan. rewrite New_unfold, Hscan. eexists. split; [reflexivity|].
  cbn [Store.data].
  destruct (fold_applyEntry (filter known entries)
              (Store.mk (WAL.NewWAL onDisk) ∅)) as [-> _].
  apply replay_filter_known.
Qed.

Lemma unknown_entries_are_skipped_at_replay_witness :
  let e1 := mkEntry OperationSet "alpha" [x31] in
  let e2 := mkEntry "rename" "alpha" [x32] in
  let e3 := mkEntry OperationSet "beta" [x33] in
  let content := @frames MarkedCodec.codec [e1; e2; e3] in
  @WAL.scan MarkedCodec.codec (default [] (Some content)) = Ok [e1; e2; e3] /\
  exists s,
    @Store.New MarkedCodec.codec (Some content) = Ok s /\
    Store.data s =
      Store.data (fold_left Store.applyEntry (filter known [e1; e2; e3])
                            (Store.mk (WAL.NewWAL (Some content)) ∅)).
Proof.
  intros e1 e2 e3 content.
  assert (Hscan : @WAL.scan MarkedCodec.codec (default [] (Some content))
                  = Ok [e1; e2; e3]) by (vm_compute; reflexivity).
  split; [exact Hscan|].
  apply (@unknown_entries_are_skipped_at_replay MarkedCodec.codec
           (Some content) [e1; e2; e3] Hscan).
Defined.

(** X8. [Recover] called on a live store whose flusher is in its [select]
    returns no error and leaves the index as it was; it has flushed the
    log: the file holds what was found at opening followed by the frames
    of all the entries logged since, and both buffers are empty. The
    entries logged are assumed to fit a frame. *)
Theorem Recover_on_a_live_store_keeps_the_index
    {codec : EntryCodec} {law : RoundTrip codec}
    (onDisk : option (list byte)) (s0 s : Store.t)
    (evs : list Store.event) :
  Store.New onDisk = Ok s0 ->
  Forall fits (logOf evs) ->
  Store.run s0 evs = Some s ->
  WAL.flusher (Store.wal s) = WAL.Idle ->
  exists s',
    Store.Recover s = (s', None) /\
    Store.data s' = Store.data s /\
    WAL.file (Store.wal s') = default [] onDisk ++ frames (logOf evs) /\
    WAL.activeBuffer (Store.wal s') = [] /\
    WAL.pendingBuffer (Store.wal s') = [].
Proof.
  intros Hnew Hfit Hrun Hidle. rewrite New_unfold in Hnew.
  destruct (WAL.scan (default [] onDisk)) as [old|] eqn:Hscan;
    [|discriminate].
  injection Hnew as <-.
  destruct (run_logRun _ _ _ Hrun) as [Hlog Hdata].
  cbn [Store.wal Store.data] in Hlog, Hdata.
  pose proof (logRun_sound _ _ _ [] _ (sound_NewWAL onDisk) Hlog) as HI.
  cbn [app] in HI. rewrite appendedOf_logEventsOf in HI.
  unfold Store.Recover.
  rewrite (ReadAll_sound _ _ _ HI Hidle), (scan_app_frames _ _ _ Hscan Hfit).
  eexists. split; [reflexivity|].
  match goal with
  | |- context [fold_left Store.applyEntry ?es ?st] =>
      destruct (fold_applyEntry es st) as [Hd Hw]
  end.
  rewrite Hd, Hw. cbn [Store.data Store.wal WAL.file WAL.activeBuffer
                       WAL.pendingBuffer].
  split; [|repeat split].
  assert (Hall : Store.data s = fold_left applyData (old ++ logOf evs) ∅)
    by (rewrite Hdata, fold_left_app; reflexivity).
  rewrite Hall. apply replay_idem.
Qed.

Lemma Recover_on_a_live_store_keeps_the_index_witness :
  let evs := [ Store.EvCall (Store.CallSet "alpha" [x31]);
               Store.EvFlusher (WAL.Wake WAL.WakeTick);
               Store.EvFlusher WAL.Swap;
               Store.EvCall (Store.CallDelete "alpha");
               Store.EvFlusher WAL.Finish;
               Store.EvCall (Store.CallSet "beta" [x32]) ] in
  let e1 := mkEntry OperationSet "alpha" [x31] in
  let e2 := mkEntry OperationDelete "alpha" [] in
  let e3 := mkEntry OperationSet "beta" [x32] in
  let s0 := Store.mk (WAL.NewWAL None) ∅ in
  let s := Store.mk (WAL.mk (@frames MarkedCodec.codec [e1]) true [] false
                            false WAL.Idle [e2; e3] [])
                    (<["beta" := [x32]]>
                       (delete "alpha" (<["alpha" := [x31]]> ∅))) in
  @Store.New MarkedCodec.codec None = Ok s0 /\
  Forall (@fits MarkedCodec.codec) (logOf evs) /\
  @Store.run MarkedCodec.codec s0 evs = Some s /\
  WAL.flusher (Store.wal s) = WAL.Idle /\
  exists s',
    @Store.Recover MarkedCodec.codec s = (s', None) /\
    Store.data s' = Store.data s /\
    WAL.file (Store.wal s') =
      default [] None ++ @frames MarkedCodec.codec (logOf evs) /\
    WAL.activeBuffer (Store.wal s') = [] /\
    WAL.pendingBuffer (Store.wal s') = [].
Proof.
  intros evs e1 e2 e3 s0 s.
  split; [reflexivity|].
  split; [subst evs; fits_by_computation|].
  split; [reflexivity|]. split; [reflexivity|].
  apply (@Recover_on_a_live_store_keeps_the_index MarkedCodec.codec
           MarkedCodec_round_trip None s0 s evs);
    [reflexivity|subst evs; fits_by_computation|reflexivity|reflexivity].
Defined.

(** X9. Once a [Set] or a [Delete] with a key that is not empty has
    returned, and whatever calls on other keys and moves of the flusher
    follow, [Get] on that key answers by that call: the value set, with
    [true], or no value, with [false]. *)
Theorem Get_answers_by_the_last_call_on_the_key
    {codec : EntryCodec} (s s' : Store.t) (c : Store.call)
    (entry : WALEntry) (evs : list Store.event) :
  entryOf c = Some entry ->
  Forall (fun e => Key e <> Key entry) (logOf evs) ->
  Store.run s (Store.EvCall c :: evs) = Some s' ->
  Store.Get s' (Key entry) =
    match c with
    | Store.CallSet _ value => (value, true)
    | Store.CallDelete _ | Store.CallGet _ => ([], false)
    end.
Proof.
  intros Hentry Hother Hrun.
  destruct (run_logRun _ _ _ Hrun) as [_ Hdata].
  change (Store.EvCall c :: evs) with ([Store.EvCall c] ++ evs) in Hdata.
  rewrite logOf_app, fold_left_app, logOf_call, Hentry in Hdata.
  cbn [fold_left] in Hdata.
  unfold Store.Get. rewrite Hdata, (replay_other _ _ _ Hother).
  destruct c as [key value|key|key]; cbn [entryOf] in Hentry;
    try discriminate;
    destruct (decide (key = ""%string)); try discriminate;
    injection Hentry as <-; cbn [Key].
  - rewrite applyData_set, lookup_insert_eq. reflexivity.
  - rewrite applyData_delete, lookup_delete_eq. reflexivity.
Qed.

Lemma Get_answers_by_the_last_call_on_the_key_witness :
  let c := Store.CallSet "alpha" [x31] in
  let entry := mkEntry OperationSet "alpha" [x31] in
  let evs := [ Store.EvFlusher (WAL.Wake WAL.WakeTick);
               Store.EvCall (Store.CallSet "beta" [x32]);
               Store.EvFlusher WAL.Swap;
               Store.EvCall (Store.CallDelete "gamma") ] in
  let s := Store.mk (WAL.NewWAL None) (<["alpha" := [x30]]> ∅) in
  exists s',
    entryOf c = Some entry /\
    Forall (fun e => Key e <> Key entry) (logOf evs) /\
    @Store.run MarkedCodec.codec s (Store.EvCall c :: evs) = Some s' /\
    Store.Get s' (Key entry) = ([x31], true).
Proof.
  intros c entry evs s.
  assert (Hother : Forall (fun e => Key e <> Key entry) (logOf evs)).
  { subst evs entry. repeat (apply Forall_cons_2; [discriminate|]).
    apply Forall_nil_2. }
  destruct (@Store.run MarkedCodec.codec s (Store.EvCall c :: evs))
    as [s'|] eqn:Hrun; [|vm_compute in Hrun; discriminate].
  exists s'. split; [reflexivity|]. split; [exact Hother|].
  split; [reflexivity|].
  apply (@Get_answers_by_the_last_call_on_the_key MarkedCodec.codec
           s s' c entry evs eq_refl Hother Hrun).
Defined.

(** X10. On a store that [New] returned, as long as the flusher has not
    swapped the buffers nothing reaches the file: after any history of
    calls that returned and of wake-ups of the flusher, the file is what
    was found at opening, every entry logged is in the active buffer, and
    a store opened on the file has the index the first one started
    with. A [Set] or a [Delete] that has returned is not yet on disk. *)
Theorem nothing_reaches_the_file_before_the_swap
    {codec : EntryCodec} (onDisk : option (list byte)) (s0 s : Store.t)
    (evs : list Store.event) :
  Store.New onDisk = Ok s0 ->
  Forall noSwap evs ->
  Store.run s0 evs = Some s ->
  WAL.file (Store.wal s) = default [] onDisk /\
  WAL.activeBuffer (Store.wal s) = logOf evs /\
  Store.New (Some (WAL.file (Store.wal s))) = Ok s0.
Proof.
  intros Hnew Hno Hrun.
  pose proof (run_noSwap_active evs s0 s Hno Hrun) as Ha.
  rewrite (New_wal _ _ Hnew) in Ha. cbn [WAL.NewWAL WAL.activeBuffer app] in Ha.
  destruct (run_logRun _ _ _ Hrun) as [Hlog _].
  rewrite (New_wal _ _ Hnew) in Hlog.
  pose proof (logRun_sound _ _ _ [] _ (sound_NewWAL onDisk) Hlog)
    as (_ & _ & _ & _ & _ & (more & Hes & Hfile)).
  cbn [app] in Hes. rewrite appendedOf_logEventsOf, Ha in Hes.
  assert (Hmore : more = []).
  { apply (f_equal length) in Hes. rewrite !length_app in Hes.
    destruct more; [reflexivity|cbn [length] in Hes; lia]. }
  subst more. cbn [frames flat_map] in Hfile. rewrite app_nil_r in Hfile.
  split; [exact Hfile|]. split; [exact Ha|].
  rewrite Hfile, <- Hnew, !New_unfold. reflexivity.
Qed.

Lemma nothing_reaches_the_file_before_the_swap_witness :
  let evs := [ Store.EvCall (Store.CallSet "alpha" [x31]);
               Store.EvFlusher (WAL.Wake WAL.WakeTick);
               Store.EvCall (Store.CallDelete "alpha");
               Store.EvCall (Store.CallSet "beta" [x32]) ] in
  let e0 := mkEntry OperationSet "gamma" [x30] in
  let onDisk := Some (@WAL.frame MarkedCodec.codec e0) in
  let s0 := Store.mk (WAL.NewWAL onDisk) (<["gamma" := [x30]]> ∅) in
  exists s,
    @Store.New MarkedCodec.codec onDisk = Ok s0 /\
    Forall noSwap evs /\
    @Store.run MarkedCodec.codec s0 evs = Some s /\
    WAL.file (Store.wal s) = default [] onDisk /\
    WAL.activeBuffer (Store.wal s) = logOf evs /\
    @Store.New MarkedCodec.codec (Some (WAL.file (Store.wal s))) = Ok s0.
Proof.
  intros evs e0 onDisk s0.
  assert (Hnew : @Store.New MarkedCodec.codec onDisk = Ok s0)
    by (vm_compute; reflexivity).
  assert (Hno : Forall noSwap evs)
    by (subst evs; repeat (apply Forall_cons_2; [exact I|]);
        apply Forall_nil_2).
  destruct (@Store.run MarkedCodec.codec s0 evs) as [s|] eqn:Hrun;
    [|vm_compute in Hrun; discriminate].
  exists s. split; [exact Hnew|]. split; [exact Hno|].
  split; [reflexivity|].
  apply (@nothing_reaches_the_file_before_the_swap MarkedCodec.codec
           onDisk s0 s evs Hnew Hno Hrun).
Defined.

(** ** When the flusher keeps up *)

Section PacedFacts.
Context {codec : EntryCodec}.

Lemma store_run_app evs1 evs2 s :
  Store.run s (evs1 ++ evs2) =
  match Store.run s evs1 with
  | Some s1 => Store.run s1 evs2
  | None => None
  end.
Proof.
  revert s. induction evs1 as [|ev evs1 IH]; intros s; [reflexivity|].
  cbn [app Store.run]. destruct (Store.step s ev); [apply IH|reflexivity].
Qed.

(** A cycle that starts from the [select] ends there, with both buffers
    empty. *)
Lemma cycle_from_Idle w m :
  WAL.flusher w = WAL.Idle -> WAL.pendingBuffer w = [] ->
  exists w',
    Store.run (Store.mk w m) cycle = Some (Store.mk w' m) /\
    WAL.flusher w' = WAL.Idle /\
    WAL.activeBuffer w' = [] /\ WAL.pendingBuffer w' = [].
Proof.
  destruct w as [f fo wr fc dc ph a p].
  cbn [WAL.flusher WAL.pendingBuffer]. intros -> ->.
  unfold cycle. cbn [Store.run Store.step Store.wal Store.data].
  destruct a as [|e a]; cbn -[WAL.writePending];
    unfold WAL.with_flusher, WAL.with_buffers; cbn -[WAL.writePending];
    rewrite writePending_eq; destruct fo;
    (eexists; split; [reflexivity|repeat split]).
Qed.

(** A call that finds the flusher in its [select] and the active buffer
    empty returns, and leaves the flusher there. *)
Lemma call_at_rest s c :
  WAL.flusher (Store.wal s) = WAL.Idle ->
  WAL.pendingBuffer (Store.wal s) = [] ->
  WAL.activeBuffer (Store.wal s) = [] ->
  exists s1,
    Store.step s (Store.EvCall c) = Some s1 /\
    WAL.flusher (Store.wal s1) = WAL.Idle /\
    WAL.pendingBuffer (Store.wal s1) = [].
Proof.
  intros Hidle Hp Ha. destruct c as [key value|key|key]; cbn [Store.step].
  - unfold Store.Set_. destruct (decide (key = ""%string));
      [exists s; repeat split; assumption|].
    rewrite (Append_first _ _ Ha). eexists. split; [reflexivity|].
    cbn. split; assumption.
  - unfold Store.Delete. destruct (decide (key = ""%string));
      [exists s; repeat split; assumption|].
    rewrite (Append_first _ _ Ha). eexists. split; [reflexivity|].
    cbn. split; assumption.
  - exists s. repeat split; assumption.
Qed.

Lemma paced_run calls s :
  WAL.flusher (Store.wal s) = WAL.Idle ->
  WAL.pendingBuffer (Store.wal s) = [] ->
  WAL.activeBuffer (Store.wal s) = [] ->
  exists s',
    Store.run s (paced calls) = Some s' /\
    WAL.flusher (Store.wal s') = WAL.Idle /\
    WAL.pendingBuffer (Store.wal s') = [] /\
    WAL.activeBuffer (Store.wal s') = [].
Proof.
  revert s. induction calls as [|c calls IH]; intros s Hidle Hp Ha.
  - exists s. repeat split; assumption.
  - destruct (call_at_rest s c Hidle Hp Ha) as (s1 & Hstep & Hidle1 & Hp1).
    destruct s1 as [w1 m1]. cbn [Store.wal] in Hidle1, Hp1.
    destruct (cycle_from_Idle w1 m1 Hidle1 Hp1)
      as (w2 & Hcycle & Hidle2 & Ha2 & Hp2).
    destruct (IH (Store.mk w2 m1) Hidle2 Hp2 Ha2) as (s' & Hrun & Hrest).
    exists s'. split; [|exact Hrest].
    change (paced (c :: calls))
      with (Store.EvCall c :: (cycle ++ paced calls)).
    cbn [Store.run]. rewrite Hstep, store_run_app, Hcycle. exact Hrun.
Qed.

Lemma entriesOf_app calls1 calls2 :
  entriesOf (calls1 ++ calls2) = entriesOf calls1 ++ entriesOf calls2.
Proof. unfold entriesOf. apply omap_app. Qed.

Lemma logOf_paced calls : logOf (paced calls) = entriesOf calls.
Proof.
  induction calls as [|c calls IH]; [reflexivity|].
  cbn [paced flat_map].
  change (Store.EvCall c :: cycle) with ([Store.EvCall c] ++ cycle).
  rewrite <- app_assoc, !logOf_app, logOf_call.
  change (c :: calls) with ([c] ++ calls). rewrite entriesOf_app.
  fold (paced calls). rewrite IH. unfold entriesOf at 1. cbn.
  destruct (entryOf c); reflexivity.
Qed.

End PacedFacts.

(** X11. When the flusher gets through a cycle after every call, no call
    of a history of any length waits: on a store that [New] returned every
    call returns, and after the last cycle the flusher is in its [select],
    both buffers are empty and the file holds what was found at opening
    followed by the frames of all the entries logged. *)
Theorem paced_histories_never_wait
    {codec : EntryCodec} (onDisk : option (list byte)) (s0 : Store.t)
    (calls : list Store.call) :
  Store.New onDisk = Ok s0 ->
  exists s,
    Store.run s0 (paced calls) = Some s /\
    WAL.flusher (Store.wal s) = WAL.Idle /\
    WAL.activeBuffer (Store.wal s) = [] /\
    WAL.pendingBuffer (Store.wal s) = [] /\
    WAL.file (Store.wal s) = default [] onDisk ++ frames (entriesOf calls).
Proof.
  intros Hnew. pose proof (New_wal _ _ Hnew) as Hw0.
  destruct (paced_run calls s0) as (s & Hrun & Hidle & Hp & Ha);
    try (rewrite Hw0; reflexivity).
  exists s. split; [exact Hrun|]. split; [exact Hidle|].
  split; [exact Ha|]. split; [exact Hp|].
  destruct (run_logRun _ _ _ Hrun) as [Hlog _]. rewrite Hw0 in Hlog.
  pose proof (logRun_sound _ _ _ [] _ (sound_NewWAL onDisk) Hlog)
    as (_ & _ & _ & _ & _ & (more & Hes & Hfile)).
  cbn [app] in Hes.
  rewrite appendedOf_logEventsOf, Hp, Ha, !app_nil_r, logOf_paced in Hes.
  rewrite Hfile, Hes. reflexivity.
Qed.

Lemma paced_histories_never_wait_witness :
  let calls := replicate 150 (Store.CallSet "k" [x31]) ++
               [Store.CallDelete "k"] in
  let s0 := Store.mk (WAL.NewWAL None) ∅ in
  @Store.New MarkedCodec.codec None = Ok s0 /\
  exists s,
    @Store.run MarkedCodec.codec s0 (paced calls) = Some s /\
    WAL.flusher (Store.wal s) = WAL.Idle /\
    WAL.activeBuffer (Store.wal s) = [] /\
    WAL.pendingBuffer (Store.wal s) = [] /\
    WAL.file (Store.wal s) =
      default [] None ++ @frames MarkedCodec.codec (entriesOf calls).
Proof.
  intros calls s0. split; [reflexivity|].
  apply (@paced_histories_never_wait MarkedCodec.codec None s0 calls).
  reflexivity.
Defined.

(** ** The buffered store after [Close] *)

Section AfterCloseFacts.
Context {codec : EntryCodec}.

Lemma writePending_doneChan w :
  WAL.doneChan (WAL.writePending w) = WAL.doneChan w.
Proof.
  destruct w as [f [] wr fc dc ph a p]; rewrite writePending_eq; reflexivity.
Qed.

Lemma Close_closedLog s s' :
  Store.Close s = Returns (s', None) ->
  closedLog (WAL.file (Store.wal s')) (Store.wal s') /\
  WAL.activeBuffer (Store.wal s') = [] /\
  Store.data s' = Store.data s.
Proof.
  unfold Store.Close, WAL.Close.
  destruct (WAL.doneChan (Store.wal s)); [discriminate|].
  intros [= <-]. cbn [Store.wal Store.data].
  match goal with
  | |- context [WAL.with_fileOpen (WAL.flushBuffer (WAL.flushBuffer ?w1)) false] =>
      set (w3 := WAL.flushBuffer (WAL.flushBuffer w1));
      assert (Hdone : WAL.doneChan w3 = true)
  end.
  { subst w3. rewrite !flushBuffer_doneChan.
    destruct (WAL.flusher _);
      rewrite ?flushBuffer_doneChan, ?writePending_doneChan; reflexivity. }
  assert (Hactive : WAL.activeBuffer w3 = [])
    by apply flushBuffer_twice_active.
  unfold closedLog, WAL.with_flusher, WAL.with_fileOpen.
  cbn [WAL.file WAL.fileOpen WAL.writer WAL.flushChan WAL.doneChan
       WAL.flusher WAL.activeBuffer WAL.pendingBuffer].
  rewrite Hactive, Hdone. unfold bufferSize. cbn [length].
  split_and!; intros; try reflexivity; lia.
Qed.

Lemma logStep_closedLog file0 w ev w' :
  closedLog file0 w -> logStep w ev = Some w' ->
  closedLog file0 w' /\
  WAL.activeBuffer w' = WAL.activeBuffer w ++ appendedOf [ev].
Proof.
  destruct w as [f fo wr fc dc ph a p]. unfold closedLog, bufferSize.
  cbn [WAL.file WAL.flushChan WAL.doneChan WAL.flusher WAL.activeBuffer].
  intros (-> & -> & Hf & Hn & Hsig).
  destruct ev as [entry|tn]; cbn [logStep].
  - change (appendedOf [Appended entry]) with [entry].
    unfold WAL.Append, WAL.with_flushChan, WAL.with_flusher, WAL.with_buffers.
    cbn [WAL.file WAL.fileOpen WAL.writer WAL.flushChan WAL.doneChan
         WAL.flusher WAL.activeBuffer WAL.pendingBuffer].
    rewrite length_app. cbn [length]. unfold bufferSize.
    destruct (Nat.leb_spec 100 (length a + 1)) as [Hle|Hlt].
    + destruct fc; [discriminate|]. intros [= <-].
      cbn [WAL.file WAL.flushChan WAL.doneChan WAL.flusher WAL.activeBuffer].
      rewrite length_app. cbn [length].
      assert (length a < 100)%nat.
      { destruct (Nat.lt_ge_cases (length a) 100) as [?|Hx]; [assumption|].
        specialize (Hsig Hx). discriminate. }
      split_and!; intros; try reflexivity; try assumption; lia.
    + intros [= <-].
      cbn [WAL.file WAL.flushChan WAL.doneChan WAL.flusher WAL.activeBuffer].
      rewrite length_app. cbn [length].
      split_and!; intros; try reflexivity; try assumption; lia.
  - change (appendedOf [Moved tn]) with (@nil WALEntry). rewrite app_nil_r.
    unfold WAL.asyncFlush. cbn [WAL.flusher].
    destruct tn as [[]| |]; cbn [default]; intros [= <-];
      cbn [WAL.file WAL.flushChan WAL.doneChan WAL.flusher WAL.activeBuffer];
      split_and!; try reflexivity; assumption.
Qed.

Lemma logRun_closedLog evs file0 w w' :
  closedLog file0 w -> logRun w evs = Some w' ->
  closedLog file0 w' /\
  WAL.activeBuffer w' = WAL.activeBuffer w ++ appendedOf evs.
Proof.
  revert w. induction evs as [|ev evs IH]; intros w HC.
  - cbn. intros [= <-]. rewrite app_nil_r. split; [exact HC|reflexivity].
  - cbn [logRun]. destruct (logStep w ev) as [w1|] eqn:Hstep; [|discriminate].
    intros Hrun. destruct (logStep_closedLog _ _ _ _ HC Hstep) as [HC1 Ha1].
    destruct (IH w1 HC1 Hrun) as [HC' Ha']. split; [exact HC'|].
    change (ev :: evs) with ([ev] ++ evs).
    rewrite Ha', Ha1, appendedOf_app, app_assoc. reflexivity.
Qed.

End AfterCloseFacts.

(** X12. Once [Close] on the buffered store has returned, nothing is ever
    written again: after any history of calls that returned, the file is
    what [Close] left, every entry logged since sits in the active buffer,
    and another [Close] panics, [doneChan] being closed already. *)
Theorem nothing_is_written_after_Close
    {codec : EntryCodec} (s s' s'' : Store.t) (evs : list Store.event) :
  Store.Close s = Returns (s', None) ->
  Store.run s' evs = Some s'' ->
  WAL.file (Store.wal s'') = WAL.file (Store.wal s') /\
  WAL.activeBuffer (Store.wal s'') = logOf evs /\
  Store.Close s'' = Panics.
Proof.
  intros Hclose Hrun.
  destruct (Close_closedLog s s' Hclose) as (HC & Ha & _).
  destruct (run_logRun _ _ _ Hrun) as [Hlog _].
  destruct (logRun_closedLog _ _ _ _ HC Hlog)
    as [(_ & Hdone & Hfile & _) Ha'].
  rewrite Ha, appendedOf_logEventsOf in Ha'. cbn [app] in Ha'.
  split; [exact Hfile|]. split; [exact Ha'|].
  unfold Store.Close, WAL.Close. rewrite Hdone. reflexivity.
Qed.

Lemma nothing_is_written_after_Close_witness :
  let e1 := mkEntry OperationSet "alpha" [x31] in
  let s := Store.mk (WAL.mk [] true [] false false WAL.Idle [e1] [])
                    (<["alpha" := [x31]]> ∅) in
  let s' := Store.mk (WAL.mk (@frames MarkedCodec.codec [e1]) false [] false
                             true WAL.Gone [] [])
                     (<["alpha" := [x31]]> ∅) in
  let evs := [ Store.EvCall (Store.CallSet "beta" [x32]);
               Store.EvFlusher (WAL.Wake WAL.WakeTick);
               Store.EvCall (Store.CallDelete "alpha") ] in
  exists s'',
    @Store.Close MarkedCodec.codec s = Returns (s', None) /\
    @Store.run MarkedCodec.codec s' evs = Some s'' /\
    WAL.file (Store.wal s'') = WAL.file (Store.wal s') /\
    WAL.activeBuffer (Store.wal s'') = logOf evs /\
    @Store.Close MarkedCodec.codec s'' = Panics.
Proof.
  intros e1 s s' evs.
  assert (Hclose : @Store.Close MarkedCodec.codec s = Returns (s', None))
    by reflexivity.
  destruct (@Store.run MarkedCodec.codec s' evs) as [s''|] eqn:Hrun;
    [|vm_compute in Hrun; discriminate].
  exists s''. split; [exact Hclose|]. split; [reflexivity|].
  apply (@nothing_is_written_after_Close MarkedCodec.codec s s' s'' evs
           Hclose Hrun).
Defined.

(** X13. Once [Close] on the buffered store has returned, the store takes
    no more than a buffer of writes: a history that logs more than the
    flush threshold does not get all its calls back. The signal is in its
    slot, the flusher has returned, and [Append] waits to send. *)
Theorem closed_store_stops_returning
    {codec : EntryCodec} (s s' : Store.t) (evs : list Store.event) :
  Store.Close s = Returns (s', None) ->
  (bufferSize + 1 <= length (logOf evs))%nat ->
  Store.run s' evs = None.
Proof.
  intros Hclose Hlen.
  destruct (Store.run s' evs) as [s''|] eqn:Hrun; [exfalso|reflexivity].
  destruct (Close_closedLog s s' Hclose) as (HC & Ha & _).
  destruct (run_logRun _ _ _ Hrun) as [Hlog _].
  destruct (logRun_closedLog _ _ _ _ HC Hlog) as [(_ & _ & _ & Hn & _) Ha'].
  rewrite Ha', Ha, appendedOf_logEventsOf in Hn. cbn [app] in Hn. lia.
Qed.

Lemma closed_store_stops_returning_witness :
  let s := Store.mk (WAL.NewWAL None) ∅ in
  let s' := Store.mk (WAL.mk [] false [] false true WAL.Gone [] []) ∅ in
  let evs := sets 101 in
  @Store.Close MarkedCodec.codec s = Returns (s', None) /\
  (bufferSize + 1 <= length (logOf evs))%nat /\
  @Store.run MarkedCodec.codec s' evs = None.
Proof.
  intros s s' evs.
  assert (Hclose : @Store.Close MarkedCodec.codec s = Returns (s', None))
    by reflexivity.
  assert (Hlen : (bufferSize + 1 <= length (logOf evs))%nat)
    by (vm_compute; lia).
  split; [exact Hclose|]. split; [exact Hlen|].
  apply (@closed_store_stops_returning MarkedCodec.codec s s' evs Hclose Hlen).
Defined.

(** ** The JSON log and the store over it *)

Section JsonFacts.
Context {codec : EntryCodec}.
Import Bytes.




Lemma writerWrite_closed w p :
  WALJson.fileOpen w = false ->
  WALJson.fileOpen (fst (WALJson.writerWrite w p)) = false /\
  WALJson.file (fst (WALJson.writerWrite w p)) = WALJson.file w.
Proof.
  destruct w as [f fo wr err].
  cbn [WALJson.file WALJson.fileOpen WALJson.writer WALJson.writerErr].
  intros ->. unfold WALJson.writerWrite, WALJson.available.
  cbn [WALJson.file WALJson.fileOpen WALJson.writer WALJson.writerErr].
  destruct err; [split; reflexivity|].
  destruct (Nat.leb (length p) _); [split; reflexivity|].
  destruct wr; split; reflexivity.
Qed.

Lemma writerFlush_closed w :
  WALJson.fileOpen w = false ->
  WALJson.fileOpen (fst (WALJson.writerFlush w)) = false /\
  WALJson.file (fst (WALJson.writerFlush w)) = WALJson.file w.
Proof.
  destruct w as [f fo wr err]. cbn. intros ->.
  unfold WALJson.writerFlush. cbn.
  destruct err; [split; reflexivity|]. destruct wr; split; reflexivity.
Qed.

(** On a closed log [Append] returns an error and the file stays as it
    is. *)
Lemma Append_closed w entry :
  WALJson.fileOpen w = false ->
  WALJson.fileOpen (fst (WALJson.Append w entry)) = false /\
  WALJson.file (fst (WALJson.Append w entry)) = WALJson.file w /\
  snd (WALJson.Append w entry) <> None.
Proof.
  intros Hc. unfold WALJson.Append.
  destruct (Encode entry) as [data|]; [|repeat split; [exact Hc|discriminate]].
  pose proof (writerWrite_closed w (PutUint32 (u32 (Z.of_nat (length data))))
                Hc) as [Hc1 Hf1].
  destruct (WALJson.writerWrite w _) as [w1 ok1]. cbn [fst] in Hc1, Hf1.
  destruct ok1; cbn [negb];
    [|repeat split; [exact Hc1|exact Hf1|discriminate]].
  pose proof (writerWrite_closed w1 data Hc1) as [Hc2 Hf2].
  destruct (WALJson.writerWrite w1 data) as [w2 ok2]. cbn [fst] in Hc2, Hf2.
  destruct ok2; cbn [negb];
    [|cbn [fst snd]; repeat split; [exact Hc2|congruence|discriminate]].
  pose proof (writerFlush_closed w2 Hc2) as [Hc3 Hf3].
  destruct (WALJson.writerFlush w2) as [w3 ok3]. cbn [fst] in Hc3, Hf3.
  destruct ok3; cbn [negb]; rewrite ?Hc3; cbn [fst snd];
    repeat split; try exact Hc3; try congruence; discriminate.
Qed.

Lemma ReadAll_closed w :
  WALJson.fileOpen w = false ->
  WALJson.fileOpen (fst (WALJson.ReadAll w)) = false /\
  WALJson.file (fst (WALJson.ReadAll w)) = WALJson.file w /\
  exists e, snd (WALJson.ReadAll w) = inr e.
Proof.
  intros Hc. unfold WALJson.ReadAll.
  pose proof (writerFlush_closed w Hc) as [Hc1 Hf1].
  destruct (WALJson.writerFlush w) as [w1 ok1]. cbn [fst] in Hc1, Hf1.
  destruct ok1; cbn [negb]; rewrite ?Hc1;
    (split; [exact Hc1|split; [exact Hf1|eexists; reflexivity]]).
Qed.

Lemma Close_closed w :
  WALJson.fileOpen w = false ->
  WALJson.fileOpen (fst (WALJson.Close w)) = false /\
  WALJson.file (fst (WALJson.Close w)) = WALJson.file w /\
  exists e, snd (WALJson.Close w) = Some e.
Proof.
  intros Hc. unfold WALJson.Close.
  pose proof (writerFlush_closed w Hc) as [Hc1 Hf1].
  destruct (WALJson.writerFlush w) as [w1 ok1]. cbn [fst] in Hc1, Hf1.
  destruct ok1; cbn [negb]; rewrite ?Hc1;
    (split; [exact Hc1|split; [exact Hf1|eexists; reflexivity]]).
Qed.

(** [Close] that returns no error has closed the file. *)
Lemma Close_ok_closes w w' :
  WALJson.Close w = (w', None) ->
  WALJson.fileOpen w' = false /\ WALJson.file w' = WALJson.file w ++ WALJson.writer w.
Proof.
  unfold WALJson.Close, WALJson.writerFlush.
  destruct w as [f fo wr err]. cbn.
  destruct err; cbn; [discriminate|].
  destruct wr as [|b wr]; cbn.
  - destruct fo; [|discriminate]. intros [= <-]. cbn.
    rewrite app_nil_r. split; reflexivity.
  - destruct fo; cbn; [|discriminate]. intros [= <-]. split; reflexivity.
Qed.

Lemma appendAll_closed entries w :
  WALJson.fileOpen w = false ->
  WALJson.fileOpen (fst (appendAll w entries)) = false /\
  WALJson.file (fst (appendAll w entries)) = WALJson.file w /\
  Forall (fun out => out <> None) (snd (appendAll w entries)).
Proof.
  revert w. induction entries as [|entry entries IH]; intros w Hc.
  - cbn. repeat split; [exact Hc|apply Forall_nil_2].
  - cbn [appendAll].
    destruct (Append_closed w entry Hc) as (Hc1 & Hf1 & Hout).
    destruct (WALJson.Append w entry) as [w1 out]. cbn [fst snd] in *.
    destruct (IH w1 Hc1) as (Hc2 & Hf2 & Houts).
    destruct (appendAll w1 entries) as [w2 outs]. cbn [fst snd] in *.
    split; [exact Hc2|]. split; [congruence|].
    apply Forall_cons_2; assumption.
Qed.








(** A call on a closed store changes neither the index nor the file. *)
Lemma step_closed_json s c :
  WALJson.fileOpen (StoreJson.wal s) = false ->
  WALJson.fileOpen (StoreJson.wal (StoreJson.step s c)) = false /\
  WALJson.file (StoreJson.wal (StoreJson.step s c)) =
    WALJson.file (StoreJson.wal s) /\
  StoreJson.data (StoreJson.step s c) = StoreJson.data s.
Proof.
  intros Hc. destruct c as [key value|key|key]; cbn [StoreJson.step].
  - unfold StoreJson.Set_. destruct (decide (key = ""%string));
      [repeat split; exact Hc|].
    destruct (Append_closed (StoreJson.wal s)
                (mkEntry OperationSet key value) Hc) as (Hc1 & Hf1 & Hout).
    destruct (WALJson.Append _ _) as [w1 [err|]]; cbn [fst snd] in *;
      [repeat split; assumption|congruence].
  - unfold StoreJson.Delete. destruct (decide (key = ""%string));
      [repeat split; exact Hc|].
    destruct (Append_closed (StoreJson.wal s)
                (mkEntry OperationDelete key []) Hc) as (Hc1 & Hf1 & Hout).
    destruct (WALJson.Append _ _) as [w1 [err|]]; cbn [fst snd] in *;
      [repeat split; assumption|congruence].
  - repeat split; exact Hc.
Qed.

Lemma run_closed_json calls s :
  WALJson.fileOpen (StoreJson.wal s) = false ->
  WALJson.fileOpen (StoreJson.wal (StoreJson.run s calls)) = false /\
  WALJson.file (StoreJson.wal (StoreJson.run s calls)) =
    WALJson.file (StoreJson.wal s) /\
  StoreJson.data (StoreJson.run s calls) = StoreJson.data s.
Proof.
  revert s. induction calls as [|c calls IH]; intros s Hc;
    [repeat split; exact Hc|].
  unfold StoreJson.run. cbn [fold_left].
  destruct (step_closed_json s c Hc) as (Hc1 & Hf1 & Hd1).
  destruct (IH (StoreJson.step s c) Hc1) as (Hc2 & Hf2 & Hd2).
  unfold StoreJson.run in Hc2, Hf2, Hd2.
  split; [exact Hc2|]. split; congruence.
Qed.



End JsonFacts.

Section JsonRoundTripFacts.
Context {codec : EntryCodec} {law : RoundTrip codec}.
Import Bytes.




End JsonRoundTripFacts.





(** X16. Once [Close] on the JSON log has returned no error the log is
    closed for good: every later [Append] returns an error, whatever the
    entry, [ReadAll] and [Close] return an error, and none of them changes
    the file. *)
Theorem json_log_refuses_once_closed
    {codec : EntryCodec} (w w' w'' : WALJson.t) (entries : list WALEntry)
    (outs : list (option WALJson.failure)) :
  WALJson.Close w = (w', None) ->
  appendAll w' entries = (w'', outs) ->
  Forall (fun out => out <> None) outs /\
  WALJson.file w'' = WALJson.file w' /\
  (exists e, snd (WALJson.ReadAll w'') = inr e) /\
  WALJson.file (fst (WALJson.ReadAll w'')) = WALJson.file w' /\
  (exists e, snd (WALJson.Close w'') = Some e) /\
  WALJson.file (fst (WALJson.Close w'')) = WALJson.file w'.
Proof.
  intros Hclose Happ.
  destruct (Close_ok_closes w w' Hclose) as [Hc _].
  destruct (appendAll_closed entries w' Hc) as (Hc2 & Hf2 & Houts).
  rewrite Happ in Hc2, Hf2, Houts. cbn [fst snd] in Hc2, Hf2, Houts.
  destruct (ReadAll_closed w'' Hc2) as (_ & Hfr & Her).
  destruct (Close_closed w'' Hc2) as (_ & Hfc & Hec).
  split; [exact Houts|]. split; [exact Hf2|]. split; [exact Her|].
  split; [congruence|]. split; [exact Hec|congruence].
Qed.

Lemma json_log_refuses_once_closed_witness :
  let e1 := mkEntry OperationSet "alpha" [x31] in
  let e2 := mkEntry OperationDelete "alpha" [] in
  let w := WALJson.mk [x00] true [] false in
  let w' := WALJson.mk [x00] false [] false in
  exists w'' outs,
    @WALJson.Close w = (w', None) /\
    @appendAll MarkedCodec.codec w' [e1; e2] = (w'', outs) /\
    Forall (fun out => out <> None) outs /\
    WALJson.file w'' = WALJson.file w' /\
    (exists e, snd (@WALJson.ReadAll MarkedCodec.codec w'') = inr e) /\
    WALJson.file (fst (@WALJson.ReadAll MarkedCodec.codec w''))
      = WALJson.file w' /\
    (exists e, snd (WALJson.Close w'') = Some e) /\
    WALJson.file (fst (WALJson.Close w'')) = WALJson.file w'.
Proof.
  intros e1 e2 w w'.
  destruct (@appendAll MarkedCodec.codec w' [e1; e2]) as [w'' outs] eqn:Happ.
  exists w'', outs. split; [reflexivity|]. split; [reflexivity|].
  apply (@json_log_refuses_once_closed MarkedCodec.codec w w' w'' [e1; e2]
           outs eq_refl Happ).
Defined.

(** X17. Once [Close] on the store over the JSON log has returned no
    error, whatever calls follow, [Set] and [Delete] return an error,
    [Delete] reporting [false], the index and the file stay as they were
    at [Close], and [Get] goes on answering from the index. *)
Theorem json_store_refuses_writes_once_closed
    {codec : EntryCodec} (s s' : StoreJson.t) (calls : list Store.call)
    (key : string) (value : list byte) :
  StoreJson.Close s = (s', None) ->
  let s'' := StoreJson.run s' calls in
  StoreJson.data s'' = StoreJson.data s /\
  WALJson.file (StoreJson.wal s'') = WALJson.file (StoreJson.wal s') /\
  (exists e, snd (StoreJson.Set_ s'' key value) = Some e) /\
  StoreJson.data (fst (StoreJson.Set_ s'' key value)) = StoreJson.data s /\
  (exists e, snd (StoreJson.Delete s'' key) = (false, Some e)) /\
  StoreJson.data (fst (StoreJson.Delete s'' key)) = StoreJson.data s /\
  StoreJson.Get s'' key = StoreJson.Get s key.
Proof.
  intros Hclose s''. unfold StoreJson.Close in Hclose.
  destruct (WALJson.Close (StoreJson.wal s)) as [w' err] eqn:Hc.
  injection Hclose as <- ->.
  destruct (Close_ok_closes _ _ Hc) as [Hclosed _].
  destruct (run_closed_json calls (StoreJson.mk w' (StoreJson.data s)) Hclosed)
    as (Hc2 & Hf2 & Hd2).
  fold s'' in Hc2, Hf2, Hd2. cbn [StoreJson.wal StoreJson.data] in Hf2, Hd2.
  split; [exact Hd2|]. split; [exact Hf2|].
  assert (HS : (exists e, snd (StoreJson.Set_ s'' key value) = Some e) /\
               StoreJson.data (fst (StoreJson.Set_ s'' key value))
                 = StoreJson.data s).
  { unfold StoreJson.Set_. destruct (decide (key = ""%string));
      [split; [eexists; reflexivity|exact Hd2]|].
    destruct (Append_closed (StoreJson.wal s'')
                (mkEntry OperationSet key value) Hc2) as (_ & _ & Hout).
    destruct (WALJson.Append _ _) as [w1 [e|]]; cbn [fst snd] in *;
      [split; [eexists; reflexivity|exact Hd2]|congruence]. }
  assert (HD : (exists e, snd (StoreJson.Delete s'' key) = (false, Some e)) /\
               StoreJson.data (fst (StoreJson.Delete s'' key))
                 = StoreJson.data s).
  { unfold StoreJson.Delete. destruct (decide (key = ""%string));
      [split; [eexists; reflexivity|exact Hd2]|].
    destruct (Append_closed (StoreJson.wal s'')
                (mkEntry OperationDelete key []) Hc2) as (_ & _ & Hout).
    destruct (WALJson.Append _ _) as [w1 [e|]]; cbn [fst snd] in *;
      [split; [eexists; reflexivity|exact Hd2]|congruence]. }
  destruct HS as [HS1 HS2], HD as [HD1 HD2].
  split; [exact HS1|]. split; [exact HS2|]. split; [exact HD1|].
  split; [exact HD2|]. unfold StoreJson.Get. rewrite Hd2. reflexivity.
Qed.

Lemma json_store_refuses_writes_once_closed_witness :
  let s := StoreJson.mk (WALJson.mk [x00] true [] false)
                        (<["alpha" := [x31]]> ∅) in
  let s' := StoreJson.mk (WALJson.mk [x00] false [] false)
                         (<["alpha" := [x31]]> ∅) in
  let calls := [ Store.CallSet "beta" [x32]; Store.CallDelete "alpha" ] in
  @StoreJson.Close s = (s', None) /\
  let s'' := @StoreJson.run MarkedCodec.codec s' calls in
  StoreJson.data s'' = StoreJson.data s /\
  WALJson.file (StoreJson.wal s'') = WALJson.file (StoreJson.wal s') /\
  (exists e, snd (@StoreJson.Set_ MarkedCodec.codec s'' "alpha" [x33])
             = Some e) /\
  StoreJson.data (fst (@StoreJson.Set_ MarkedCodec.codec s'' "alpha" [x33]))
    = StoreJson.data s /\
  (exists e, snd (@StoreJson.Delete MarkedCodec.codec s'' "alpha")
             = (false, Some e)) /\
  StoreJson.data (fst (@StoreJson.Delete MarkedCodec.codec s'' "alpha"))
    = StoreJson.data s /\
  StoreJson.Get s'' "alpha" = StoreJson.Get s "alpha".
Proof.
  intros s s' calls. split; [reflexivity|].
  apply (@json_store_refuses_writes_once_closed MarkedCodec.codec s s' calls
           "alpha" [x33] eq_refl).
Defined.
